(** * gblearn: unique local-atomic-environment extraction, classification
      and the LER fingerprint

    A shallow embedding of [gblearn/gb.py]: the two passes of
    [GrainBoundaryCollection.uniquify] ([_uniquify], [_classify]), the pruning
    and ordering of the catalogue, the threshold-keyed accessors [U] and [LER],
    and the [selectargs] handling of [GrainBoundary.__init__]; further
    [get_property] and [add_property], [_find_gbs] and [load], [features]
    with the feature map, and of [gblearn/elements.py] the table of elements
    with [atoms] and [shells].

    Conventions of the embedding.
    - Floating point numbers (kernel values, thresholds, fingerprint entries)
      are exact rationals [Q]; the constant [1.0] is [1].  A Python integer
      is a [Z], and its division is the floor division of the interpreter
      the sources are written for.
    - The similarity kernel [gblearn.soap.S] is not part of the sources; it is
      a parameter [soap_S] of the development (the name [S] is the successor
      of [nat]).
    - An [OrderedDict] is an association list in insertion order.  A plain
      [dict] that the code iterates over is an association list too, but its
      iteration goes through [items], an arbitrary permutation (class
      [DictOrder]): the interpreter the sources are written for does not
      iterate a [dict] in insertion order.  A plain [dict] that is only looked
      up is a [gmap].
    - A Python exception is a value [Raise e] of the result type [res]. *)
From stdpp Require Import base decidable option list strings gmap sorting pretty.
From Stdlib Require Import QArith Lia Lqa.

Local Open Scope Q_scope.

(** ** Exceptions *)

Inductive exn : Set :=
  | ValueError | KeyError | TypeError | IndexError | AttributeError
  | AssertionError.

Inductive res (A : Type) : Type :=
  | Ok (a : A)
  | Raise (e : exn).
Arguments Ok {A} a.
Arguments Raise {A} e.

#[global] Instance res_ret : MRet res := λ A a, Ok a.
#[global] Instance res_bind : MBind res := λ A B f m,
  match m with Ok a => f a | Raise e => Raise e end.


(** A [for] loop over [l] whose body [f] may raise: the first exception
    leaves the loop. *)
Fixpoint foldM {A B} (f : B → A → res B) (b : B) (l : list A) : res B :=
  match l with
  | [] => Ok b
  | x :: l' => match f b x with Ok b' => foldM f b' l' | Raise e => Raise e end
  end.

(** The same loop over mutable state that outlives the exception: the state
    reached when the exception was raised is returned with it. *)
Fixpoint iterE {A B} (f : B → A → B * option exn) (b : B) (l : list A)
  : B * option exn :=
  match l with
  | [] => (b, None)
  | x :: l' =>
      match f b x with
      | (b', None) => iterE f b' l'
      | (b', Some e) => (b', Some e)
      end
  end.

#[global] Instance Q_lt_dec : RelDecision Qlt := λ x y,
  match Qlt_le_dec x y with
  | left H => left H
  | right H => right (Qle_not_lt _ _ H)
  end.

#[global] Instance Q_eq_dec : RelDecision Qeq := Qeq_dec.

#[global] Instance Q_le_dec : RelDecision Qle := λ x y,
  match Qlt_le_dec y x with
  | left H => right (Qlt_not_le _ _ H)
  | right H => left H
  end.

(** ** Dictionaries *)

Module Dict.
Section dict.
Context {K V : Type} `{EqDecision K}.

Definition keys (d : list (K * V)) : list K := d.*1.

(** [k in d] *)
Definition contains (k : K) (d : list (K * V)) : bool :=
bool_decide (k ∈ keys d).

(** [d[k]], [None] standing for the [KeyError] *)
Fixpoint get (k : K) (d : list (K * V)) : option V :=
match d with
| [] => None
| (k', v) :: d' => if decide (k = k') then Some v else get k d'
end.

(** [d[k] = v]: a present key keeps its position, a new key goes last *)
Fixpoint set (k : K) (v : V) (d : list (K * V)) : list (K * V) :=
match d with
| [] => [(k, v)]
| (k', v') :: d' =>
  if decide (k = k') then (k, v) :: d' else (k', v') :: set k v d'
end.

(** [d[k]] inside code that propagates the [KeyError] *)
Definition lookup (k : K) (d : list (K * V)) : res V :=
match get k d with Some v => Ok v | None => Raise KeyError end.

(** [del d[k]] *)
Definition del (k : K) (d : list (K * V)) : res (list (K * V)) :=
if contains k d then Ok (filter (λ e, e.1 ≠ k) d) else Raise KeyError.

(** [OrderedDict(l)] for a list of pairs *)
Definition of_list (l : list (K * V)) : list (K * V) :=
foldl (λ d kv, set kv.1 kv.2 d) [] l.
End dict.
End Dict.

(** The threshold-keyed dictionaries of the result store: float keys,
    compared by value. *)
Fixpoint store_get {V} (eps : Q) (d : list (Q * V)) : option V :=
  match d with
  | [] => None
  | (e, v) :: d' => if Qeq_bool eps e then Some v else store_get eps d'
  end.

Fixpoint store_put {V} (eps : Q) (v : V) (d : list (Q * V)) : list (Q * V) :=
  match d with
  | [] => [(eps, v)]
  | (e, v') :: d' =>
      if Qeq_bool eps e then (e, v) :: d' else (e, v') :: store_put eps v d'
  end.

(** ** Identifiers *)

(** A representative identifier [(PID, VID)]: sample id and row index. *)
Definition key : Type := string * nat.

(** The identifier [('0', 0)] under which the seed enters the catalogue. *)
Definition seed_key : key := ("0"%string, 0%nat).

(** Iteration order of a plain [dict] with identifier keys. *)
Class DictOrder : Type := {
  items : ∀ {V : Type}, list (key * V) → list (key * V);
  items_perm : ∀ (V : Type) (d : list (key * V)), items d ≡ₚ d
}.

(** Dictionaries that iterate in insertion order. *)
Definition insertion_order : DictOrder :=
  {| items := λ V d, d; items_perm := λ V d, reflexivity d |}.

(** [enumerate(l)] from index [n] *)
Fixpoint enumerate_from {A} (n : nat) (l : list A) : list (nat * A) :=
  match l with
  | [] => []
  | x :: l' => (n, x) :: enumerate_from (S n) l'
  end.
Definition enumerate {A} (l : list A) : list (nat * A) := enumerate_from 0 l.

(** [sorted(l, key=itemgetter(1), reverse=True)]: a stable sort, largest
    second component first; equal elements keep their order in [l]. *)
Fixpoint insert_desc (x : key * Q) (l : list (key * Q)) : list (key * Q) :=
  match l with
  | [] => [x]
  | y :: l' =>
      if decide (x.2 < y.2) then y :: insert_desc x l' else x :: y :: l'
  end.
Definition sorted_desc (l : list (key * Q)) : list (key * Q) :=
  foldr insert_desc [] l.

(** numpy floats as they arise in [LER]: a finite value, or the result of a
    division by zero. *)
Inductive npfloat : Type :=
  | Fin (q : Q)
  | Inf
  | NaN.

(** [c / N] for a count [c] and a total [N], both stored as floats *)
Definition npdiv (c N : nat) : npfloat :=
  if decide (N = 0%nat) then (if decide (c = 0%nat) then NaN else Inf)
  else Fin (inject_Z (Z.of_nat c) / inject_Z (Z.of_nat N)).

Section Collection.
Context {vec : Type}.
(** [gblearn.soap.S] *)
Variable soap_S : vec → vec → Q.
Context {order : DictOrder}.

(** *** First pass: [GrainBoundaryCollection._uniquify] *)

(** The inner loop over the current unique vectors; [true] when it leaves
    through [break]. *)
Fixpoint row_matches (Pv : vec) (eps : Q) (uni : list (key * vec)) : bool :=
  match uni with
  | [] => false
  | (u, uP) :: rest =>
      if decide (soap_S Pv uP < eps) then true else row_matches Pv eps rest
  end.

Definition _uniquify (NP : list vec) (gbid : string)
    (uni : list (key * vec)) (eps : Q) : list (key * vec) :=
  foldl (λ uni '(i, Pv),
           if row_matches Pv eps uni then uni
           else Dict.set (gbid, i) Pv uni)
        uni (enumerate NP).

(** *** Second pass: [GrainBoundaryCollection._classify] *)

(** One iteration of the inner loop: state [(result, K0, U0)]. *)
Definition scan_entry (Pv : vec) (eps : Q)
    (st : list (key * list key) * Q * option key) (e : key * vec)
  : list (key * list key) * Q * option key :=
  let '(result, K0, U0) := st in
  let '(u, uP) := e in
  let result :=
    if Dict.contains u result then result else Dict.set u [u] result in
  let K := soap_S Pv uP in
  if decide (K < eps) then
    if decide (K < K0) then (result, K, Some u) else (result, K0, U0)
  else (result, K0, U0).

(** One iteration of the outer loop: state [(result, used, warnings)];
    [result[None]] is the [KeyError] of the second case. *)
Definition classify_row (PID : string) (uni : list (key * vec)) (eps : Q)
    (st : list (key * list key) * list (key * bool) * list key)
    (row : nat * vec)
  : res (list (key * list key) * list (key * bool) * list key) :=
  let '(result, used, warned) := st in
  let '(i, Pv) := row in
  let '(result, K0, U0) := foldl (scan_entry Pv eps) (result, 1, None) uni in
  if decide (K0 < eps) then
    match U0 with
    | None => Raise KeyError
    | Some u =>
        match Dict.get u result with
        | None => Raise KeyError
        | Some l =>
            Ok (Dict.set u (l ++ [(PID, i)]) result,
                Dict.set u true used, warned)
        end
    end
  else Ok (result, used, warned ++ [(PID, i)]).

(** Returns the per-sample result, the updated [used] flags and the
    identifiers that [msg.warn] was called for. *)
Definition _classify (NP : list vec) (PID : string) (uni : list (key * vec))
    (eps : Q) (used : list (key * bool)) (warned : list key)
  : res (list (key * list key) * list (key * bool) * list key) :=
  foldM (classify_row PID uni eps) ([], used, warned) (enumerate NP).

(** *** The collection *)

(** A grain boundary of the collection together with its entry of the
    descriptor store: [xyz_len] is [len(gb)], [P] the rows of
    [self.P[gbid]], [LAEs] the attribute of that name ([None] until [trim]
    has run, an entry [(None, None)] being [None]). *)
Record Sample : Type := {
  xyz_len : nat;
  P : list vec;
  LAEs : option (list (option key))
}.

Definition set_LAEs (s : Sample) (l : list (option key)) : Sample :=
  {| xyz_len := xyz_len s; P := P s; LAEs := Some l |}.

(** The dictionary returned by [uniquify]: keys ["U"] and ["GBs"]. *)
Record UResult : Type := {
  r_U : list (key * vec);
  r_GBs : gmap string (list (key * list key))
}.

(** The collection once [load] and [soap] have run, so that [self],
    [self.gbfiles] and the descriptor store have the same keys in the same
    order: [gbs].  [store_U] and [store_LER] are the threshold-keyed
    dictionaries of the result store. *)
Record Collection : Type := {
  seed : option vec;
  gbs : list (string * Sample);
  store_U : list (Q * UResult);
  store_LER : list (Q * list (list npfloat))
}.

Definition with_gbs (c : Collection) (g : list (string * Sample)) :=
  {| seed := seed c; gbs := g; store_U := store_U c;
     store_LER := store_LER c |}.
Definition with_store_U (c : Collection) (u : list (Q * UResult)) :=
  {| seed := seed c; gbs := gbs c; store_U := u;
     store_LER := store_LER c |}.
Definition with_store_LER (c : Collection)
    (l : list (Q * list (list npfloat))) :=
  {| seed := seed c; gbs := gbs c; store_U := store_U c; store_LER := l |}.

(** *** [GrainBoundaryCollection.uniquify] *)

Definition classify_sample (uni : list (key * vec)) (eps : Q)
    (st : gmap string (list (key * list key)) * list (key * bool) * list key)
    (gs : string * Sample)
  : res (gmap string (list (key * list key)) * list (key * bool) * list key) :=
  let '(GBs, used, warned) := st in
  '(LAEs, used, warned) ← _classify (P gs.2) gs.1 uni eps used warned;
  Ok (<[gs.1 := LAEs]> GBs, used, warned).

(** The catalogue after the first loop over the samples: the seed under
    [seed_key], then what [_uniquify] adds sample by sample. *)
Definition extraction (sd : vec) (g : list (string * Sample)) (eps : Q)
  : list (key * vec) :=
  foldl (λ U gs, _uniquify (P gs.2) gs.1 U eps) (Dict.set seed_key sd []) g.

(** [{k: False for k in U}] *)
Definition unused (U : list (key * vec)) : list (key * bool) :=
  foldl (λ d k, Dict.set k false d) [] (Dict.keys U).

(** The second loop over the samples. *)
Definition classification (U : list (key * vec)) (eps : Q)
    (g : list (string * Sample))
  : res (gmap string (list (key * list key)) * list (key * bool) * list key) :=
  foldM (classify_sample U eps) (∅, unused U, []) g.

(** The loop that deletes the entries of [U] whose flag is still [False]. *)
Definition prune (used : list (key * bool)) (U : list (key * vec))
  : res (list (key * vec)) :=
  foldM (λ U kv, if kv.2 : bool then Ok U else Dict.del kv.1 U)
        U (items used).

(** [K], the scores of the entries against the seed. *)
Definition scores (sd : vec) (U : list (key * vec)) : list (key * Q) :=
  foldl (λ K uv, Dict.set uv.1 (soap_S uv.2 sd) K) [] U.

(** The last three statements: [K], [Us] and [result["U"]]. *)
Definition finalize (sd : vec) (U : list (key * vec))
  : res (list (key * vec)) :=
  let Us := Dict.of_list (sorted_desc (items (scores sd U))) in
  U' ← mapM (λ u, v ← Dict.lookup u U; Ok (u, v)) (Dict.keys Us);
  Ok (Dict.of_list U').

(** Returns the result dictionary and the identifiers warned about. *)
Definition uniquify (c : Collection) (eps : Q) : res (UResult * list key) :=
  match seed c with
  | None => Raise ValueError
  | Some sd =>
      let U := extraction sd (gbs c) eps in
      '(GBs, used, warned) ← classification U eps (gbs c);
      U ← prune used U;
      U ← finalize sd U;
      Ok ({| r_U := U; r_GBs := GBs |}, warned)
  end.

(** *** [GrainBoundaryCollection.U] *)

(** [self[gbid].LAEs[VID] = u] *)
Definition assign_LAE (s : Sample) (a : nat * key) : Sample * option exn :=
  match LAEs s with
  | None => (s, Some TypeError)
  | Some l =>
      if decide (a.1 < length l)%nat
      then (set_LAEs s (<[a.1 := Some a.2]> l), None)
      else (s, Some IndexError)
  end.

(** The pairs [(VID, u)] in the order the two inner loops visit them. *)
Definition assignments (LAEs : list (key * list key)) : list (nat * key) :=
  flat_map (λ ue, (λ pv : key, (pv.2, ue.1)) <$> tail ue.2) (items LAEs).

Definition assign_sample (r : UResult) (gs : string * Sample)
  : (string * Sample) * option exn :=
  match r_GBs r !! gs.1 with
  | None => (gs, Some KeyError)
  | Some LAEs =>
      let '(s, e) := iterE assign_LAE gs.2 (assignments LAEs) in
      ((gs.1, s), e)
  end.

Fixpoint assign_all (r : UResult) (l : list (string * Sample))
  : list (string * Sample) * option exn :=
  match l with
  | [] => ([], None)
  | gs :: l' =>
      match assign_sample r gs with
      | (gs', Some e) => (gs' :: l', Some e)
      | (gs', None) =>
          let '(l'', e) := assign_all r l' in (gs' :: l'', e)
      end
  end.

Definition U (c : Collection) (eps : Q) : res UResult * Collection :=
  let fetched :=
    match store_get eps (store_U c) with
    | Some r => Ok (r, c)
    | None =>
        match uniquify c eps with
        | Ok (r, _) => Ok (r, with_store_U c (store_put eps r (store_U c)))
        | Raise e => Raise e
        end
    end in
  match fetched with
  | Raise e => (Raise e, c)
  | Ok (r, c1) =>
      let '(g, e) := assign_all r (gbs c1) in
      match e with
      | None => (Ok r, with_gbs c1 g)
      | Some e => (Raise e, with_gbs c1 g)
      end
  end.

(** *** [GrainBoundaryCollection.LER] *)

(** [self[gbid].LAEs.count(uid)] *)
Definition LAE_count (s : Sample) (uid : key) : res nat :=
  match LAEs s with
  | None => Raise AttributeError
  | Some l => Ok (length (filter (λ x, x = Some uid) l))
  end.

(** One row: the counts, the assertion, the normalisation. *)
Definition LER_row (uids : list key) (s : Sample) : res (list npfloat) :=
  counts ← mapM (LAE_count s) uids;
  let N := sum_list counts in
  if decide (N = xyz_len s) then Ok ((λ c, npdiv c N) <$> counts)
  else Raise AssertionError.

Definition LER (c : Collection) (eps : Q)
  : res (list (list npfloat)) * Collection :=
  match store_get eps (store_LER c) with
  | Some M => (Ok M, c)
  | None =>
      match U c eps with
      | (Raise e, c1) => (Raise e, c1)
      | (Ok r, c1) =>
          match mapM (λ gs, LER_row (Dict.keys (r_U r)) gs.2) (gbs c1) with
          | Raise e => (Raise e, c1)
          | Ok M =>
              (Ok M, with_store_LER c1 (store_put eps M (store_LER c1)))
          end
      end
  end.
End Collection.

Arguments Sample : clear implicits.
Arguments UResult : clear implicits.
Arguments Collection : clear implicits.

(** ** [GrainBoundary.__init__] *)

Module GrainBoundary.
(** Values of the keyword dictionaries: floats, integers, strings and
    [None]. *)
Inductive pyval : Type :=
  | PyNum (q : Q)
  | PyInt (z : Z)
  | PyStr (s : string)
  | PyNone.

(** [v /= 2]: true division on a float; on an integer the floor division
    of the interpreter the sources are written for (no division is
    imported from [__future__]); a string or [None] raises. *)
Definition halve (v : pyval) : res pyval :=
  match v with
  | PyNum q => Ok (PyNum (q / 2))
  | PyInt z => Ok (PyInt (z / 2)%Z)
  | PyStr _ | PyNone => Raise TypeError
  end.

(** The two statements on [selectargs]: the membership test, which raises
    on [None], and the update of the entry. *)
Definition halve_padding (selectargs : option (gmap string pyval))
  : res (gmap string pyval) :=
  match selectargs with
  | None => Raise TypeError
  | Some m =>
      match m !! "padding"%string with
      | None => Ok m
      | Some v => v' ← halve v; Ok (<["padding"%string := v']> m)
      end
  end.

Section init.
(** numpy arrays and the calculator object are opaque; [make_lattice] and
    the constructor of [SOAPCalculator] are not part of the sources and
    may raise. *)
Context {array calculator : Type}.
Variable make_lattice : array → res array.
Variable SOAPCalculator : gmap string pyval → res calculator.
(** [v.copy()], transposed when [v] is a [FortranArray] *)
Variable copy_extra : array → array.
(** the names for which [hasattr] holds before the extras are set (a
    property whose getter fails there is not among them) *)
Variable attributes : list string.

(** [extra_attrs] are the attributes that hold an extra; [P], [_atoms],
    [_NP] and [_K] are the attributes of these names. *)
Record t : Type := {
  xyz : array;
  types : array;
  box : option array;
  lattice : array;
  calc : calculator;
  Z : nat;
  LAEs : option (list (option key));
  selectargs : gmap string pyval;
  extras : list string;
  extra_attrs : list (string * array);
  P : option array;
  _atoms : option array;
  _NP : option array;
  _K : option array
}.

(** The properties of the class: none has a setter, so [setattr] on one
    of these names raises. *)
Definition properties : list string :=
  ["NP"%string; "K"%string; "gbids"%string; "atoms"%string].

(** The attributes that the constructor sets to [None] after the
    extras. *)
Definition caches : list string :=
  ["P"%string; "_atoms"%string; "_NP"%string; "_K"%string].

(** The loop over [extras.items()]: state is the attributes set so far
    and the names warned about.  [hasattr] holds for the names of
    [attributes] and for the names the loop has set. *)
Definition set_extras (ex : list (string * array))
  : res (list (string * array) * list string) :=
  foldM (λ st kv,
           if bool_decide (kv.1 ∈ attributes ++ Dict.keys st.1)
           then Ok (st.1, st.2 ++ [kv.1])
           else if bool_decide (kv.1 ∈ properties)
           then Raise AttributeError
           else Ok (st.1 ++ [(kv.1, copy_extra kv.2)], st.2))
        ([], []) ex.

(** Returns the instance and the names warned about.  The last four
    statements replace whatever an extra has put under the names of
    [caches]. *)
Definition init (xyz types box : array) (Z : nat)
    (extras : option (list (string * array)))
    (selectargs : option (gmap string pyval)) (makelat : bool)
    (soapargs : gmap string pyval) : res (t * list string) :=
  lat ← (if makelat then make_lattice box else Ok box);
  c ← SOAPCalculator soapargs;
  sa ← halve_padding selectargs;
  '(attrs, warned) ←
    match extras with Some ex => set_extras ex | None => Ok ([], []) end;
  Ok ({| xyz := xyz; types := types;
         box := if makelat then Some box else None;
         lattice := lat; calc := c; Z := Z; LAEs := None;
         selectargs := sa;
         extras := match extras with Some ex => ex.*1 | None => [] end;
         extra_attrs := filter (λ kv, kv.1 ∉ caches) attrs;
         P := None; _atoms := None; _NP := None; _K := None |}, warned).
End init.
End GrainBoundary.

(** ** The extraction rule in the words of the specification *)

Section ExtractionRule.
Context {vec : Type}.
Variable soap_S : vec → vec → Q.

(** The atoms of the collection, samples in collection order and rows in
    index order, each under its own identifier. *)
Definition atoms (g : list (string * Sample vec)) : list (key * vec) :=
  flat_map (λ gs, (λ iv : nat * vec, ((gs.1, iv.1), iv.2))
                    <$> enumerate (P gs.2)) g.

(** An atom becomes a new, last entry exactly when its dissimilarity to
    every entry present is at least the threshold. *)
Definition insert_if_new (eps : Q) (cat : list (key * vec))
    (a : key * vec) : list (key * vec) :=
  if bool_decide (Forall (λ e, eps <= soap_S a.2 e.2) cat)
  then cat ++ [a] else cat.

Definition extract_rule (sd : vec) (g : list (string * Sample vec))
    (eps : Q) : list (key * vec) :=
  foldl (insert_if_new eps) [(seed_key, sd)] (atoms g).
End ExtractionRule.

(** ** A kernel and collections to run the definitions on *)

Module Examples.
(** Descriptors on a line, the kernel their distance. *)
Definition dist (a b : Q) : Q := if decide (a < b) then b - a else a - b.

(** A trimmed boundary: one row per atom, no atom assigned yet. *)
Definition boundary (rows : list Q) : Sample Q :=
  {| xyz_len := length rows; P := rows;
     LAEs := Some (replicate (length rows) None) |}.

Definition collection (sd : option Q) (g : list (string * list Q))
  : Collection Q :=
  {| seed := sd; gbs := (λ x, (x.1, boundary x.2)) <$> g;
     store_U := []; store_LER := [] |}.

Definition run_uniquify (c : Collection Q) (eps : Q) :=
  uniquify dist (order := insertion_order) c eps.
End Examples.

(** ** The orderings a finalized catalogue may have *)

Section Orderings.
Context {vec : Type}.
Variable soap_S : vec → vec → Q.

(** Most seed-similar first: the dissimilarity to the seed never decreases
    along the catalogue. *)
Definition seed_similar_first (sd : vec) (U : list (key * vec)) : Prop :=
  StronglySorted (λ a b, soap_S a.2 sd <= soap_S b.2 sd) U.

(** Least seed-similar first: the dissimilarity to the seed never increases
    along the catalogue. *)
Definition seed_similar_last (sd : vec) (U : list (key * vec)) : Prop :=
  StronglySorted (λ a b, soap_S b.2 sd <= soap_S a.2 sd) U.

(** An entry with its score against the seed, as [K] holds it. *)
Definition scored (sd : vec) (uv : key * vec) : key * Q :=
  (uv.1, soap_S uv.2 sd).
End Orderings.

(** The sum of a row of finite entries. *)
Definition sum_Q (l : list Q) : Q := foldr Qplus 0 l.

(** Two states of one boundary: same identifier, same atoms, same rows;
    only [LAEs] may differ. *)
Definition same_boundary {vec : Type} (a b : string * Sample vec) : Prop :=
  a.1 = b.1 ∧ xyz_len a.2 = xyz_len b.2 ∧ P a.2 = P b.2.

(** ** The two halves of the inner loop of [_classify] *)

Section Scan.
Context {vec : Type}.
Variable soap_S : vec → vec → Q.

(** The pair [(K0, U0)] after the entries [uni], from the pair [st]. *)
Definition nearest_from (Pv : vec) (eps : Q) (st : Q * option key)
    (uni : list (key * vec)) : Q * option key :=
  foldl (λ st e,
           if decide (soap_S Pv e.2 < eps) then
             if decide (soap_S Pv e.2 < st.1) then (soap_S Pv e.2, Some e.1)
             else st
           else st)
        st uni.

(** [K0 = 1.0] and [U0 = None] at the start of the loop. *)
Definition nearest (Pv : vec) (eps : Q) (uni : list (key * vec))
  : Q * option key :=
  nearest_from Pv eps (1, None) uni.

(** [result] after the entries [uni]: every key of [uni] that was missing
    now holds the list with that key alone. *)
Definition init_keys (uni : list (key * vec))
    (result : list (key * list key)) : list (key * list key) :=
  foldl (λ result e,
           if Dict.contains e.1 result then result
           else Dict.set e.1 [e.1] result)
        result uni.

(** [result[u][1:]], the atoms assigned to [u]; empty for a missing key. *)
Definition members (result : list (key * list key)) (u : key) : list key :=
  match Dict.get u result with Some l => tail l | None => [] end.
End Scan.

(** ** The rows [_classify] warns about *)

Section Warnings.
Context {vec : Type}.
Variable soap_S : vec → vec → Q.

(** The rows of a sample that have no entry of [U] below the threshold,
    in row order, under their identifiers. *)
Definition unmatched (U : list (key * vec)) (eps : Q)
    (gs : string * Sample vec) : list key :=
  (λ iv : nat * vec, (gs.1, iv.1))
    <$> filter (λ iv : nat * vec, Forall (λ e, eps <= soap_S iv.2 e.2) U)
               (enumerate (P gs.2)).
End Warnings.

(** ** The assignments of [U] as a sequence of writes *)

(** [LAEs[VID] = u] for the pairs of [todo], in order. *)
Definition apply_writes (todo : list (nat * key)) (l : list (option key))
  : list (option key) :=
  foldl (λ l a, <[a.1 := Some a.2]> l) l todo.

(** ** [get_property] and [add_property] *)

(** [l[i]] for a Python integer [i]: a negative index counts from the end,
    an index out of range raises. *)
Definition py_index {A} (l : list A) (i : Z) : res A :=
  let n := Z.of_nat (length l) in
  let j := if decide (i < 0)%Z then (n + i)%Z else i in
  if decide (0 <= j < n)%Z then
    match l !! Z.to_nat j with Some x => Ok x | None => Raise IndexError end
  else Raise IndexError.

(** [d[k]] on a plain dictionary that is only looked up. *)
Definition py_lookup {A} (k : string) (d : gmap string A) : res A :=
  match d !! k with Some v => Ok v | None => Raise KeyError end.

Section Properties.
(** The type of property values. *)
Context {V : Type}.
(** [line.split()] for [None] and [line.split(delimiter)] otherwise. *)
Variable split : option string → string → list string.
(** The function [cast]; it may raise. *)
Variable cast : string → res V.

(** The body of the loop over the lines of the file once a line is not
    skipped. *)
Definition read_line (delimiter : option string) (colindex : Z)
    (pdict : gmap string V) (line : string) : res (gmap string V) :=
  let rvals := split delimiter line in
  gbid ← py_index rvals 0;
  field ← py_index rvals colindex;
  pval ← cast field;
  Ok (<[gbid := pval]> pdict).

(** [properties] is [self.properties]; [lines] are the lines of the file
    [filename].  The counter [iskip] is [0] in every iteration. *)
Definition add_property (properties : gmap string (gmap string V))
    (name : string) (lines : list string) (values : option (gmap string V))
    (colindex : Z) (delimiter : option string) (skip : Z)
  : res (gmap string (gmap string V)) :=
  match values with
  | Some v => Ok (<[name := v]> properties)
  | None =>
      pdict ← foldM (λ pdict line,
                       if decide (0 < skip)%Z then Ok pdict
                       else read_line delimiter colindex pdict line)
                    ∅ lines;
      Ok (<[name := pdict]> properties)
  end.

(** [gbids] are the keys of the collection in order. *)
Definition get_property (properties : gmap string (gmap string V))
    (gbids : list string) (name : string) : res (list V) :=
  values ← py_lookup name properties;
  mapM (λ gbid, py_lookup gbid values) gbids.

(** A line as [add_property] reads it: identifier and value. *)
Definition parse_line (delimiter : option string) (colindex : Z)
    (line : string) : res (string * V) :=
  let rvals := split delimiter line in
  gbid ← py_index rvals 0;
  field ← py_index rvals colindex;
  pval ← cast field;
  Ok (gbid, pval).
End Properties.

(** ** [_find_gbs] and [load] *)

Section Discovery.
(** The boundaries that the parser returns. *)
Context {GB : Type}.
(** [sorted(allfiles, key=self._sortkey, reverse=self._reverse)] *)
Variable py_sorted : list string → list string.
(** [path.join] *)
Variable path_join : string → string → string.
(** [parser(gbpath).gb(soapargs=..., **kwargs)] *)
Variable parse_gb :
  string → gmap string GrainBoundary.pyval → gmap string GrainBoundary.pyval
  → res GB.

(** [allfiles] are the file names of the root directory; [rxgbid] is the
    compiled pattern, giving the group [gbid] of a name that matches. *)
Definition _find_gbs (root : string) (rxgbid : option (string → option string))
    (allfiles : list string) (gbfiles : list (string * string))
  : list (string * string) :=
  foldl (λ gbfiles fname,
           match rxgbid with
           | Some rx =>
               match rx fname with
               | Some gbid => Dict.set gbid (path_join root fname) gbfiles
               | None => gbfiles
               end
           | None => Dict.set fname (path_join root fname) gbfiles
           end)
        gbfiles (py_sorted allfiles).


End Discovery.

(** ** [features] and the feature map *)

(** The characters [\t] and [\n]. *)
Definition tab : string := String (Ascii.ascii_of_nat 9) EmptyString.
Definition newline : string := String (Ascii.ascii_of_nat 10) EmptyString.

Section Features.
Context {vec : Type}.
Variable soap_S : vec → vec → Q.
Context {order : DictOrder}.
(** [self.feature_map_file(eps)], the path of the feature map *)
Variable feature_map_file : Q → string.
(** [repr] of a string *)
Variable py_repr : string → string.

(** The collection with the feature store and the files written so far
    (path and lines). *)
Record FeatureState : Type := {
  col : Collection vec;
  store_features : list (Q * list key);
  files : list (string * list string)
}.

(** ['{0}\t{1}\tq\n'.format(i, feat)] for an identifier [feat] *)
Definition format_feature (i : nat) (feat : key) : string :=
  (pretty i ++ tab
   ++ "(" ++ py_repr feat.1 ++ ", " ++ pretty feat.2 ++ ")"
   ++ tab ++ "q" ++ newline)%string.

(** The file is opened for writing before the feature list is looked up. *)
Definition _create_feature_map (st : FeatureState) (eps : Q)
  : FeatureState * option exn :=
  let path := feature_map_file eps in
  match store_get eps (store_features st) with
  | None =>
      ({| col := col st; store_features := store_features st;
          files := Dict.set path [] (files st) |}, Some KeyError)
  | Some feats =>
      ({| col := col st; store_features := store_features st;
          files := Dict.set path (imap format_feature feats) (files st) |},
       None)
  end.

Definition features (st : FeatureState) (eps : Q)
  : res (list key) * FeatureState :=
  match store_get eps (store_features st) with
  | Some result => (Ok result, st)
  | None =>
      match U soap_S (col st) eps with
      | (Raise e, c1) =>
          (Raise e, {| col := c1; store_features := store_features st;
                       files := files st |})
      | (Ok r, c1) =>
          let result := Dict.keys (r_U r) in
          let st1 := {| col := c1;
                        store_features :=
                          store_put eps result (store_features st);
                        files := files st |} in
          match _create_feature_map st1 eps with
          | (st2, None) => (Ok result, st2)
          | (st2, Some e) => (Raise e, st2)
          end
      end
  end.
End Features.

Arguments FeatureState : clear implicits.

(** ** [gblearn/elements.py]: the table of elements and the neighbour
    shells *)

Module Elements.
(** [abs(q)] *)
Definition Q_abs (q : Q) : Q := if decide (q < 0) then - q else q.

(** [sorted(l)]: a stable sort, smallest first. *)
Fixpoint insert_asc (x : Q) (l : list Q) : list Q :=
  match l with
  | [] => [x]
  | y :: l' => if decide (y < x) then y :: insert_asc x l' else x :: y :: l'
  end.
Definition sorted_asc (l : list Q) : list Q := foldr insert_asc [] l.

(** [l[0:k]] for a Python integer [k]: a negative bound counts from the
    end. *)
Definition py_prefix {A} (l : list A) (k : Z) : list A :=
  take (Z.to_nat (if decide (k < 0)%Z then Z.of_nat (length l) + k else k)%Z)
       l.

(** Lattice, lattice parameter, element number and basis indices. *)
Definition elements : gmap string (string * Q * nat * list nat) :=
  list_to_map
    [("Ni"%string, ("fcc"%string, 352 # 100, 28%nat, [0%nat]));
     ("Cr"%string, ("bcc"%string, 291 # 100, 24%nat, [0%nat; 1%nat]));
     ("Mg"%string, ("hcp"%string, 321 # 100, 12%nat, [0%nat; 1%nat]))].

(** The tolerance [1e-5] below which two distances are one shell. *)
Definition tolerance : Q := 1 # 100000.

Section quippy.
(** The structures of [quippy]. *)
Context {Atoms : Type}.
(** [getattr(structures, lattice)], if [structures] has that attribute *)
Variable structure : string → option (Q → nat → Atoms).
(** The distances [neighb.distance] in the order of the two loops over
    [a.indices] and [a.connect[i]], once the cutoff is set to [rcut] and
    the connectivity computed. *)
Variable neighbour_distances : Atoms → Q → list Q.

(** Returns the structure, or [None] with the message given to
    [msg.err]. *)
Definition atoms (element : string) : option Atoms * option string :=
  let unconfigurable (lattice : string) :=
    (None, Some ("Element " ++ element ++ " with structure " ++ lattice
                 ++ " is not auto-configurable.")%string) in
  match elements !! element with
  | Some (lattice, latpar, Z, basis) =>
      match structure lattice with
      | Some build => (Some (build latpar Z), None)
      | None => unconfigurable lattice
      end
  | None => unconfigurable "unknown"%string
  end.

(** The body of the inner loop. *)
Definition add_shell (result : list Q) (dist : Q) : list Q :=
  if bool_decide (Exists (λ s, Q_abs (dist - s) < tolerance) result)
  then result else result ++ [dist].

(** [_shells] is the module-level cache; [a.set_cutoff] on [None] is the
    [AttributeError]. *)
Definition shells (_shells : gmap string (list Q)) (element : string)
    (n : Z) (rcut : Q) : res (list Q) * gmap string (list Q) :=
  let answer (sh : list Q) :=
    py_prefix sh (Z.min n (Z.of_nat (length sh))) in
  match _shells !! element with
  | Some sh => (Ok (answer sh), _shells)
  | None =>
      match (atoms element).1 with
      | None => (Raise AttributeError, _shells)
      | Some a =>
          let result := foldl add_shell [] (neighbour_distances a rcut) in
          let sh := sorted_asc result in
          (Ok (answer sh), <[element := sh]> _shells)
      end
  end.
End quippy.
End Elements.

(** * Properties *)

(** ** A missing seed *)

Section MissingSeed.
Context {vec : Type} (soap_S : vec → vec → Q) {order : DictOrder}.

(** C8: on a collection without a seed, [uniquify] raises [ValueError]
    whatever the samples, the kernel and the threshold are, so before any
    row is compared; [U] and [LER], which reach [uniquify] when the
    threshold is not in the store, raise the same error and leave the
    collection as it was; a threshold that is in the store of [LER] is
    still served. *)
Theorem uniquify_without_seed (c : Collection vec) (eps : Q) :
  seed c = None →
  uniquify soap_S c eps = Raise ValueError
  ∧ (store_get eps (store_U c) = None →
     U soap_S c eps = (Raise ValueError, c)
     ∧ (store_get eps (store_LER c) = None →
        LER soap_S c eps = (Raise ValueError, c)))
  ∧ (∀ M, store_get eps (store_LER c) = Some M →
          LER soap_S c eps = (Ok M, c)).
Proof.
  intros Hseed.
  assert (Hu : uniquify soap_S c eps = Raise ValueError)
    by (unfold uniquify; rewrite Hseed; reflexivity).
  split; [exact Hu|]. split.
  - intros HU.
    assert (HUc : U soap_S c eps = (Raise ValueError, c))
      by (unfold U; rewrite HU, Hu; reflexivity).
    split; [exact HUc|].
    intros HL. unfold LER. rewrite HL, HUc. reflexivity.
  - intros M HM. unfold LER. rewrite HM. reflexivity.
Qed.
End MissingSeed.

Lemma uniquify_without_seed_witness :
  let c := Examples.collection None [("a"%string, [1 # 2])] in
  uniquify Examples.dist (order := insertion_order) c (1 # 10)
    = Raise ValueError
  ∧ (store_get (1 # 10) (store_U c) = None →
     U Examples.dist (order := insertion_order) c (1 # 10)
       = (Raise ValueError, c)
     ∧ (store_get (1 # 10) (store_LER c) = None →
        LER Examples.dist (order := insertion_order) c (1 # 10)
          = (Raise ValueError, c)))
  ∧ (∀ M, store_get (1 # 10) (store_LER c) = Some M →
          LER Examples.dist (order := insertion_order) c (1 # 10) = (Ok M, c)).
Proof.
  intros c.
  exact (uniquify_without_seed Examples.dist (order := insertion_order)
           c (1 # 10) eq_refl).
Defined.

(** ** The constructor of [GrainBoundary] *)

Section Init.
Import GrainBoundary.
Context {array calculator : Type}.
Variable make_lattice : array → res array.
Variable SOAPCalculator : gmap string pyval → res calculator.
Variable copy_extra : array → array.
Variable attributes : list string.

Lemma halve_padding_Ok sa m' :
  halve_padding sa = Ok m' →
  ∃ m, sa = Some m
       ∧ ∀ v, m !! "padding"%string = Some v →
              ∃ v', halve v = Ok v' ∧ m' !! "padding"%string = Some v'.
Proof.
  destruct sa as [m|]; [|discriminate].
  intros Hh. exists m. split; [reflexivity|].
  intros v Hv. simpl in Hh. rewrite Hv in Hh.
  destruct (halve v) as [v'|] eqn:Hv'; [|discriminate].
  exists v'. split; [reflexivity|].
  cbn in Hh. injection Hh as <-. apply lookup_insert_eq.
Qed.

(** With [selectargs] left at [None] the constructor raises, whatever the
    other arguments are; when it returns an instance, [selectargs] was a
    dictionary, and if that dictionary has a ["padding"] entry the
    instance stores what [/= 2] makes of it: half of a float, the floor of
    half of an integer. *)
Lemma init_selectargs_cases (xyz types box : array) (Z : nat)
    (extras : option (list (string * array)))
    (selectargs : option (gmap string pyval)) (makelat : bool)
    (soapargs : gmap string pyval) :
  let new := init make_lattice SOAPCalculator copy_extra attributes
               xyz types box Z extras selectargs makelat soapargs in
  (selectargs = None → ∃ e, new = Raise e)
  ∧ (∀ gb w, new = Ok (gb, w) →
       ∃ m, selectargs = Some m
            ∧ ∀ v, m !! "padding"%string = Some v →
                   ∃ v', halve v = Ok v'
                         ∧ GrainBoundary.selectargs gb !! "padding"%string
                           = Some v').
Proof.
  intros new. subst new. unfold init. split.
  - intros ->.
    destruct makelat; [destruct (make_lattice box)|];
      destruct (SOAPCalculator soapargs); simpl; eauto.
  - intros gb w Hnew.
    destruct (if makelat then make_lattice box else Ok box) as [lat|];
      [|discriminate].
    destruct (SOAPCalculator soapargs) as [c|]; [|discriminate].
    simpl in Hnew.
    destruct (halve_padding selectargs) as [sa|] eqn:Hsa; [|discriminate].
    simpl in Hnew.
    destruct extras as [ex|].
    + destruct (set_extras copy_extra attributes ex) as [[attrs wn]|];
        [|discriminate].
      cbn in Hnew. injection Hnew as <- <-. simpl.
      exact (halve_padding_Ok _ _ Hsa).
    + cbn in Hnew. injection Hnew as <- <-. simpl.
      exact (halve_padding_Ok _ _ Hsa).
Qed.
End Init.

(** C10: the constructor on a dictionary whose ["padding"] is the integer
    5: it returns an instance, and the instance stores the integer 2, the
    floor of 5/2 and not half of 5.  (With [selectargs] left at [None] the
    constructor raises, and a float is halved: [init_selectargs_cases].) *)
Theorem init_odd_padding_floored :
  ∃ gb w,
    GrainBoundary.init (array := unit) Ok (λ _, Ok tt) id [] tt tt tt 28 None
      (Some {[ "padding"%string := GrainBoundary.PyInt 5 ]})
      true ∅ = Ok (gb, w)
    ∧ GrainBoundary.selectargs gb !! "padding"%string
      = Some (GrainBoundary.PyInt 2)
    ∧ ¬ inject_Z 2 == inject_Z 5 / 2.
Proof.
  eexists _, _. split; [reflexivity|]. split; [reflexivity|].
  intros Heq. vm_compute in Heq. discriminate.
Qed.

(** ** Dictionaries as association lists *)

Section DictFacts.
Context {K V : Type} `{EqDecision K}.
Implicit Types (d : list (K * V)) (k : K) (v : V).

Lemma contains_spec k d : Dict.contains k d = true ↔ k ∈ Dict.keys d.
Proof. unfold Dict.contains. apply bool_decide_eq_true. Qed.

Lemma set_fresh k v d : k ∉ Dict.keys d → Dict.set k v d = d ++ [(k, v)].
Proof.
  induction d as [|[k' v'] d IH]; simpl; [reflexivity|].
  intros Hk. apply not_elem_of_cons in Hk as [Hne Hk].
  rewrite decide_False by exact Hne. rewrite IH by exact Hk. reflexivity.
Qed.

Lemma keys_set_present k v d :
  k ∈ Dict.keys d → Dict.keys (Dict.set k v d) = Dict.keys d.
Proof.
  induction d as [|[k' v'] d IH]; simpl.
  - intros Hk. inversion Hk.
  - intros Hk. destruct (decide (k = k')) as [->|Hne]; [reflexivity|].
    simpl. f_equal. apply IH.
    apply elem_of_cons in Hk as [Hk|Hk]; [contradiction|exact Hk].
Qed.

Lemma elem_of_keys_set k k' v d :
  k' ∈ Dict.keys (Dict.set k v d) ↔ k' = k ∨ k' ∈ Dict.keys d.
Proof.
  destruct (decide (k ∈ Dict.keys d)) as [Hin|Hout].
  - rewrite keys_set_present by exact Hin.
    split; [auto|]. intros [->|Hk]; assumption.
  - rewrite set_fresh by exact Hout. unfold Dict.keys.
    rewrite fmap_app, elem_of_app. simpl. rewrite list_elem_of_singleton.
    tauto.
Qed.

Lemma NoDup_keys_set k v d :
  NoDup (Dict.keys d) → NoDup (Dict.keys (Dict.set k v d)).
Proof.
  intros Hnd. destruct (decide (k ∈ Dict.keys d)) as [Hin|Hout].
  - rewrite keys_set_present by exact Hin. exact Hnd.
  - rewrite set_fresh by exact Hout. unfold Dict.keys. rewrite fmap_app.
    apply NoDup_app. split; [exact Hnd|]. split.
    + intros x Hx Hx'. simpl in Hx'. apply list_elem_of_singleton in Hx'.
      subst x. exact (Hout Hx).
    + simpl. apply NoDup_singleton.
Qed.

Lemma get_set k k' v d :
  Dict.get k' (Dict.set k v d)
  = if decide (k' = k) then Some v else Dict.get k' d.
Proof.
  induction d as [|[k0 v0] d IH]; simpl.
  - destruct (decide (k' = k)); reflexivity.
  - destruct (decide (k = k0)) as [->|Hne]; simpl.
    + destruct (decide (k' = k0)); reflexivity.
    + destruct (decide (k' = k0)) as [->|Hne'].
      * rewrite decide_False by congruence. reflexivity.
      * exact IH.
Qed.

Lemma get_None k d : Dict.get k d = None ↔ k ∉ Dict.keys d.
Proof.
  induction d as [|[k' v'] d IH]; simpl.
  - split; [intros _ Hk; inversion Hk|reflexivity].
  - rewrite not_elem_of_cons.
    destruct (decide (k = k')) as [->|Hne]; [|rewrite IH; tauto].
    split; [discriminate|intros [Hk _]; contradiction].
Qed.

Lemma get_Some_elem k v d : Dict.get k d = Some v → (k, v) ∈ d.
Proof.
  induction d as [|[k' v'] d IH]; simpl; [discriminate|].
  destruct (decide (k = k')) as [->|Hne].
  - intros [= ->]. apply list_elem_of_here.
  - intros Hg. apply list_elem_of_further, IH, Hg.
Qed.

Lemma get_is_Some k d : k ∈ Dict.keys d → is_Some (Dict.get k d).
Proof.
  intros Hk. destruct (Dict.get k d) eqn:Hg; [eauto|].
  apply get_None in Hg. contradiction.
Qed.

Lemma elem_get k v d :
  NoDup (Dict.keys d) → (k, v) ∈ d → Dict.get k d = Some v.
Proof.
  induction d as [|[k' v'] d IH]; simpl.
  - intros _ Hin. inversion Hin.
  - intros Hnd Hin. apply NoDup_cons in Hnd as [Hk' Hnd].
    apply elem_of_cons in Hin as [[= -> ->]|Hin].
    + rewrite decide_True by reflexivity. reflexivity.
    + destruct (decide (k = k')) as [->|Hne]; [|exact (IH Hnd Hin)].
      exfalso. apply Hk'. apply list_elem_of_fmap. exists (k', v). auto.
Qed.

Lemma NoDup_keys_filter (Q : K * V → Prop) `{∀ x, Decision (Q x)} d :
  NoDup (Dict.keys d) → NoDup (Dict.keys (filter Q d)).
Proof.
  induction d as [|[k v] d IH]; simpl; [auto|].
  intros Hnd. apply NoDup_cons in Hnd as [Hk Hnd].
  rewrite filter_cons. destruct (decide (Q (k, v))); [|exact (IH Hnd)].
  simpl. apply NoDup_cons. split; [|exact (IH Hnd)].
  intros Hin. apply Hk. apply list_elem_of_fmap in Hin as (e & -> & He).
  apply list_elem_of_filter in He as [_ He].
  apply list_elem_of_fmap. exists e. auto.
Qed.

Lemma foldl_set_NoDup d l :
  NoDup (Dict.keys (d ++ l)) →
  foldl (λ d kv, Dict.set kv.1 kv.2 d) d l = d ++ l.
Proof.
  revert d. induction l as [|[k v] l IH]; intros d Hnd; simpl.
  - rewrite app_nil_r. reflexivity.
  - assert (Hk : k ∉ Dict.keys d).
    { unfold Dict.keys in *. rewrite fmap_app in Hnd.
      apply NoDup_app in Hnd as (_ & Hdis & _).
      intros Hk. apply (Hdis k Hk). simpl. apply list_elem_of_here. }
    rewrite set_fresh by exact Hk.
    rewrite IH; rewrite <- app_assoc; [reflexivity|exact Hnd].
Qed.

Lemma of_list_NoDup (l : list (K * V)) :
  NoDup (Dict.keys l) → Dict.of_list l = l.
Proof. intros Hnd. unfold Dict.of_list. apply (foldl_set_NoDup [] l Hnd). Qed.
End DictFacts.

(** ** Loops that may raise *)

Section Loops.
Context {A B : Type}.

Lemma mapM_Ok (f : A → res B) (l : list A) (ys : list B) :
  mapM f l = Ok ys ↔ Forall2 (λ x y, f x = Ok y) l ys.
Proof.
  revert ys. induction l as [|x l IH]; intros ys; simpl.
  - split.
    + intros [= <-]. constructor.
    + intros Hf. inversion Hf. reflexivity.
  - split.
    + destruct (f x) as [y|] eqn:Hy; [|discriminate].
      destruct (mapM f l) as [k|] eqn:Hk; [|discriminate].
      intros [= <-]. constructor; [exact Hy|]. apply IH. reflexivity.
    + intros Hf. inversion Hf as [|? y ? k Hy Hk]; subst.
      rewrite Hy. apply IH in Hk. cbn. rewrite Hk. reflexivity.
Qed.

Lemma iterE_inv (I : B → Prop) (f : B → A → B * option exn) (b : B)
    (l : list A) :
  I b → (∀ b x, I b → I (f b x).1) → I (iterE f b l).1.
Proof.
  intros Hb Hstep. revert b Hb.
  induction l as [|x l IH]; intros b Hb; simpl; [exact Hb|].
  specialize (Hstep b x Hb). destruct (f b x) as [b' [e|]]; simpl in *.
  - exact Hstep.
  - apply IH, Hstep.
Qed.
End Loops.

(** ** The fingerprint matrix *)

Lemma sum_Q_div (counts : list nat) (N : nat) :
  N ≠ 0%nat →
  sum_Q ((λ c, inject_Z (Z.of_nat c) / inject_Z (Z.of_nat N)) <$> counts)
  == inject_Z (Z.of_nat (sum_list counts)) / inject_Z (Z.of_nat N).
Proof.
  intros HN.
  assert (HN' : ¬ inject_Z (Z.of_nat N) == 0).
  { intros Heq. apply HN. unfold Qeq in Heq. simpl in Heq. lia. }
  induction counts as [|c counts IH]; simpl.
  - field. exact HN'.
  - rewrite IH, Nat2Z.inj_add, inject_Z_plus. field. exact HN'.
Qed.

Lemma count_div_nonneg (c N : nat) :
  0 <= inject_Z (Z.of_nat c) / inject_Z (Z.of_nat N).
Proof.
  apply Qmult_le_0_compat.
  - unfold Qle. simpl. lia.
  - apply Qinv_le_0_compat. unfold Qle. simpl. lia.
Qed.

Section Fingerprint.
Context {vec : Type} (soap_S : vec → vec → Q) {order : DictOrder}.

Lemma assign_LAE_same (s : Sample vec) (a : nat * key) :
  xyz_len (assign_LAE s a).1 = xyz_len s ∧ P (assign_LAE s a).1 = P s.
Proof.
  unfold assign_LAE. destruct (LAEs s) as [l|]; [|auto].
  destruct (decide _); auto.
Qed.

Lemma assign_sample_same (r : UResult vec) (gs : string * Sample vec) :
  same_boundary gs (assign_sample r gs).1.
Proof.
  unfold assign_sample, same_boundary.
  destruct (r_GBs r !! gs.1) as [m|]; [|auto].
  pose proof (iterE_inv
    (λ s, xyz_len s = xyz_len gs.2 ∧ P s = P gs.2)
    assign_LAE gs.2 (assignments m) (conj eq_refl eq_refl)) as Hinv.
  destruct (iterE assign_LAE gs.2 (assignments m)) as [s e]. simpl in *.
  destruct Hinv as [Hx HP].
  - intros b x [Hx HP]. destruct (assign_LAE_same b x) as [Hx' HP'].
    split; congruence.
  - auto.
Qed.

Lemma assign_all_same (r : UResult vec) (l : list (string * Sample vec)) :
  Forall2 same_boundary l (assign_all r l).1.
Proof.
  induction l as [|gs l IH]; simpl; [constructor|].
  pose proof (assign_sample_same r gs) as Hs.
  destruct (assign_sample r gs) as [gs' [e|]]; simpl in *.
  - constructor; [exact Hs|].
    apply Forall2_same_length_lookup_2; [reflexivity|].
    intros i x y Hx Hy. assert (x = y) as -> by congruence.
    unfold same_boundary. auto.
  - destruct (assign_all r l) as [l' e]. simpl in *.
    constructor; assumption.
Qed.

Lemma U_same (c : Collection vec) (eps : Q) :
  Forall2 same_boundary (gbs c) (gbs (U soap_S c eps).2).
Proof.
  assert (Hrefl : Forall2 same_boundary (gbs c) (gbs c)).
  { apply Forall2_same_length_lookup_2; [reflexivity|].
    intros i x y Hx Hy. assert (x = y) as -> by congruence.
    unfold same_boundary. auto. }
  unfold U.
  destruct (store_get eps (store_U c)) as [r|].
  - pose proof (assign_all_same r (gbs c)) as Hs.
    destruct (assign_all r (gbs c)) as [g [e|]]; exact Hs.
  - destruct (uniquify soap_S c eps) as [[r w]|]; [|exact Hrefl].
    pose proof (assign_all_same r (gbs c)) as Hs. simpl.
    destruct (assign_all r (gbs c)) as [g [e|]]; exact Hs.
Qed.

Lemma LER_row_Ok (uids : list key) (s : Sample vec) (row : list npfloat) :
  LER_row uids s = Ok row →
  length row = length uids
  ∧ (∀ j u, uids !! j = Some u →
       ∃ l, LAEs s = Some l
            ∧ row !! j
              = Some (npdiv (length (filter (λ x, x = Some u) l)) (xyz_len s)))
  ∧ (xyz_len s ≠ 0%nat →
       ∃ qs, row = Fin <$> qs ∧ Forall (Qle 0) qs ∧ sum_Q qs == 1).
Proof.
  unfold LER_row. destruct (mapM _ uids) as [counts|] eqn:Hc; [|discriminate].
  cbn. destruct (decide _) as [HN|]; [|discriminate]. intros [= <-].
  apply mapM_Ok in Hc. split; [|split].
  - rewrite length_fmap. symmetry. exact (Forall2_length _ _ _ Hc).
  - intros j u Hu.
    destruct (Forall2_lookup_l _ _ _ _ _ Hc Hu) as (n & Hn & Hcount).
    unfold LAE_count in Hcount. destruct (LAEs s) as [l|]; [|discriminate].
    injection Hcount as <-. exists l. split; [reflexivity|].
    rewrite list_lookup_fmap, Hn, HN. reflexivity.
  - intros Hlen.
    exists ((λ c, inject_Z (Z.of_nat c) / inject_Z (Z.of_nat (xyz_len s)))
              <$> counts).
    split; [|split].
    + rewrite <- list_fmap_compose. apply list_fmap_ext.
      intros i c _. simpl. unfold npdiv. rewrite HN.
      rewrite decide_False by exact Hlen. reflexivity.
    + apply Forall_fmap, Forall_forall. intros c _. apply count_div_nonneg.
    + rewrite sum_Q_div by exact Hlen. rewrite HN.
      apply Qmult_inv_r. intros Heq. apply Hlen.
      unfold Qeq in Heq. simpl in Heq. lia.
Qed.

(** C4: the matrix that [LER] computes for a threshold (one that is not in
    its store yet) has a row per boundary; each row has a column per entry
    of the finalized catalogue [U(eps)["U"]], column [j] holding the share
    of the atoms whose assigned identifier is the [j]-th catalogue key; and
    for a boundary with atoms the entries are finite, non-negative and sum
    to 1. *)
Theorem LER_rows (c c' : Collection vec) (eps : Q)
    (M : list (list npfloat)) :
  store_get eps (store_LER c) = None →
  LER soap_S c eps = (Ok M, c') →
  ∃ r c1,
    U soap_S c eps = (Ok r, c1)
    ∧ length M = length (gbs c)
    ∧ ∀ i gs row, gbs c !! i = Some gs → M !! i = Some row →
        length row = length (r_U r)
        ∧ (∀ j u, Dict.keys (r_U r) !! j = Some u →
             ∃ gs1 l,
               gbs c1 !! i = Some gs1 ∧ LAEs gs1.2 = Some l
               ∧ row !! j
                 = Some (npdiv (length (filter (λ x, x = Some u) l))
                               (xyz_len gs.2)))
        ∧ (xyz_len gs.2 ≠ 0%nat →
             ∃ qs, row = Fin <$> qs ∧ Forall (Qle 0) qs ∧ sum_Q qs == 1).
Proof.
  intros Hmiss. unfold LER. rewrite Hmiss.
  pose proof (U_same c eps) as Hsame.
  destruct (U soap_S c eps) as [[r|e] c1] eqn:HU; [|discriminate].
  simpl in Hsame.
  destruct (mapM _ (gbs c1)) as [M'|] eqn:HM; [|discriminate].
  intros [= <- <-]. exists r, c1. split; [reflexivity|].
  apply mapM_Ok in HM. split.
  - rewrite <- (Forall2_length _ _ _ HM). symmetry.
    exact (Forall2_length _ _ _ Hsame).
  - intros i gs row Hgs Hrow.
    destruct (Forall2_lookup_l _ _ _ _ _ Hsame Hgs) as (gs1 & Hgs1 & Hsb).
    destruct (Forall2_lookup_l _ _ _ _ _ HM Hgs1) as (row' & Hrow' & HR).
    assert (row' = row) as -> by congruence.
    destruct Hsb as (_ & Hlen & _).
    apply LER_row_Ok in HR as (Hl & Hcol & Hsum).
    unfold Dict.keys in Hl. rewrite length_fmap in Hl.
    split; [exact Hl|]. split.
    + intros j u Hu. destruct (Hcol j u Hu) as (l & Hl' & Hj).
      exists gs1, l. rewrite Hlen. auto.
    + rewrite Hlen. exact Hsum.
Qed.
End Fingerprint.

Lemma LER_rows_witness :
  let c := Examples.collection (Some 0)
             [("a"%string, [0; 1 # 2; 0]); ("b"%string, [1 # 2; 1 # 4])] in
  ∃ (M : list (list npfloat)) r c1,
    U Examples.dist (order := insertion_order) c (1 # 10) = (Ok r, c1)
    ∧ length M = length (gbs c)
    ∧ ∀ i gs row, gbs c !! i = Some gs → M !! i = Some row →
        length row = length (r_U r)
        ∧ (∀ j u, Dict.keys (r_U r) !! j = Some u →
             ∃ gs1 l,
               gbs c1 !! i = Some gs1 ∧ LAEs gs1.2 = Some l
               ∧ row !! j
                 = Some (npdiv (length (filter (λ x, x = Some u) l))
                               (xyz_len gs.2)))
        ∧ (xyz_len gs.2 ≠ 0%nat →
             ∃ qs, row = Fin <$> qs ∧ Forall (Qle 0) qs ∧ sum_Q qs == 1).
Proof.
  intros c. eexists.
  eapply (LER_rows Examples.dist (order := insertion_order) c _ (1 # 10));
    reflexivity.
Defined.

(** ** The extraction pass *)

Lemma enumerate_from_keys {A} (n : nat) (l : list A) :
  (enumerate_from n l).*1 = seq n (length l).
Proof.
  revert n. induction l as [|x l IH]; intros n; simpl; [reflexivity|].
  rewrite IH. reflexivity.
Qed.

Lemma enumerate_from_lookup {A} (n i : nat) (l : list A) (x : A) :
  l !! i = Some x → enumerate_from n l !! i = Some ((n + i)%nat, x).
Proof.
  revert n i. induction l as [|y l IH]; intros n i; [discriminate|].
  destruct i as [|i]; simpl.
  - intros [= ->]. rewrite Nat.add_0_r. reflexivity.
  - intros Hx. rewrite (IH (S n) i Hx). do 2 f_equal. lia.
Qed.

Lemma foldl_flat_map {A B C} (f : C → B → C) (h : A → list B) (c : C)
    (l : list A) :
  foldl f c (flat_map h l) = foldl (λ c x, foldl f c (h x)) c l.
Proof.
  revert c. induction l as [|x l IH]; intros c; simpl; [reflexivity|].
  rewrite foldl_app. apply IH.
Qed.

Section Extraction.
Context {vec : Type} (soap_S : vec → vec → Q).

Lemma row_matches_false (Pv : vec) (eps : Q) (uni : list (key * vec)) :
  row_matches soap_S Pv eps uni = false
  ↔ Forall (λ e, eps <= soap_S Pv e.2) uni.
Proof.
  induction uni as [|[u uP] uni IH]; simpl.
  - split; [constructor|reflexivity].
  - rewrite Forall_cons. simpl. destruct (decide _) as [Hlt|Hge].
    + split; [discriminate|]. intros [Hle _].
      exfalso. exact (Qlt_not_le _ _ Hlt Hle).
    + rewrite IH. apply Qnot_lt_le in Hge. tauto.
Qed.

(** The body of the loop of [_uniquify] on an atom with its identifier. *)
Lemma uniquify_as_fold (NP : list vec) (gbid : string)
    (uni : list (key * vec)) (eps : Q) :
  _uniquify soap_S NP gbid uni eps
  = foldl (λ U a, if row_matches soap_S a.2 eps U then U
                  else Dict.set a.1 a.2 U)
          uni ((λ iv : nat * vec, ((gbid, iv.1), iv.2)) <$> enumerate NP).
Proof.
  unfold _uniquify. generalize (enumerate NP). intros l. revert uni.
  induction l as [|[i Pv] l IH]; intros uni; simpl; [reflexivity|].
  apply IH.
Qed.

Lemma extraction_as_fold (sd : vec) (g : list (string * Sample vec))
    (eps : Q) :
  extraction soap_S sd g eps
  = foldl (λ U a, if row_matches soap_S a.2 eps U then U
                  else Dict.set a.1 a.2 U)
          [(seed_key, sd)] (atoms g).
Proof.
  unfold extraction, atoms. rewrite foldl_flat_map. simpl.
  generalize [(seed_key, sd)]. induction g as [|gs g IH]; intros U; simpl.
  - reflexivity.
  - rewrite uniquify_as_fold. apply IH.
Qed.

Lemma fold_insert_if_new (eps : Q) (U : list (key * vec))
    (l : list (key * vec)) :
  NoDup (Dict.keys U ++ l.*1) →
  foldl (λ U a, if row_matches soap_S a.2 eps U then U
                else Dict.set a.1 a.2 U) U l
  = foldl (insert_if_new soap_S eps) U l.
Proof.
  revert U. induction l as [|[k v] l IH]; intros U Hnd; simpl.
  - reflexivity.
  - assert (Hk : k ∉ Dict.keys U).
    { apply NoDup_app in Hnd as (_ & Hdis & _).
      intros Hk. apply (Hdis k Hk). simpl. apply list_elem_of_here. }
    assert (Hnd1 : NoDup (Dict.keys U ++ l.*1)).
    { apply NoDup_app in Hnd as (HU & Hdis & Hl). simpl in Hl, Hdis.
      apply NoDup_cons in Hl as [_ Hl]. apply NoDup_app.
      split; [exact HU|]. split; [|exact Hl].
      intros x Hx Hx'. apply (Hdis x Hx). apply list_elem_of_further, Hx'. }
    assert (Hnd2 : NoDup (Dict.keys (U ++ [(k, v)]) ++ l.*1)).
    { unfold Dict.keys. rewrite fmap_app, <- app_assoc. exact Hnd. }
    unfold insert_if_new at 2. simpl.
    destruct (row_matches soap_S v eps U) eqn:Hm.
    + rewrite bool_decide_eq_false_2; [exact (IH U Hnd1)|].
      intros HF. apply row_matches_false in HF. congruence.
    + rewrite bool_decide_eq_true_2 by (apply row_matches_false; exact Hm).
      rewrite set_fresh by exact Hk. exact (IH _ Hnd2).
Qed.

Lemma fold_insert_prefix (eps : Q) (U : list (key * vec))
    (l : list (key * vec)) :
  U `prefix_of` foldl (insert_if_new soap_S eps) U l.
Proof.
  revert U. induction l as [|a l IH]; intros U; simpl; [reflexivity|].
  etransitivity; [|apply IH].
  unfold insert_if_new. destruct (bool_decide _); [|reflexivity].
  apply prefix_app_r. reflexivity.
Qed.

Lemma atoms_keys (g : list (string * Sample vec)) :
  (atoms g).*1
  = flat_map (λ gs, (λ i, (gs.1, i)) <$> seq 0 (length (P gs.2))) g.
Proof.
  induction g as [|gs g IH]; simpl; [reflexivity|].
  rewrite fmap_app, IH. f_equal.
  rewrite <- list_fmap_compose. unfold enumerate.
  rewrite <- enumerate_from_keys, <- list_fmap_compose. reflexivity.
Qed.

Lemma elem_of_atoms_keys (g : list (string * Sample vec)) (k : key) :
  k ∈ (atoms g).*1
  ↔ ∃ s, (k.1, s) ∈ g ∧ (k.2 < length (P s))%nat.
Proof.
  rewrite atoms_keys, list_elem_of_In, in_flat_map. split.
  - intros ([gid s] & Hgs & Hk). apply list_elem_of_In in Hgs, Hk.
    apply list_elem_of_fmap in Hk as (i & -> & Hi). simpl in *.
    apply elem_of_seq in Hi. exists s. split; [exact Hgs|lia].
  - intros (s & Hgs & Hlt). exists (k.1, s).
    split; [apply list_elem_of_In, Hgs|].
    apply list_elem_of_In, list_elem_of_fmap. exists k.2. simpl.
    split; [destruct k; reflexivity|]. apply elem_of_seq. lia.
Qed.

Lemma NoDup_atoms_keys (g : list (string * Sample vec)) :
  NoDup g.*1 → NoDup (atoms g).*1.
Proof.
  rewrite atoms_keys. induction g as [|gs g IH]; simpl; [constructor|].
  intros Hnd. apply NoDup_cons in Hnd as [Hgs Hnd].
  apply NoDup_app. split; [|split; [|exact (IH Hnd)]].
  - apply NoDup_fmap_2; [|apply NoDup_seq]. intros i j [= ->]. reflexivity.
  - intros k Hk Hk'. apply list_elem_of_fmap in Hk as (i & -> & _).
    apply list_elem_of_In, in_flat_map in Hk' as (gs' & Hgs' & Hk').
    apply list_elem_of_In in Hgs', Hk'.
    apply list_elem_of_fmap in Hk' as (j & [= Heq _] & _).
    apply Hgs. rewrite Heq. apply list_elem_of_fmap. exists gs'. auto.
Qed.

Lemma NoDup_seed_atoms (g : list (string * Sample vec)) :
  NoDup g.*1 → seed_key.1 ∉ g.*1 → NoDup (seed_key :: (atoms g).*1).
Proof.
  intros Hnd Hseed. apply NoDup_cons. split; [|exact (NoDup_atoms_keys g Hnd)].
  intros Hin. apply elem_of_atoms_keys in Hin as (s & Hs & _).
  apply Hseed. apply list_elem_of_fmap. exists (seed_key.1, s). auto.
Qed.

Lemma extraction_extract_rule (sd : vec) (g : list (string * Sample vec))
    (eps : Q) :
  NoDup g.*1 → seed_key.1 ∉ g.*1 →
  extraction soap_S sd g eps = extract_rule soap_S sd g eps.
Proof.
  intros Hnd Hseed. rewrite extraction_as_fold. unfold extract_rule.
  apply fold_insert_if_new. simpl. exact (NoDup_seed_atoms g Hnd Hseed).
Qed.

(** C2: the extraction starts from the catalogue that holds the seed alone,
    under the sentinel identifier; over the atoms in collection and row
    order it appends an atom as the last entry exactly when its
    dissimilarity to every entry present is at least the threshold (the
    loop that stops at the first entry below the threshold decides the
    same); and the catalogue reached after a first part of the samples is a
    prefix of the final one: entries are never removed or reordered.
    Sample identifiers are distinct and none is the sentinel's. *)
Theorem extraction_rule (sd : vec) (g : list (string * Sample vec))
    (eps : Q) :
  NoDup g.*1 → seed_key.1 ∉ g.*1 →
  extraction soap_S sd [] eps = [(seed_key, sd)]
  ∧ extraction soap_S sd g eps = extract_rule soap_S sd g eps
  ∧ (∀ Pv U, row_matches soap_S Pv eps U = false
             ↔ Forall (λ e, eps <= soap_S Pv e.2) U)
  ∧ ∀ g1 g2, g = g1 ++ g2 →
      extraction soap_S sd g1 eps `prefix_of` extraction soap_S sd g eps.
Proof.
  intros Hnd Hseed. split; [reflexivity|].
  split; [exact (extraction_extract_rule sd g eps Hnd Hseed)|].
  split; [intros Pv U; apply row_matches_false|].
  intros g1 g2 ->.
  assert (Hnd1 : NoDup g1.*1).
  { rewrite fmap_app in Hnd. apply NoDup_app in Hnd. tauto. }
  assert (Hseed1 : seed_key.1 ∉ g1.*1).
  { rewrite fmap_app, not_elem_of_app in Hseed. tauto. }
  rewrite (extraction_extract_rule sd g1 eps Hnd1 Hseed1).
  rewrite (extraction_extract_rule sd _ eps Hnd Hseed).
  unfold extract_rule, atoms. rewrite flat_map_app, foldl_app.
  apply fold_insert_prefix.
Qed.
End Extraction.

Lemma extraction_rule_witness :
  let g := gbs (Examples.collection (Some 0)
             [("a"%string, [0; 1 # 2; 0]); ("b"%string, [1 # 2; 1 # 4])]) in
  extraction Examples.dist 0 [] (1 # 10) = [(seed_key, 0)]
  ∧ extraction Examples.dist 0 g (1 # 10)
    = extract_rule Examples.dist 0 g (1 # 10)
  ∧ (∀ Pv U, row_matches Examples.dist Pv (1 # 10) U = false
             ↔ Forall (λ e, 1 # 10 <= Examples.dist Pv e.2) U)
  ∧ ∀ g1 g2, g = g1 ++ g2 →
      extraction Examples.dist 0 g1 (1 # 10)
        `prefix_of` extraction Examples.dist 0 g (1 # 10).
Proof.
  intros g. apply (extraction_rule Examples.dist 0 g (1 # 10)).
  - refine (bool_decide_unpack _ _). vm_compute. exact I.
  - refine (bool_decide_unpack _ _). vm_compute. exact I.
Defined.

(** ** The stable descending sort *)

Lemma insert_desc_perm (x : key * Q) (l : list (key * Q)) :
  insert_desc x l ≡ₚ x :: l.
Proof.
  induction l as [|y l IH]; simpl; [reflexivity|].
  destruct (decide _); [|reflexivity].
  rewrite IH. apply Permutation_swap.
Qed.

Lemma sorted_desc_perm (l : list (key * Q)) : sorted_desc l ≡ₚ l.
Proof.
  induction l as [|x l IH]; simpl; [reflexivity|].
  rewrite insert_desc_perm, IH. reflexivity.
Qed.

Lemma insert_desc_sorted (x : key * Q) (l : list (key * Q)) :
  StronglySorted (λ a b, b.2 <= a.2) l →
  StronglySorted (λ a b, b.2 <= a.2) (insert_desc x l).
Proof.
  induction l as [|y l IH]; simpl; intros Hs.
  - repeat constructor.
  - apply StronglySorted_inv in Hs as [Hl Hy].
    destruct (decide (x.2 < y.2)) as [Hlt|Hge].
    + constructor; [exact (IH Hl)|].
      rewrite insert_desc_perm. constructor; [|exact Hy].
      apply Qlt_le_weak, Hlt.
    + apply Qnot_lt_le in Hge. constructor.
      * constructor; assumption.
      * constructor; [exact Hge|].
        eapply Forall_impl; [exact Hy|]. simpl. intros z Hz.
        exact (Qle_trans _ _ _ Hz Hge).
Qed.

Lemma sorted_desc_sorted (l : list (key * Q)) :
  StronglySorted (λ a b, b.2 <= a.2) (sorted_desc l).
Proof.
  induction l as [|x l IH]; simpl; [constructor|].
  apply insert_desc_sorted, IH.
Qed.

Lemma insert_desc_stable (q : Q) (x : key * Q) (l : list (key * Q)) :
  filter (λ e, e.2 == q) (insert_desc x l) = filter (λ e, e.2 == q) (x :: l).
Proof.
  induction l as [|y l IH]; simpl; [reflexivity|].
  destruct (decide (x.2 < y.2)) as [Hlt|Hge]; [|reflexivity].
  rewrite (filter_cons _ y), IH, !filter_cons.
  destruct (decide (y.2 == q)) as [Hy|Hy]; [|reflexivity].
  destruct (decide (x.2 == q)) as [Hx|Hx]; [|reflexivity].
  exfalso. rewrite Hx, Hy in Hlt. exact (Qlt_irrefl _ Hlt).
Qed.

Lemma sorted_desc_stable (q : Q) (l : list (key * Q)) :
  filter (λ e, e.2 == q) (sorted_desc l) = filter (λ e, e.2 == q) l.
Proof.
  induction l as [|x l IH]; simpl; [reflexivity|].
  rewrite insert_desc_stable, !filter_cons, IH. reflexivity.
Qed.

Lemma StronglySorted_of_fmap {A B : Type} (f : A → B) (R1 : relation A)
    (R2 : relation B) (l : list A) :
  (∀ x y, R2 (f x) (f y) → R1 x y) →
  StronglySorted R2 (f <$> l) → StronglySorted R1 l.
Proof.
  intros HR. induction l as [|x l IH]; simpl; intros Hs; [constructor|].
  apply StronglySorted_inv in Hs as [Hl Hx].
  constructor; [exact (IH Hl)|].
  apply Forall_forall. intros y Hy. apply HR.
  apply (proj1 (Forall_forall _ _) Hx). apply list_elem_of_fmap. eauto.
Qed.

(** ** Pruning and finalizing the catalogue *)

Lemma NoDup_keys_functional {A B : Type} `{EqDecision A}
    (d : list (A * B)) (k : A) (v v' : B) :
  NoDup d.*1 → (k, v) ∈ d → (k, v') ∈ d → v = v'.
Proof.
  intros Hnd Hv Hv'.
  pose proof (elem_get k v d Hnd Hv) as H1.
  pose proof (elem_get k v' d Hnd Hv') as H2. congruence.
Qed.

Lemma agree_on_keys {A B : Type} `{EqDecision A} (d l1 l2 : list (A * B)) :
  NoDup d.*1 → l1.*1 = l2.*1 → Forall (.∈ d) l1 → Forall (.∈ d) l2 →
  l1 = l2.
Proof.
  intros Hnd. revert l2.
  induction l1 as [|[k v] l1 IH]; intros [|[k' v'] l2]; simpl;
    try discriminate; [reflexivity|].
  intros [= <- Hk] H1 H2.
  apply Forall_cons in H1 as [Hv H1]. apply Forall_cons in H2 as [Hv' H2].
  f_equal; [|exact (IH l2 Hk H1 H2)]. f_equal.
  exact (NoDup_keys_functional d k v v' Hnd Hv Hv').
Qed.

Lemma filter_all {A : Type} (Q : A → Prop) `{∀ x, Decision (Q x)}
    (l : list A) :
  (∀ x, Q x) → filter Q l = l.
Proof.
  intros HQ. induction l as [|x l IH]; [reflexivity|].
  rewrite filter_cons_True by apply HQ. rewrite IH. reflexivity.
Qed.

Section Finalize.
Context {vec : Type} (soap_S : vec → vec → Q) {order : DictOrder}.

Lemma prune_loop (l : list (key * bool)) (U U2 : list (key * vec)) :
  foldM (λ U kv, if kv.2 : bool then Ok U else Dict.del kv.1 U) U l = Ok U2 →
  U2 = filter (λ e, (e.1, false) ∉ l) U.
Proof.
  revert U. induction l as [|[k b] l IH]; intros U; simpl.
  - intros [= <-]. symmetry. apply filter_all.
    intros e He. inversion He.
  - destruct b.
    + intros HU2. rewrite (IH U HU2). apply list_filter_iff. intros e.
      rewrite not_elem_of_cons. split; [|tauto]. intros He.
      split; [discriminate|exact He].
    + unfold Dict.del. destruct (Dict.contains k U); [|discriminate].
      intros HU2. rewrite (IH _ HU2), list_filter_filter.
      apply list_filter_iff. intros e. simpl. rewrite not_elem_of_cons.
      split.
      * intros [He Hne]. split; [|exact He]. intros [= Heq]. auto.
      * intros [Hne He]. split; [exact He|]. intros Heq. apply Hne.
        rewrite Heq. reflexivity.
Qed.

Lemma prune_Ok (used : list (key * bool)) (U U2 : list (key * vec)) :
  prune used U = Ok U2 → U2 = filter (λ e, (e.1, false) ∉ used) U.
Proof.
  intros HU2. unfold prune in HU2. rewrite (prune_loop _ _ _ HU2).
  apply list_filter_iff. intros e. rewrite (items_perm _ used). reflexivity.
Qed.

Lemma scores_NoDup (sd : vec) (U : list (key * vec)) :
  NoDup (Dict.keys U) → scores soap_S sd U = scored soap_S sd <$> U.
Proof.
  intros Hnd. unfold scores.
  transitivity (foldl (λ d kv, Dict.set kv.1 kv.2 d) []
                  (scored soap_S sd <$> U)).
  - rewrite foldl_fmap. reflexivity.
  - rewrite (foldl_set_NoDup [] (scored soap_S sd <$> U)); [reflexivity|].
    simpl. unfold Dict.keys. rewrite <- list_fmap_compose. exact Hnd.
Qed.

Lemma lookup_all (U : list (key * vec)) (ks : list key) :
  Forall (.∈ Dict.keys U) ks →
  ∃ U', mapM (λ u, v ← Dict.lookup u U; Ok (u, v)) ks = Ok U'
        ∧ U'.*1 = ks ∧ Forall (.∈ U) U'.
Proof.
  induction ks as [|k ks IH]; intros Hks.
  - exists []. repeat split; constructor.
  - apply Forall_cons in Hks as [Hk Hks].
    destruct (IH Hks) as (U' & HU' & Hkeys & Hin).
    destruct (get_is_Some k U Hk) as [v Hv].
    exists ((k, v) :: U'). split; [|split].
    + apply mapM_Ok. constructor; [|apply mapM_Ok; exact HU'].
      unfold Dict.lookup. rewrite Hv. reflexivity.
    + simpl. f_equal. exact Hkeys.
    + constructor; [exact (get_Some_elem _ _ _ Hv)|exact Hin].
Qed.

Lemma lookup_all_Ok (U U' : list (key * vec)) (ks : list key) :
  mapM (λ u, v ← Dict.lookup u U; Ok (u, v)) ks = Ok U' →
  U'.*1 = ks ∧ Forall (.∈ U) U'.
Proof.
  intros HU'. apply mapM_Ok in HU'.
  induction HU' as [|k [k' v'] ks U' Hk _ [IHk IHin]].
  - split; constructor.
  - unfold Dict.lookup in Hk. destruct (Dict.get k U) as [v|] eqn:Hv;
      [|discriminate].
    injection Hk as <- <-.
    split; [simpl; f_equal; exact IHk|].
    constructor; [exact (get_Some_elem _ _ _ Hv)|exact IHin].
Qed.

(** What [finalize] returns on a dictionary: the entries of [U], in the
    order in which the sort leaves the items of the score dictionary. *)
Lemma finalize_Ok (sd : vec) (U U' : list (key * vec)) :
  NoDup (Dict.keys U) →
  finalize soap_S sd U = Ok U' →
  scored soap_S sd <$> U' = sorted_desc (items (scored soap_S sd <$> U))
  ∧ U' ≡ₚ U.
Proof.
  intros Hnd. unfold finalize. rewrite (scores_NoDup sd U Hnd).
  set (Ks := sorted_desc (items (scored soap_S sd <$> U))).
  assert (HKs : Ks ≡ₚ scored soap_S sd <$> U).
  { unfold Ks. rewrite sorted_desc_perm. apply items_perm. }
  assert (Hkeys : Dict.keys Ks ≡ₚ Dict.keys U).
  { unfold Dict.keys. rewrite HKs, <- list_fmap_compose. reflexivity. }
  assert (HndK : NoDup (Dict.keys Ks)) by (rewrite Hkeys; exact Hnd).
  rewrite (of_list_NoDup Ks HndK).
  destruct (mapM _ (Dict.keys Ks)) as [U''|] eqn:HU''; [|discriminate].
  cbn. intros [= <-].
  apply lookup_all_Ok in HU'' as [HU''k HU''in].
  assert (HndU'' : NoDup (Dict.keys U''))
    by (unfold Dict.keys at 1; rewrite HU''k; exact HndK).
  rewrite (of_list_NoDup U'' HndU''). split.
  - apply (agree_on_keys (scored soap_S sd <$> U)).
    + rewrite <- list_fmap_compose. exact Hnd.
    + rewrite <- list_fmap_compose. exact HU''k.
    + apply Forall_fmap. eapply Forall_impl; [exact HU''in|].
      intros uv Huv. simpl. apply list_elem_of_fmap. eauto.
    + apply Forall_forall. intros kq Hkq. rewrite <- HKs. exact Hkq.
  - apply NoDup_Permutation.
    + eapply NoDup_fmap_1. exact HndU''.
    + eapply NoDup_fmap_1. exact Hnd.
    + intros [k v]. split.
      * intros Hin. exact (proj1 (Forall_forall _ _) HU''in _ Hin).
      * intros Hin.
        assert (Hk : k ∈ U''.*1).
        { rewrite HU''k, Hkeys. apply list_elem_of_fmap. exists (k, v). auto. }
        apply list_elem_of_fmap in Hk as ([k' v'] & -> & Hin').
        pose proof (proj1 (Forall_forall _ _) HU''in _ Hin') as Hin2.
        simpl in *.
        rewrite (NoDup_keys_functional U k' v v' Hnd Hin Hin2). exact Hin'.
Qed.
End Finalize.

(** ** The finalized catalogue *)

Section Finalized.
Context {vec : Type} (soap_S : vec → vec → Q) {order : DictOrder}.

Lemma extraction_NoDup (sd : vec) (g : list (string * Sample vec)) (eps : Q) :
  NoDup (Dict.keys (extraction soap_S sd g eps)).
Proof.
  rewrite extraction_as_fold.
  assert (Hseed : NoDup (Dict.keys [(seed_key, sd)])) by apply NoDup_singleton.
  revert Hseed. generalize [(seed_key, sd)]. generalize (atoms g).
  intros l. induction l as [|a l IH]; intros U HU; simpl; [exact HU|].
  apply IH. destruct (row_matches _ _ _ _); [exact HU|].
  apply NoDup_keys_set, HU.
Qed.

Lemma uniquify_Ok (c : Collection vec) (eps : Q) (sd : vec)
    (r : UResult vec) (w : list key) :
  seed c = Some sd → uniquify soap_S c eps = Ok (r, w) →
  ∃ used U2,
    classification soap_S (extraction soap_S sd (gbs c) eps) eps (gbs c)
      = Ok (r_GBs r, used, w)
    ∧ prune used (extraction soap_S sd (gbs c) eps) = Ok U2
    ∧ finalize soap_S sd U2 = Ok (r_U r).
Proof.
  intros Hseed. unfold uniquify. rewrite Hseed.
  destruct (classification _ _ _ _) as [[[GBs used] w']|]; [|discriminate].
  cbn. destruct (prune used _) as [U2|] eqn:HU2; [|discriminate].
  cbn. destruct (finalize _ sd U2) as [U'|] eqn:HU'; [|discriminate].
  cbn. intros [= <- <-]. exists used, U2. auto.
Qed.

Lemma filter_scored (sd : vec) (q : Q) (l : list (key * vec)) :
  filter (λ kq : key * Q, kq.2 == q) (scored soap_S sd <$> l)
  = scored soap_S sd <$> filter (λ e, soap_S e.2 sd == q) l.
Proof.
  induction l as [|e l IH]; [reflexivity|].
  rewrite fmap_cons, !filter_cons. simpl.
  destruct (decide (soap_S e.2 sd == q)); rewrite IH; reflexivity.
Qed.

(** The finalized catalogue against the pruned one. *)
Lemma finalized_catalogue (c : Collection vec) (eps : Q) (sd : vec)
    (r : UResult vec) (w : list key) :
  seed c = Some sd → uniquify soap_S c eps = Ok (r, w) →
  ∃ used U2,
    classification soap_S (extraction soap_S sd (gbs c) eps) eps (gbs c)
      = Ok (r_GBs r, used, w)
    ∧ U2 = filter (λ e, (e.1, false) ∉ used)
                  (extraction soap_S sd (gbs c) eps)
    ∧ NoDup (Dict.keys U2)
    ∧ r_U r ≡ₚ U2
    ∧ scored soap_S sd <$> r_U r
      = sorted_desc (items (scored soap_S sd <$> U2)).
Proof.
  intros Hseed Hu.
  destruct (uniquify_Ok c eps sd r w Hseed Hu) as (used & U2 & Hcl & Hpr & Hfin).
  exists used, U2. split; [exact Hcl|].
  pose proof (prune_Ok _ _ _ Hpr) as HU2. split; [exact HU2|].
  assert (Hnd : NoDup (Dict.keys U2)).
  { rewrite HU2. apply NoDup_keys_filter, extraction_NoDup. }
  destruct (finalize_Ok soap_S sd U2 (r_U r) Hnd Hfin) as [Hsc Hperm].
  auto.
Qed.

(** C3 as the code has it: the finalized catalogue holds the surviving
    entries (those of the extracted catalogue whose flag is not [False]),
    ordered by descending score against the seed, so the least seed-similar
    entry comes first and the seed entry, if it survives, among the last;
    entries with equal scores keep the order in which the score dictionary
    yields them, which is the insertion order of the catalogue when
    dictionaries iterate in insertion order. *)
Theorem finalized_order (c : Collection vec) (eps : Q) (sd : vec)
    (r : UResult vec) (w : list key) :
  seed c = Some sd → uniquify soap_S c eps = Ok (r, w) →
  ∃ used U2,
    classification soap_S (extraction soap_S sd (gbs c) eps) eps (gbs c)
      = Ok (r_GBs r, used, w)
    ∧ U2 = filter (λ e, (e.1, false) ∉ used)
                  (extraction soap_S sd (gbs c) eps)
    ∧ r_U r ≡ₚ U2
    ∧ seed_similar_last soap_S sd (r_U r)
    ∧ (∀ q, scored soap_S sd <$> filter (λ e, soap_S e.2 sd == q) (r_U r)
            = filter (λ kq, kq.2 == q) (items (scored soap_S sd <$> U2)))
    ∧ ((∀ d : list (key * Q), items d = d) →
       ∀ q, filter (λ e, soap_S e.2 sd == q) (r_U r)
            = filter (λ e, soap_S e.2 sd == q) U2).
Proof.
  intros Hseed Hu.
  destruct (finalized_catalogue c eps sd r w Hseed Hu)
    as (used & U2 & Hcl & HU2 & Hnd & Hperm & Hsc).
  exists used, U2. split; [exact Hcl|]. split; [exact HU2|].
  split; [exact Hperm|].
  assert (Hties : ∀ q,
    scored soap_S sd <$> filter (λ e, soap_S e.2 sd == q) (r_U r)
    = filter (λ kq, kq.2 == q) (items (scored soap_S sd <$> U2))).
  { intros q. rewrite <- filter_scored, Hsc. apply sorted_desc_stable. }
  split; [|split; [exact Hties|]].
  - unfold seed_similar_last.
    apply (StronglySorted_of_fmap (scored soap_S sd) _
             (λ a b : key * Q, b.2 <= a.2)).
    + intros a b Hab. exact Hab.
    + rewrite Hsc. apply sorted_desc_sorted.
  - intros Hid q. specialize (Hties q).
    rewrite Hid, filter_scored in Hties.
    apply (agree_on_keys U2); [exact Hnd| | |].
    + apply (f_equal (fmap fst)) in Hties.
      rewrite <- !list_fmap_compose in Hties. exact Hties.
    + apply Forall_forall. intros e He.
      apply list_elem_of_filter in He as [_ He]. rewrite <- Hperm. exact He.
    + apply Forall_forall. intros e He.
      apply list_elem_of_filter in He as [_ He]. exact He.
Qed.
End Finalized.

Lemma finalized_order_witness :
  ∃ r w,
    Examples.run_uniquify
      (Examples.collection (Some 0) [("a"%string, [0; 1 # 2; - (1 # 2)])])
      (1 # 10) = Ok (r, w)
    ∧ Dict.keys (r_U r) = [("a"%string, 1%nat); ("a"%string, 2%nat); seed_key]
    ∧ seed_similar_last Examples.dist 0 (r_U r).
Proof.
  eassert (Hrun : Examples.run_uniquify
            (Examples.collection (Some 0)
               [("a"%string, [0; 1 # 2; - (1 # 2)])]) (1 # 10) = Ok (_, _))
    by (vm_compute; reflexivity).
  eexists _, _. split; [exact Hrun|]. split; [reflexivity|].
  destruct (finalized_order Examples.dist (order := insertion_order)
              (Examples.collection (Some 0)
                 [("a"%string, [0; 1 # 2; - (1 # 2)])])
              _ 0 _ _ eq_refl Hrun)
    as (used & U2 & _ & _ & _ & Hs & _).
  exact Hs.
Defined.

(** ** One row of the classification *)

Section ClassifyRow.
Context {vec : Type} (soap_S : vec → vec → Q).

Lemma scan_split (Pv : vec) (eps : Q) (uni : list (key * vec))
    (result : list (key * list key)) (st : Q * option key) :
  foldl (scan_entry soap_S Pv eps) (result, st.1, st.2) uni
  = (init_keys uni result, (nearest_from soap_S Pv eps st uni).1,
     (nearest_from soap_S Pv eps st uni).2).
Proof.
  revert result st. induction uni as [|[u uP] uni IH]; intros result st.
  - reflexivity.
  - simpl. unfold nearest_from, init_keys in *. simpl.
    destruct (decide (soap_S Pv uP < eps)); [|apply IH].
    destruct (decide (soap_S Pv uP < st.1)); [|apply IH].
    apply (IH _ (soap_S Pv uP, Some u)).
Qed.

(** What the loop has found: nothing, and then [K0] is still [1] and every
    entry below the threshold is at dissimilarity 1 at least; or the first
    of the entries at the least dissimilarity, which is below the threshold
    and below 1. *)
Lemma nearest_spec (Pv : vec) (eps : Q) (uni : list (key * vec)) :
  match nearest soap_S Pv eps uni with
  | (K0, None) =>
      K0 = 1
      ∧ Forall (λ e, soap_S Pv e.2 < eps → 1 <= soap_S Pv e.2) uni
  | (K0, Some u) =>
      ∃ l1 uP l2,
        uni = l1 ++ (u, uP) :: l2
        ∧ K0 = soap_S Pv uP ∧ K0 < eps ∧ K0 < 1
        ∧ Forall (λ e, soap_S Pv e.2 < eps → K0 < soap_S Pv e.2) l1
        ∧ Forall (λ e, soap_S Pv e.2 < eps → K0 <= soap_S Pv e.2) l2
  end.
Proof.
  unfold nearest, nearest_from.
  induction uni as [|[u uP] uni IH] using rev_ind.
  - simpl. split; [reflexivity|constructor].
  - rewrite foldl_snoc. simpl.
    destruct (foldl _ (1, None) uni) as [K0 U0]. simpl.
    destruct (decide (soap_S Pv uP < eps)) as [Hlt|Hge].
    + destruct (decide (soap_S Pv uP < K0)) as [Hlt0|Hge0].
      * exists uni, uP, []. split; [reflexivity|]. split; [reflexivity|].
        split; [exact Hlt|]. destruct U0 as [u0|].
        -- destruct IH as (l1 & uP0 & l2 & -> & -> & Heps & H1 & Hl1 & Hl2).
           split; [exact (Qlt_trans _ _ _ Hlt0 H1)|]. split; [|constructor].
           rewrite Forall_app, Forall_cons. split; [|split].
           ++ eapply Forall_impl; [exact Hl1|]. simpl. intros e He Hee.
              exact (Qlt_trans _ _ _ Hlt0 (He Hee)).
           ++ simpl. intros _. exact Hlt0.
           ++ eapply Forall_impl; [exact Hl2|]. simpl. intros e He Hee.
              exact (Qlt_le_trans _ _ _ Hlt0 (He Hee)).
        -- destruct IH as [-> Hall]. split; [exact Hlt0|].
           split; [|constructor].
           eapply Forall_impl; [exact Hall|]. simpl. intros e He Hee.
           exact (Qlt_le_trans _ _ _ Hlt0 (He Hee)).
      * apply Qnot_lt_le in Hge0. destruct U0 as [u0|].
        -- destruct IH as (l1 & uP0 & l2 & -> & -> & Heps & H1 & Hl1 & Hl2).
           exists l1, uP0, (l2 ++ [(u, uP)]).
           split; [rewrite <- app_assoc; reflexivity|].
           split; [reflexivity|]. split; [exact Heps|]. split; [exact H1|].
           split; [exact Hl1|]. rewrite Forall_app, Forall_singleton.
           split; [exact Hl2|]. simpl. intros _. exact Hge0.
        -- destruct IH as [-> Hall]. split; [reflexivity|].
           rewrite Forall_app, Forall_singleton. split; [exact Hall|].
           simpl. intros _. exact Hge0.
    + destruct U0 as [u0|].
      * destruct IH as (l1 & uP0 & l2 & -> & -> & Heps & H1 & Hl1 & Hl2).
        exists l1, uP0, (l2 ++ [(u, uP)]).
        split; [rewrite <- app_assoc; reflexivity|].
        split; [reflexivity|]. split; [exact Heps|]. split; [exact H1|].
        split; [exact Hl1|]. rewrite Forall_app, Forall_singleton.
        split; [exact Hl2|]. simpl. intros Hc. contradiction.
      * destruct IH as [-> Hall]. split; [reflexivity|].
        rewrite Forall_app, Forall_singleton. split; [exact Hall|].
        simpl. intros Hc. contradiction.
Qed.
End ClassifyRow.

Section ResultFacts.
Context {K V : Type} `{EqDecision K}.

Lemma Forall_set (Q : K * V → Prop) (k : K) (v : V) (d : list (K * V)) :
  Forall Q d → Q (k, v) → Forall Q (Dict.set k v d).
Proof.
  intros Hd Hkv. induction d as [|[k' v'] d IH]; simpl.
  - constructor; [exact Hkv|constructor].
  - apply Forall_cons in Hd as [Hk' Hd]. destruct (decide (k = k')).
    + constructor; assumption.
    + constructor; [exact Hk'|exact (IH Hd)].
Qed.
End ResultFacts.

Lemma members_set (result : list (key * list key)) (u u' : key)
    (l : list key) :
  members (Dict.set u l result) u'
  = if decide (u' = u) then tail l else members result u'.
Proof.
  unfold members. rewrite get_set. destruct (decide (u' = u)); reflexivity.
Qed.

Section InitKeys.
Context {vec : Type}.
Implicit Types (uni : list (key * vec)) (result : list (key * list key)).

Lemma init_keys_NoDup uni result :
  NoDup (Dict.keys result) → NoDup (Dict.keys (init_keys uni result)).
Proof.
  revert result. induction uni as [|e uni IH]; intros result Hnd; simpl.
  - exact Hnd.
  - apply IH. destruct (Dict.contains e.1 result); [exact Hnd|].
    apply NoDup_keys_set, Hnd.
Qed.

Lemma init_keys_nonempty uni result :
  Forall (λ e, e.2 ≠ []) result →
  Forall (λ e, e.2 ≠ []) (init_keys uni result).
Proof.
  revert result. induction uni as [|e uni IH]; intros result Hne; simpl.
  - exact Hne.
  - apply IH. destruct (Dict.contains e.1 result); [exact Hne|].
    apply Forall_set; [exact Hne|]. simpl. discriminate.
Qed.

Lemma init_keys_members uni result u :
  members (init_keys uni result) u = members result u.
Proof.
  revert result. induction uni as [|e uni IH]; intros result.
  - reflexivity.
  - change (init_keys (e :: uni) result)
      with (init_keys uni (if Dict.contains e.1 result then result
                           else Dict.set e.1 [e.1] result)).
    rewrite IH.
    destruct (Dict.contains e.1 result) eqn:Hc; [reflexivity|].
    rewrite members_set. destruct (decide (u = e.1)) as [->|]; [|reflexivity].
    unfold members.
    assert (Hn : Dict.get e.1 result = None).
    { apply get_None. intros Hin. apply contains_spec in Hin. congruence. }
    rewrite Hn. reflexivity.
Qed.

Lemma init_keys_mono uni result u :
  u ∈ Dict.keys result → u ∈ Dict.keys (init_keys uni result).
Proof.
  revert result. induction uni as [|e uni IH]; intros result Hu; simpl.
  - exact Hu.
  - apply IH. destruct (Dict.contains e.1 result); [exact Hu|].
    apply elem_of_keys_set. auto.
Qed.

Lemma init_keys_covers uni result u :
  u ∈ Dict.keys uni → u ∈ Dict.keys (init_keys uni result).
Proof.
  revert result. induction uni as [|e uni IH]; intros result Hu; simpl.
  - inversion Hu.
  - simpl in Hu. apply elem_of_cons in Hu as [->|Hu]; [|exact (IH _ Hu)].
    apply init_keys_mono.
    destruct (Dict.contains e.1 result) eqn:Hc.
    + apply contains_spec, Hc.
    + apply elem_of_keys_set. auto.
Qed.

Lemma init_keys_keys uni result u :
  u ∈ Dict.keys (init_keys uni result)
  → u ∈ Dict.keys result ∨ u ∈ Dict.keys uni.
Proof.
  revert result. induction uni as [|e uni IH]; intros result; simpl.
  - auto.
  - intros Hu. apply IH in Hu as [Hu|Hu].
    + destruct (Dict.contains e.1 result); [auto|].
      apply elem_of_keys_set in Hu as [->|Hu]; [|auto].
      right. apply list_elem_of_here.
    + right. apply list_elem_of_further, Hu.
Qed.
End InitKeys.

Section ClassifyRowOk.
Context {vec : Type} (soap_S : vec → vec → Q).

(** A row that [classify_row] gets through: either it is assigned to the
    first of the entries at the least dissimilarity, which is below the
    threshold, and that entry is flagged as used; or no entry is below the
    threshold and the row is warned about. *)
Lemma classify_row_Ok (PID : string) (uni : list (key * vec)) (eps : Q)
    (result result' : list (key * list key)) (used used' : list (key * bool))
    (warned warned' : list key) (i : nat) (Pv : vec) :
  classify_row soap_S PID uni eps (result, used, warned) (i, Pv)
    = Ok (result', used', warned') →
  (∃ l1 u uP l2 l,
     uni = l1 ++ (u, uP) :: l2
     ∧ soap_S Pv uP < eps
     ∧ Forall (λ e, soap_S Pv e.2 < eps → soap_S Pv uP < soap_S Pv e.2) l1
     ∧ Forall (λ e, soap_S Pv e.2 < eps → soap_S Pv uP <= soap_S Pv e.2) l2
     ∧ Dict.get u (init_keys uni result) = Some l
     ∧ result' = Dict.set u (l ++ [(PID, i)]) (init_keys uni result)
     ∧ used' = Dict.set u true used ∧ warned' = warned)
  ∨ (Forall (λ e, eps <= soap_S Pv e.2) uni
     ∧ result' = init_keys uni result
     ∧ used' = used ∧ warned' = warned ++ [(PID, i)]).
Proof.
  unfold classify_row.
  pose proof (scan_split soap_S Pv eps uni result (1, None)) as Hscan.
  simpl in Hscan. rewrite Hscan. clear Hscan.
  pose proof (nearest_spec soap_S Pv eps uni) as Hn. unfold nearest in Hn.
  destruct (nearest_from soap_S Pv eps (1, None) uni) as [K0 [u|]]; simpl.
  - destruct Hn as (l1 & uP & l2 & Huni & -> & Heps & H1 & Hl1 & Hl2).
    rewrite decide_True by exact Heps.
    destruct (Dict.get u (init_keys uni result)) as [l|] eqn:Hl;
      [|discriminate].
    intros [= <- <- <-]. left. exists l1, u, uP, l2, l. auto 10.
  - destruct Hn as [-> Hall]. destruct (decide (1 < eps)) as [Hlt|Hge];
      [discriminate|].
    intros [= <- <- <-]. right. split; [|auto].
    eapply Forall_impl; [exact Hall|]. simpl. intros e He.
    destruct (Qlt_le_dec (soap_S Pv e.2) eps) as [Hlt|Hle]; [|exact Hle].
    exfalso. apply Hge. exact (Qle_lt_trans _ _ _ (He Hlt) Hlt).
Qed.

(** With a threshold of at most 1 every row gets through. *)
Lemma classify_row_total (PID : string) (uni : list (key * vec)) (eps : Q)
    (st : list (key * list key) * list (key * bool) * list key)
    (row : nat * vec) :
  eps <= 1 → ∃ st', classify_row soap_S PID uni eps st row = Ok st'.
Proof.
  intros Heps. destruct st as [[result used] warned]. destruct row as [i Pv].
  unfold classify_row.
  pose proof (scan_split soap_S Pv eps uni result (1, None)) as Hscan.
  simpl in Hscan. rewrite Hscan. clear Hscan.
  pose proof (nearest_spec soap_S Pv eps uni) as Hn. unfold nearest in Hn.
  destruct (nearest_from soap_S Pv eps (1, None) uni) as [K0 [u|]]; simpl.
  - destruct Hn as (l1 & uP & l2 & Huni & -> & Hlt & _).
    rewrite decide_True by exact Hlt.
    assert (Hu : u ∈ Dict.keys (init_keys uni result)).
    { apply init_keys_covers. rewrite Huni. unfold Dict.keys.
      rewrite fmap_app, elem_of_app. right. apply list_elem_of_here. }
    destruct (get_is_Some u _ Hu) as [l Hl]. rewrite Hl. eauto.
  - destruct Hn as [-> _].
    rewrite decide_False by (apply Qle_not_lt, Heps). eauto.
Qed.

(** With a threshold above 1, a row that has no entry at a dissimilarity
    below 1 does not get through: [K0] is still [1.0], which is below the
    threshold, and [U0] is still [None]. *)
Lemma classify_row_raises (PID : string) (uni : list (key * vec)) (eps : Q)
    (st : list (key * list key) * list (key * bool) * list key)
    (i : nat) (Pv : vec) :
  1 < eps → Forall (λ e, 1 <= soap_S Pv e.2) uni →
  classify_row soap_S PID uni eps st (i, Pv) = Raise KeyError.
Proof.
  intros Heps Hfar. destruct st as [[result used] warned].
  unfold classify_row.
  pose proof (scan_split soap_S Pv eps uni result (1, None)) as Hscan.
  simpl in Hscan. rewrite Hscan. clear Hscan.
  pose proof (nearest_spec soap_S Pv eps uni) as Hn. unfold nearest in Hn.
  destruct (nearest_from soap_S Pv eps (1, None) uni) as [K0 [u|]]; simpl.
  - exfalso. destruct Hn as (l1 & uP & l2 & -> & -> & _ & H1 & _).
    apply Forall_app in Hfar as [_ Hfar]. apply Forall_cons in Hfar as [Hu _].
    exact (Qlt_not_le _ _ H1 Hu).
  - destruct Hn as [-> _]. rewrite decide_True by exact Heps. reflexivity.
Qed.
End ClassifyRowOk.

(** ** Invariants of loops that may raise *)

Section LoopInvariants.
Context {A B : Type}.

Lemma foldM_inv (I : list A → B → Prop) (f : B → A → res B) (l : list A)
    (b b' : B) :
  I [] b →
  (∀ pre x post b0 b1,
     l = pre ++ x :: post → I pre b0 → f b0 x = Ok b1 → I (pre ++ [x]) b1) →
  foldM f b l = Ok b' → I l b'.
Proof.
  intros Hb Hstep.
  assert (Hgen : ∀ rest pre b0,
    l = pre ++ rest → I pre b0 → foldM f b0 rest = Ok b' → I l b').
  { induction rest as [|x rest IH]; intros pre b0 Hl Hpre; simpl.
    - intros [= <-]. rewrite Hl, app_nil_r. exact Hpre.
    - destruct (f b0 x) as [b1|] eqn:Hx; [|discriminate].
      apply (IH (pre ++ [x]) b1).
      + rewrite <- app_assoc. exact Hl.
      + exact (Hstep pre x rest b0 b1 Hl Hpre Hx). }
  exact (Hgen l [] b eq_refl Hb).
Qed.

Lemma foldM_total (I : list A → B → Prop) (f : B → A → res B) (l : list A)
    (b : B) :
  I [] b →
  (∀ pre x post b0,
     l = pre ++ x :: post → I pre b0 →
     ∃ b1, f b0 x = Ok b1 ∧ I (pre ++ [x]) b1) →
  ∃ b', foldM f b l = Ok b' ∧ I l b'.
Proof.
  intros Hb Hstep.
  assert (Hgen : ∀ rest pre b0,
    l = pre ++ rest → I pre b0 → ∃ b', foldM f b0 rest = Ok b' ∧ I l b').
  { induction rest as [|x rest IH]; intros pre b0 Hl Hpre; simpl.
    - exists b0. split; [reflexivity|]. rewrite Hl, app_nil_r. exact Hpre.
    - destruct (Hstep pre x rest b0 Hl Hpre) as (b1 & Hx & Hb1).
      rewrite Hx. apply (IH (pre ++ [x]) b1); [|exact Hb1].
      rewrite <- app_assoc. exact Hl. }
  exact (Hgen l [] b eq_refl Hb).
Qed.
End LoopInvariants.

Lemma enumerate_from_lookup_inv {A} (n j i : nat) (l : list A) (x : A) :
  enumerate_from n l !! j = Some (i, x) → i = (n + j)%nat ∧ l !! j = Some x.
Proof.
  revert n j. induction l as [|y l IH]; intros n j; [discriminate|].
  destruct j as [|j]; simpl.
  - intros [= <- <-]. split; [lia|reflexivity].
  - intros Hj. destruct (IH (S n) j Hj) as [-> Hx]. split; [lia|exact Hx].
Qed.

Lemma enumerate_split {A} (l : list A) (pre post : list (nat * A)) (i : nat)
    (x : A) :
  enumerate l = pre ++ (i, x) :: post → i = length pre ∧ l !! i = Some x.
Proof.
  intros Hl.
  assert (Hi : enumerate l !! length pre = Some (i, x)).
  { rewrite Hl. apply list_lookup_middle. reflexivity. }
  apply enumerate_from_lookup_inv in Hi as [-> Hx]. auto.
Qed.

Lemma enumerate_length {A} (l : list A) : length (enumerate l) = length l.
Proof.
  unfold enumerate. generalize 0%nat.
  induction l as [|x l IH]; intros n; simpl; [reflexivity|].
  rewrite IH. reflexivity.
Qed.

(** ** One sample of the classification *)

Lemma assigned_members {vec : Type} (uni : list (key * vec))
    (result : list (key * list key)) (u : key) (l : list key) (x : key) :
  Forall (λ e, e.2 ≠ []) result →
  Dict.get u (init_keys uni result) = Some l →
  ∀ u', members (Dict.set u (l ++ [x]) (init_keys uni result)) u'
        = if decide (u' = u) then members result u ++ [x]
          else members result u'.
Proof.
  intros Hne Hl u'. rewrite members_set.
  destruct (decide (u' = u)) as [->|]; [|apply init_keys_members].
  rewrite <- (init_keys_members uni result u). unfold members. rewrite Hl.
  pose proof (init_keys_nonempty uni result Hne) as Hne'.
  apply get_Some_elem in Hl.
  pose proof (proj1 (Forall_forall _ _) Hne' _ Hl) as Hnil. simpl in Hnil.
  destruct l; [contradiction|reflexivity].
Qed.

Section ClassifySample.
Context {vec : Type} (soap_S : vec → vec → Q).

(** What [_classify] returns when it gets through the rows of [NP]. *)
Lemma classify_Ok (NP : list vec) (PID : string) (uni : list (key * vec))
    (eps : Q) (used0 used : list (key * bool)) (warned0 warned : list key)
    (LAEs : list (key * list key)) :
  _classify soap_S NP PID uni eps used0 warned0 = Ok (LAEs, used, warned) →
  (∀ u, u ∈ Dict.keys uni → u ∈ Dict.keys used0) →
  NoDup (Dict.keys LAEs)
  ∧ Dict.keys used = Dict.keys used0
  ∧ (∀ u, Dict.get u used = Some true
          ↔ Dict.get u used0 = Some true ∨ members LAEs u ≠ [])
  ∧ (∀ u x, x ∈ members LAEs u →
            u ∈ Dict.keys uni ∧ x.1 = PID ∧ (x.2 < length NP)%nat)
  ∧ (∀ i, (i < length NP)%nat →
          (PID, i) ∈ warned ∨ ∃ u, (PID, i) ∈ members LAEs u)
  ∧ (∀ x, x ∈ warned →
          x ∈ warned0
          ∨ x.1 = PID
            ∧ ∃ Pv, NP !! x.2 = Some Pv
                    ∧ Forall (λ e, eps <= soap_S Pv e.2) uni)
  ∧ (∀ x, x ∈ warned0 → x ∈ warned).
Proof.
  intros Hrun Huni. unfold _classify in Hrun.
  pose (I := λ (pre : list (nat * vec))
               (st : list (key * list key) * list (key * bool) * list key),
    let '(result, used, warned) := st in
    Forall (λ e, e.2 ≠ []) result
    ∧ NoDup (Dict.keys result)
    ∧ Dict.keys used = Dict.keys used0
    ∧ (∀ u, Dict.get u used = Some true
            ↔ Dict.get u used0 = Some true ∨ members result u ≠ [])
    ∧ (∀ u x, x ∈ members result u →
              u ∈ Dict.keys uni ∧ x.1 = PID ∧ (x.2 < length pre)%nat)
    ∧ (∀ i, (i < length pre)%nat →
            (PID, i) ∈ warned ∨ ∃ u, (PID, i) ∈ members result u)
    ∧ (∀ x, x ∈ warned →
            x ∈ warned0
            ∨ x.1 = PID
              ∧ ∃ Pv, NP !! x.2 = Some Pv
                      ∧ Forall (λ e, eps <= soap_S Pv e.2) uni)
    ∧ (∀ x, x ∈ warned0 → x ∈ warned)).
  assert (Hfin : I (enumerate NP) (LAEs, used, warned)).
  { apply (foldM_inv I (classify_row soap_S PID uni eps) (enumerate NP)
             ([], used0, warned0)); [| |exact Hrun].
    - unfold I. split; [constructor|]. split; [constructor|].
      split; [reflexivity|]. split.
      { intros u. unfold members. simpl. split; [auto|].
        intros [Hu|Hu]; [exact Hu|contradiction]. }
      split; [intros u x Hx; inversion Hx|].
      split; [simpl; intros i Hi; lia|]. split; auto.
    - intros pre [i Pv] post [[result us] wn] [[result' us'] wn'] Hsplit HI Hrow.
      apply enumerate_split in Hsplit as [-> HPv].
      destruct HI as (Hne & Hnd & Hkeys & Hused & Hmem & Hcov & Hwn & Hw0).
      unfold I. rewrite length_app. simpl.
      apply classify_row_Ok in Hrow
        as [(l1 & u & uP & l2 & l & Hu & Hlt & _ & _ & Hl & -> & -> & ->)
           |(Hall & -> & -> & ->)].
      + pose proof (assigned_members uni result u l (PID, length pre) Hne Hl)
          as Hm.
        assert (Hukey : u ∈ Dict.keys uni).
        { rewrite Hu. unfold Dict.keys. rewrite fmap_app, elem_of_app.
          right. apply list_elem_of_here. }
        split.
        { apply Forall_set; [apply init_keys_nonempty, Hne|]. simpl.
          intros Hnil. apply app_eq_nil in Hnil as [_ Hnil]. discriminate. }
        split; [apply NoDup_keys_set, init_keys_NoDup, Hnd|].
        split.
        { rewrite keys_set_present; [exact Hkeys|].
          rewrite Hkeys. apply Huni, Hukey. }
        split.
        { intros u'. rewrite get_set, Hm.
          destruct (decide (u' = u)) as [->|Hne'].
          - split; [|reflexivity]. intros _. right.
            intros Hnil. apply app_eq_nil in Hnil as [_ Hnil]. discriminate.
          - apply Hused. }
        split.
        { intros u' x. rewrite Hm. destruct (decide (u' = u)) as [->|Hne'].
          - rewrite elem_of_app, list_elem_of_singleton. intros [Hx| ->].
            + destruct (Hmem u x Hx) as (? & ? & ?). repeat split; auto. lia.
            + simpl. repeat split; auto. lia.
          - intros Hx. destruct (Hmem u' x Hx) as (? & ? & ?).
            repeat split; auto. lia. }
        split.
        { intros i Hi. destruct (decide (i = length pre)) as [->|Hne'].
          - right. exists u. rewrite Hm, decide_True by reflexivity.
            apply elem_of_app. right. apply list_elem_of_here.
          - destruct (Hcov i ltac:(lia)) as [Hw|[u' Hu']]; [auto|].
            right. exists u'. rewrite Hm. destruct (decide (u' = u)) as [->|];
              [|exact Hu'].
            apply elem_of_app. auto. }
        split; assumption.
      + split; [apply init_keys_nonempty, Hne|].
        split; [apply init_keys_NoDup, Hnd|].
        split; [exact Hkeys|].
        split.
        { intros u'. rewrite init_keys_members. apply Hused. }
        split.
        { intros u' x. rewrite init_keys_members. intros Hx.
          destruct (Hmem u' x Hx) as (? & ? & ?). repeat split; auto. lia. }
        split.
        { intros i Hi. destruct (decide (i = length pre)) as [->|Hne'].
          - left. apply elem_of_app. right. apply list_elem_of_here.
          - destruct (Hcov i ltac:(lia)) as [Hw|[u' Hu']].
            + left. apply elem_of_app. auto.
            + right. exists u'. rewrite init_keys_members. exact Hu'. }
        split.
        { intros x. rewrite elem_of_app, list_elem_of_singleton.
          intros [Hx| ->]; [exact (Hwn x Hx)|].
          right. simpl. split; [reflexivity|]. eauto. }
        intros x Hx. apply elem_of_app. auto. }
  unfold I in Hfin. rewrite enumerate_length in Hfin.
  destruct Hfin as (_ & Hnd & Hkeys & Hused & Hmem & Hcov & Hwn & Hw0).
  auto 10.
Qed.

Lemma classify_total (NP : list vec) (PID : string) (uni : list (key * vec))
    (eps : Q) (used0 : list (key * bool)) (warned0 : list key) :
  eps <= 1 → ∃ st, _classify soap_S NP PID uni eps used0 warned0 = Ok st.
Proof.
  intros Heps. unfold _classify.
  destruct (foldM_total (λ _ _, True) (classify_row soap_S PID uni eps)
              (enumerate NP) ([], used0, warned0) I) as (st & Hst & _).
  - intros pre x post b0 _ _.
    destruct (classify_row_total soap_S PID uni eps b0 x Heps) as [b1 Hb1].
    eauto.
  - eauto.
Qed.
End ClassifySample.

(** ** The classification of all samples *)

Section Unused.
Context {vec : Type}.

Lemma unused_fold (ks : list key) (d : list (key * bool)) (u : key) :
  (Dict.get u (foldl (λ d k, Dict.set k false d) d ks)
   = if decide (u ∈ ks) then Some false else Dict.get u d)
  ∧ (NoDup (Dict.keys d) →
     NoDup (Dict.keys (foldl (λ d k, Dict.set k false d) d ks))).
Proof.
  revert d. induction ks as [|k ks IH]; intros d.
  - split; [|auto]. destruct (decide (u ∈ [])) as [Hin|]; [|reflexivity].
    inversion Hin.
  - change (foldl (λ d k, Dict.set k false d) d (k :: ks))
      with (foldl (λ d k, Dict.set k false d) (Dict.set k false d) ks).
    destruct (IH (Dict.set k false d)) as [Hget Hnd]. split.
    + rewrite Hget, get_set.
      destruct (decide (u ∈ ks)) as [Hin|Hout].
      * rewrite decide_True by (apply list_elem_of_further, Hin). reflexivity.
      * destruct (decide (u = k)) as [->|Hne].
        -- rewrite decide_True by apply list_elem_of_here. reflexivity.
        -- rewrite decide_False; [reflexivity|].
           intros Hin. apply elem_of_cons in Hin as [?|?]; contradiction.
    + intros Hd. apply Hnd, NoDup_keys_set, Hd.
Qed.

Lemma unused_get (U : list (key * vec)) (u : key) :
  Dict.get u (unused U) = if decide (u ∈ Dict.keys U) then Some false else None.
Proof. unfold unused. apply (unused_fold (Dict.keys U) [] u). Qed.

Lemma unused_NoDup (U : list (key * vec)) : NoDup (Dict.keys (unused U)).
Proof.
  unfold unused. apply (unused_fold (Dict.keys U) [] seed_key). constructor.
Qed.

Lemma unused_keys (U : list (key * vec)) (u : key) :
  u ∈ Dict.keys (unused U) ↔ u ∈ Dict.keys U.
Proof.
  split; intros Hu.
  - destruct (decide (u ∈ Dict.keys U)) as [Hin|Hout]; [exact Hin|].
    exfalso. pose proof (unused_get U u) as Hg.
    rewrite decide_False in Hg by exact Hout.
    apply get_None in Hg. contradiction.
  - destruct (decide (u ∈ Dict.keys (unused U))) as [Hin|Hout]; [exact Hin|].
    exfalso. apply get_None in Hout. rewrite unused_get in Hout.
    rewrite decide_True in Hout by exact Hu. discriminate.
Qed.
End Unused.

Section Classification.
Context {vec : Type} (soap_S : vec → vec → Q).

(** The state of the second loop of [uniquify] once it is through: the
    flags, the per-sample results and the warnings. *)
Lemma classification_Ok (U1 : list (key * vec)) (eps : Q)
    (g : list (string * Sample vec))
    (GBs : gmap string (list (key * list key))) (used : list (key * bool))
    (warned : list key) :
  NoDup g.*1 →
  classification soap_S U1 eps g = Ok (GBs, used, warned) →
  Dict.keys used = Dict.keys (unused U1)
  ∧ (∀ u, Dict.get u used = Some true
          ↔ ∃ gs LAEs, gs ∈ g ∧ GBs !! gs.1 = Some LAEs
                       ∧ members LAEs u ≠ [])
  ∧ (∀ gs, gs ∈ g →
       ∃ LAEs, GBs !! gs.1 = Some LAEs
         ∧ NoDup (Dict.keys LAEs)
         ∧ (∀ u x, x ∈ members LAEs u →
                   Dict.get u used = Some true
                   ∧ x.1 = gs.1 ∧ (x.2 < length (P gs.2))%nat)
         ∧ (∀ i, (i < length (P gs.2))%nat →
                 (gs.1, i) ∈ warned ∨ ∃ u, (gs.1, i) ∈ members LAEs u))
  ∧ (∀ x, x ∈ warned →
       ∃ gs Pv, gs ∈ g ∧ x.1 = gs.1 ∧ P gs.2 !! x.2 = Some Pv
                ∧ Forall (λ e, eps <= soap_S Pv e.2) U1).
Proof.
  intros Hnd Hrun. unfold classification in Hrun.
  pose (I := λ (pre : list (string * Sample vec))
               (st : gmap string (list (key * list key))
                     * list (key * bool) * list key),
    let '(GBs, used, warned) := st in
    Dict.keys used = Dict.keys (unused U1)
    ∧ (∀ u, Dict.get u used = Some true
            ↔ ∃ gs LAEs, gs ∈ pre ∧ GBs !! gs.1 = Some LAEs
                         ∧ members LAEs u ≠ [])
    ∧ (∀ gs, gs ∈ pre →
         ∃ LAEs, GBs !! gs.1 = Some LAEs
           ∧ NoDup (Dict.keys LAEs)
           ∧ (∀ u x, x ∈ members LAEs u →
                     Dict.get u used = Some true
                     ∧ x.1 = gs.1 ∧ (x.2 < length (P gs.2))%nat)
           ∧ (∀ i, (i < length (P gs.2))%nat →
                   (gs.1, i) ∈ warned ∨ ∃ u, (gs.1, i) ∈ members LAEs u))
    ∧ (∀ x, x ∈ warned →
         ∃ gs Pv, gs ∈ pre ∧ x.1 = gs.1 ∧ P gs.2 !! x.2 = Some Pv
                  ∧ Forall (λ e, eps <= soap_S Pv e.2) U1)).
  cut (I g (GBs, used, warned)); [intros Hfin; exact Hfin|].
  apply (foldM_inv I (classify_sample soap_S U1 eps) g (∅, unused U1, []));
    [| |exact Hrun].
  - unfold I. split; [reflexivity|]. split.
    { intros u. rewrite unused_get. split.
      - destruct (decide _); discriminate.
      - intros (gs & _ & Hin & _). inversion Hin. }
    split; [intros gs Hin; inversion Hin|]. intros x Hin. inversion Hin.
  - intros pre gs post [[GBs0 used0] warned0] [[GBs1 used1] warned1]
      Hsplit HI Hstep.
    destruct HI as (Hkeys & Hused & Hres & Hwn).
    unfold classify_sample in Hstep.
    destruct (_classify soap_S (P gs.2) gs.1 U1 eps used0 warned0)
      as [[[LAEs us] wn]|] eqn:Hcl; [|discriminate].
    cbn in Hstep. injection Hstep as <- <- <-.
    assert (Hsub : ∀ u, u ∈ Dict.keys U1 → u ∈ Dict.keys used0).
    { intros u Hu. rewrite Hkeys. apply unused_keys, Hu. }
    destruct (classify_Ok soap_S _ _ _ _ _ _ _ _ _ Hcl Hsub)
      as (HndL & Hk & Hu & Hmem & Hcov & Hw & Hw0).
    assert (Hfresh : ∀ gs', gs' ∈ pre → gs'.1 ≠ gs.1).
    { intros gs' Hin Heq. rewrite Hsplit, fmap_app in Hnd.
      apply NoDup_app in Hnd as (_ & Hdis & _).
      apply (Hdis gs'.1).
      - apply list_elem_of_fmap. eauto.
      - rewrite Heq. simpl. apply list_elem_of_here. }
    assert (Hmono : ∀ u, Dict.get u used0 = Some true →
                         Dict.get u us = Some true).
    { intros u Hu0. apply Hu. auto. }
    unfold I. split; [congruence|]. split; [|split].
    + intros u. rewrite Hu, Hused. split.
      * intros [(gs' & L & Hin & HL & Hm)|Hm].
        -- exists gs', L. split; [apply elem_of_app; auto|].
           rewrite lookup_insert_ne by (apply not_eq_sym, Hfresh, Hin). auto.
        -- exists gs, LAEs. split.
           { apply elem_of_app. right. apply list_elem_of_here. }
           rewrite lookup_insert_eq. auto.
      * intros (gs' & L & Hin & HL & Hm).
        apply elem_of_app in Hin as [Hin|Hin].
        -- left. exists gs', L. split; [exact Hin|].
           rewrite lookup_insert_ne in HL
             by (apply not_eq_sym, Hfresh, Hin). auto.
        -- apply list_elem_of_singleton in Hin as ->.
           rewrite lookup_insert_eq in HL. injection HL as <-. auto.
    + intros gs' Hin. apply elem_of_app in Hin as [Hin|Hin].
      * destruct (Hres gs' Hin) as (L & HL & HndL' & Hm & Hc).
        exists L. rewrite lookup_insert_ne
          by (apply not_eq_sym, Hfresh, Hin).
        split; [exact HL|]. split; [exact HndL'|]. split.
        -- intros u x Hx. destruct (Hm u x Hx) as (? & ? & ?). auto.
        -- intros i Hi. destruct (Hc i Hi) as [?|?]; auto.
      * apply list_elem_of_singleton in Hin as ->.
        exists LAEs. rewrite lookup_insert_eq.
        split; [reflexivity|]. split; [exact HndL|]. split.
        -- intros u x Hx. destruct (Hmem u x Hx) as (? & ? & ?).
           split; [|auto]. apply Hu. right. intros Hnil.
           rewrite Hnil in Hx. inversion Hx.
        -- exact Hcov.
    + intros x Hx. destruct (Hw x Hx) as [Hx0|(Hpid & Pv & HPv & Hall)].
      * destruct (Hwn x Hx0) as (gs' & Pv & Hin & ?).
        exists gs', Pv. split; [apply elem_of_app; auto|auto].
      * exists gs, Pv. split; [|auto].
        apply elem_of_app. right. apply list_elem_of_here.
Qed.

Lemma classification_total (U1 : list (key * vec)) (eps : Q)
    (g : list (string * Sample vec)) :
  eps <= 1 → ∃ st, classification soap_S U1 eps g = Ok st.
Proof.
  intros Heps. unfold classification.
  destruct (foldM_total (λ _ _, True) (classify_sample soap_S U1 eps) g
              (∅, unused U1, []) I) as (st & Hst & _); [|eauto].
  intros pre gs post [[GBs used] warned] _ _.
  unfold classify_sample.
  destruct (classify_total soap_S (P gs.2) gs.1 U1 eps used warned Heps)
    as [[[L us] wn] HL].
  rewrite HL. cbn. eauto.
Qed.
End Classification.

(** ** Which entries survive *)

Section Survivors.
Context {vec : Type} (soap_S : vec → vec → Q) {order : DictOrder}.

Lemma survivors_keys (c : Collection vec) (eps : Q) (sd : vec)
    (r : UResult vec) (w : list key) :
  seed c = Some sd → uniquify soap_S c eps = Ok (r, w) →
  ∃ used,
    classification soap_S (extraction soap_S sd (gbs c) eps) eps (gbs c)
      = Ok (r_GBs r, used, w)
    ∧ NoDup (Dict.keys (r_U r))
    ∧ (Dict.keys used = Dict.keys (unused (extraction soap_S sd (gbs c) eps))
       → ∀ u, u ∈ Dict.keys (r_U r) ↔ Dict.get u used = Some true).
Proof.
  intros Hseed Hu.
  destruct (finalized_catalogue soap_S c eps sd r w Hseed Hu)
    as (used & U2 & Hcl & HU2 & HndU2 & Hperm & _).
  exists used. split; [exact Hcl|].
  set (U1 := extraction soap_S sd (gbs c) eps) in *.
  split.
  { unfold Dict.keys. rewrite Hperm. exact HndU2. }
  intros Hkeys u.
  assert (Hndu : NoDup (Dict.keys used)).
  { rewrite Hkeys. apply unused_NoDup. }
  unfold Dict.keys at 1. rewrite Hperm, HU2. split.
  - intros Hin. apply list_elem_of_fmap in Hin as ([u' v] & -> & Hin).
    apply list_elem_of_filter in Hin as [Hnf Hin]. simpl in *.
    assert (Hk : u' ∈ Dict.keys used).
    { rewrite Hkeys. apply unused_keys. apply list_elem_of_fmap.
      exists (u', v). auto. }
    destruct (get_is_Some u' used Hk) as [[|] Hb]; [exact Hb|].
    exfalso. apply Hnf. exact (get_Some_elem _ _ _ Hb).
  - intros Hget.
    assert (Hk : u ∈ Dict.keys U1).
    { apply unused_keys. rewrite <- Hkeys.
      destruct (decide (u ∈ Dict.keys used)) as [Hin|Hout]; [exact Hin|].
      apply get_None in Hout. congruence. }
    apply list_elem_of_fmap in Hk as ([u' v] & -> & Hin).
    apply list_elem_of_fmap. exists (u', v). split; [reflexivity|].
    apply list_elem_of_filter. split; [|exact Hin]. simpl.
    intros Hf. apply (elem_get _ _ _ Hndu) in Hf. simpl in Hget. congruence.
Qed.

(** C6 as the code has it: an entry of the catalogue, the seed entry
    included, is in the finalized catalogue exactly when some atom of some
    sample was classified to it; so the seed's identifier is present exactly
    when an atom was classified to the seed, and the finalized catalogue is
    non-empty exactly when some atom was classified at all. *)
Theorem seed_survives_iff_used (c : Collection vec) (eps : Q) (sd : vec)
    (r : UResult vec) (w : list key) :
  seed c = Some sd → NoDup (gbs c).*1 →
  uniquify soap_S c eps = Ok (r, w) →
  (seed_key ∈ Dict.keys (r_U r)
   ↔ ∃ gs LAEs, gs ∈ gbs c ∧ r_GBs r !! gs.1 = Some LAEs
                ∧ members LAEs seed_key ≠ [])
  ∧ (r_U r ≠ []
     ↔ ∃ u gs LAEs, gs ∈ gbs c ∧ r_GBs r !! gs.1 = Some LAEs
                    ∧ members LAEs u ≠ []).
Proof.
  intros Hseed Hnd Hu.
  destruct (survivors_keys c eps sd r w Hseed Hu) as (used & Hcl & _ & Hkeys).
  destruct (classification_Ok soap_S _ _ _ _ _ _ Hnd Hcl)
    as (Hk & Hused & _ & _).
  specialize (Hkeys Hk).
  assert (Hall : ∀ u, u ∈ Dict.keys (r_U r)
    ↔ ∃ gs LAEs, gs ∈ gbs c ∧ r_GBs r !! gs.1 = Some LAEs
                 ∧ members LAEs u ≠ []).
  { intros u. rewrite Hkeys. apply Hused. }
  split; [apply Hall|]. split.
  - intros Hne. destruct (r_U r) as [|[u v] U'] eqn:HU; [contradiction|].
    exists u. apply Hall. simpl. apply list_elem_of_here.
  - intros (u & Hex). apply Hall in Hex. intros Hnil.
    rewrite Hnil in Hex. inversion Hex.
Qed.
End Survivors.

Lemma seed_survives_iff_used_witness :
  ∃ r w,
    Examples.run_uniquify
      (Examples.collection (Some 0) [("a"%string, [0; 1 # 2])]) (1 # 10)
      = Ok (r, w)
    ∧ (seed_key ∈ Dict.keys (r_U r)
       ↔ ∃ gs LAEs,
           gs ∈ gbs (Examples.collection (Some 0) [("a"%string, [0; 1 # 2])])
           ∧ r_GBs r !! gs.1 = Some LAEs ∧ members LAEs seed_key ≠ []).
Proof.
  eassert (Hrun : Examples.run_uniquify
            (Examples.collection (Some 0) [("a"%string, [0; 1 # 2])])
            (1 # 10) = Ok (_, _))
    by (vm_compute; reflexivity).
  eexists _, _. split; [exact Hrun|].
  refine (proj1 (seed_survives_iff_used Examples.dist
                   (order := insertion_order)
                   (Examples.collection (Some 0) [("a"%string, [0; 1 # 2])])
                   _ 0 _ _ eq_refl _ Hrun)).
  refine (bool_decide_unpack _ _). vm_compute. exact I.
Defined.

(** ** Every atom has an entry within the threshold *)

Section Coverage.
Context {vec : Type} (soap_S : vec → vec → Q).

Lemma Exists_prefix {A} (Q : A → Prop) (l k : list A) :
  l `prefix_of` k → Exists Q l → Exists Q k.
Proof. intros [k' ->] Hl. apply Exists_app. auto. Qed.

Lemma fold_insert_covers (eps : Q) (U l : list (key * vec)) (a : key * vec) :
  (∀ v, soap_S v v < eps) → a ∈ l →
  Exists (λ e, soap_S a.2 e.2 < eps) (foldl (insert_if_new soap_S eps) U l).
Proof.
  intros Hrefl. revert U. induction l as [|b l IH]; intros U Hin.
  - inversion Hin.
  - simpl. apply elem_of_cons in Hin as [->|Hin]; [|apply IH, Hin].
    eapply Exists_prefix; [apply fold_insert_prefix|].
    unfold insert_if_new.
    destruct (bool_decide _) eqn:Hd.
    + apply Exists_app. right. apply Exists_cons_hd. apply Hrefl.
    + apply bool_decide_eq_false in Hd. apply not_Forall_Exists in Hd;
        [|intros e; apply _].
      eapply Exists_impl; [exact Hd|]. simpl. intros e He.
      apply Qnot_le_lt, He.
Qed.

Lemma elem_of_atoms (g : list (string * Sample vec)) (gs : string * Sample vec)
    (i : nat) (Pv : vec) :
  gs ∈ g → P gs.2 !! i = Some Pv → ((gs.1, i), Pv) ∈ atoms g.
Proof.
  intros Hgs HPv. unfold atoms. apply list_elem_of_In, in_flat_map.
  exists gs. split; [apply list_elem_of_In, Hgs|].
  apply list_elem_of_In, list_elem_of_fmap. exists (i, Pv).
  split; [reflexivity|]. apply list_elem_of_lookup. exists i.
  unfold enumerate. rewrite (enumerate_from_lookup 0 i _ _ HPv). reflexivity.
Qed.

Lemma extraction_covers (sd : vec) (g : list (string * Sample vec)) (eps : Q)
    (gs : string * Sample vec) (i : nat) (Pv : vec) :
  NoDup g.*1 → seed_key.1 ∉ g.*1 → (∀ v, soap_S v v < eps) →
  gs ∈ g → P gs.2 !! i = Some Pv →
  Exists (λ e, soap_S Pv e.2 < eps) (extraction soap_S sd g eps).
Proof.
  intros Hnd Hseed Hrefl Hgs HPv.
  rewrite (extraction_extract_rule soap_S sd g eps Hnd Hseed).
  unfold extract_rule.
  apply (fold_insert_covers eps _ _ ((gs.1, i), Pv) Hrefl).
  apply elem_of_atoms; assumption.
Qed.
End Coverage.

(** ** The pipeline gets through *)

Section Totality.
Context {vec : Type} (soap_S : vec → vec → Q) {order : DictOrder}.

Lemma prune_loop_total (l : list (key * bool)) (U : list (key * vec)) :
  NoDup l.*1 → (∀ k, (k, false) ∈ l → k ∈ Dict.keys U) →
  ∃ U2, foldM (λ U kv, if kv.2 : bool then Ok U else Dict.del kv.1 U) U l
        = Ok U2.
Proof.
  revert U. induction l as [|[k b] l IH]; intros U Hnd Hin; simpl.
  - eauto.
  - simpl in Hnd. apply NoDup_cons in Hnd as [Hk Hnd]. destruct b.
    + apply (IH U Hnd). intros k' Hk'. apply Hin, list_elem_of_further, Hk'.
    + unfold Dict.del.
      assert (Hc : Dict.contains k U = true).
      { apply contains_spec, Hin, list_elem_of_here. }
      rewrite Hc. apply (IH _ Hnd). intros k' Hk'.
      assert (Hne : k' ≠ k).
      { intros ->. apply Hk. apply list_elem_of_fmap. exists (k, false). auto. }
      specialize (Hin k' (list_elem_of_further _ _ _ Hk')).
      apply list_elem_of_fmap in Hin as ([k'' v] & -> & Hin).
      apply list_elem_of_fmap. exists (k'', v). split; [reflexivity|].
      apply list_elem_of_filter. auto.
Qed.

Lemma prune_total (used : list (key * bool)) (U : list (key * vec)) :
  NoDup (Dict.keys used) → (∀ k, k ∈ Dict.keys used → k ∈ Dict.keys U) →
  ∃ U2, prune used U = Ok U2.
Proof.
  intros Hnd Hsub. unfold prune. apply prune_loop_total.
  - rewrite (items_perm _ used). exact Hnd.
  - intros k Hk. apply Hsub. rewrite (items_perm _ used) in Hk.
    apply list_elem_of_fmap. exists (k, false). auto.
Qed.

Lemma finalize_total (sd : vec) (U : list (key * vec)) :
  NoDup (Dict.keys U) → ∃ U', finalize soap_S sd U = Ok U'.
Proof.
  intros Hnd. unfold finalize. rewrite (scores_NoDup soap_S sd U Hnd).
  set (Ks := sorted_desc (items (scored soap_S sd <$> U))).
  assert (Hkeys : Dict.keys Ks ≡ₚ Dict.keys U).
  { unfold Dict.keys, Ks. rewrite sorted_desc_perm, (items_perm _ _).
    rewrite <- list_fmap_compose. reflexivity. }
  assert (HndK : NoDup (Dict.keys Ks)) by (rewrite Hkeys; exact Hnd).
  rewrite (of_list_NoDup Ks HndK).
  destruct (lookup_all U (Dict.keys Ks)) as (U' & HU' & _).
  - apply Forall_forall. intros k Hk. rewrite <- Hkeys. exact Hk.
  - rewrite HU'. cbn. eauto.
Qed.

Lemma uniquify_total (c : Collection vec) (eps : Q) (sd : vec) :
  seed c = Some sd → eps <= 1 → ∃ r w, uniquify soap_S c eps = Ok (r, w).
Proof.
  intros Hseed Heps. unfold uniquify. rewrite Hseed.
  set (U1 := extraction soap_S sd (gbs c) eps).
  destruct (classification_total soap_S U1 eps (gbs c) Heps)
    as [[[GBs used] w] Hcl].
  rewrite Hcl. cbn.
  assert (Hkeys : Dict.keys used = Dict.keys (unused U1)).
  { unfold classification in Hcl.
    apply (foldM_inv (λ _ (st : gmap string (list (key * list key))
                                 * list (key * bool) * list key),
                        Dict.keys st.1.2 = Dict.keys (unused U1))
             (classify_sample soap_S U1 eps) (gbs c)
             (∅, unused U1, []) _ eq_refl)
      in Hcl; [exact Hcl|].
    intros pre gs post [[G0 u0] w0] [[G1 u1] w1] _ Hk Hstep. simpl in *.
    unfold classify_sample in Hstep.
    destruct (_classify soap_S (P gs.2) gs.1 U1 eps u0 w0)
      as [[[L us] wn]|] eqn:HL; [|discriminate].
    cbn in Hstep. injection Hstep as <- <- <-.
    destruct (classify_Ok soap_S _ _ _ _ _ _ _ _ _ HL) as (_ & Hk' & _).
    - intros u Hu. rewrite Hk. apply unused_keys, Hu.
    - congruence. }
  destruct (prune_total used U1) as [U2 HU2].
  - rewrite Hkeys. apply unused_NoDup.
  - intros k Hk. rewrite Hkeys in Hk. exact (proj1 (unused_keys U1 k) Hk).
  - rewrite HU2. cbn.
    destruct (finalize_total sd U2) as [U' HU'].
    + rewrite (prune_Ok _ _ _ HU2).
      apply NoDup_keys_filter, extraction_NoDup.
    + rewrite HU'. cbn. eauto.
Qed.
End Totality.

(** ** From the classification to the assigned identifiers *)

Lemma sum_list_cons (x : nat) (l : list nat) :
  sum_list (x :: l) = (x + sum_list l)%nat.
Proof. reflexivity. Qed.

Lemma count_one (ks : list key) (u : key) :
  NoDup ks → u ∈ ks →
  sum_list ((λ uid, if decide (Some u = Some uid) then 1 else 0)%nat <$> ks)
  = 1%nat.
Proof.
  induction ks as [|k ks IH]; intros Hnd Hin; [inversion Hin|].
  apply NoDup_cons in Hnd as [Hk Hnd]. rewrite fmap_cons, sum_list_cons.
  destruct (decide (Some u = Some k)) as [[= ->]|Hne].
  - assert (Hz : sum_list ((λ uid, if decide (Some k = Some uid) then 1 else 0)%nat
                            <$> ks) = 0%nat); [|rewrite Hz; reflexivity].
    clear IH Hnd Hin. induction ks as [|k' ks IH]; [reflexivity|].
    apply not_elem_of_cons in Hk as [Hne Hk].
    rewrite fmap_cons, sum_list_cons.
    rewrite decide_False by congruence. exact (IH Hk).
  - apply elem_of_cons in Hin as [->|Hin]; [congruence|].
    rewrite (IH Hnd Hin). reflexivity.
Qed.

Lemma count_partition (ks : list key) (l : list (option key)) :
  NoDup ks → Forall (λ x, ∃ u, x = Some u ∧ u ∈ ks) l →
  sum_list ((λ uid, length (filter (λ x, x = Some uid) l)) <$> ks) = length l.
Proof.
  intros Hnd. induction l as [|x l IH]; intros Hall.
  - clear Hnd Hall. induction ks as [|k ks IHk]; [reflexivity|].
    rewrite fmap_cons, sum_list_cons, IHk. reflexivity.
  - apply Forall_cons in Hall as [(u & -> & Hu) Hall].
    assert (Hsplit :
      sum_list ((λ uid, length (filter (λ x, x = Some uid) (Some u :: l)))
                  <$> ks)
      = (sum_list ((λ uid, if decide (Some u = Some uid) then 1 else 0)%nat
                     <$> ks)
         + sum_list ((λ uid, length (filter (λ x, x = Some uid) l)) <$> ks))%nat).
    { clear. induction ks as [|k ks IHk]; [reflexivity|].
      rewrite !fmap_cons, !sum_list_cons, filter_cons, IHk.
      destruct (decide (Some u = Some k)); simpl; lia. }
    rewrite Hsplit, (IH Hall), (count_one ks u Hnd Hu). reflexivity.
Qed.

Lemma mapM_total {A B} (f : A → res B) (l : list A) :
  (∀ x, x ∈ l → ∃ y, f x = Ok y) → ∃ ys, mapM f l = Ok ys.
Proof.
  induction l as [|x l IH]; intros Hall.
  - exists []. reflexivity.
  - destruct (Hall x (list_elem_of_here _ _)) as [y Hy].
    destruct IH as [ys Hys].
    { intros x' Hx'. apply Hall, list_elem_of_further, Hx'. }
    exists (y :: ys). apply mapM_Ok. constructor; [exact Hy|].
    apply mapM_Ok, Hys.
Qed.

Section Assignment.
Context {vec : Type} {order : DictOrder}.

Lemma in_assignments (LAEs : list (key * list key)) (VID : nat) (u : key) :
  NoDup (Dict.keys LAEs) → (VID, u) ∈ assignments LAEs →
  ∃ pv, pv ∈ members LAEs u ∧ pv.2 = VID.
Proof.
  intros Hnd Hin. unfold assignments in Hin.
  apply list_elem_of_In, in_flat_map in Hin as ([u' l] & Hue & Hin).
  apply list_elem_of_In in Hue, Hin. simpl in Hin.
  apply list_elem_of_fmap in Hin as (pv & [= -> ->] & Hpv).
  rewrite (items_perm _ LAEs) in Hue.
  exists pv. split; [|reflexivity].
  unfold members. rewrite (elem_get _ _ _ Hnd Hue). exact Hpv.
Qed.

Lemma members_assignments (LAEs : list (key * list key)) (pv u : key) :
  pv ∈ members LAEs u → (pv.2, u) ∈ assignments LAEs.
Proof.
  unfold members. destruct (Dict.get u LAEs) as [l|] eqn:Hl;
    [|intros Hin; inversion Hin].
  intros Hin. unfold assignments.
  apply list_elem_of_In, in_flat_map. exists (u, l). split.
  - apply list_elem_of_In. rewrite (items_perm _ LAEs).
    exact (get_Some_elem _ _ _ Hl).
  - apply list_elem_of_In, list_elem_of_fmap. exists pv. auto.
Qed.

(** The loop of assignments on a boundary whose [LAEs] list is long enough
    for every index: it does not raise, and the indices it visits end up
    with one of the identifiers it assigns. *)
Lemma iterE_assign (Good : key → Prop) (todo : list (nat * key))
    (s : Sample vec) (l : list (option key)) :
  LAEs s = Some l →
  Forall (λ a, (a.1 < length l)%nat ∧ Good a.2) todo →
  ∃ s' l',
    iterE assign_LAE s todo = (s', None)
    ∧ xyz_len s' = xyz_len s ∧ LAEs s' = Some l' ∧ length l' = length l
    ∧ ∀ i, (i ∈ todo.*1 → ∃ u, l' !! i = Some (Some u) ∧ Good u)
           ∧ (i ∉ todo.*1 → l' !! i = l !! i).
Proof.
  revert s l. induction todo as [|[VID u] todo IH]; intros s l Hs Hall.
  - exists s, l. simpl. repeat split; auto. intros Hin. inversion Hin.
  - apply Forall_cons in Hall as [[Hlt Hu] Hall]. simpl in Hlt, Hu.
    simpl. unfold assign_LAE at 1. rewrite Hs. simpl.
    rewrite decide_True by exact Hlt.
    destruct (IH (set_LAEs s (<[VID := Some u]> l)) (<[VID := Some u]> l))
      as (s' & l' & Hrun & Hx & HL & Hlen & Hidx).
    { reflexivity. }
    { eapply Forall_impl; [exact Hall|]. intros a [Ha1 Ha2].
      rewrite length_insert. auto. }
    exists s', l'. rewrite Hrun. split; [reflexivity|].
    split; [exact Hx|]. split; [exact HL|].
    split; [rewrite Hlen; apply length_insert|].
    intros i. destruct (Hidx i) as [Hin Hout].
    destruct (decide (i ∈ todo.*1)) as [Hi|Hi].
    + split; [intros _; exact (Hin Hi)|].
      intros Hni. exfalso. apply Hni. apply list_elem_of_further, Hi.
    + destruct (decide (i = VID)) as [->|Hne].
      * split.
        -- intros _. exists u. split; [|exact Hu].
           rewrite (Hout Hi). apply list_lookup_insert_eq. exact Hlt.
        -- intros Hni. exfalso. apply Hni. apply list_elem_of_here.
      * split.
        -- intros Hi'. apply elem_of_cons in Hi' as [?|?]; contradiction.
        -- intros _. rewrite (Hout Hi).
           apply list_lookup_insert_ne. congruence.
Qed.

Lemma assign_all_spec (Q : string * Sample vec → string * Sample vec → Prop)
    (r : UResult vec) (g : list (string * Sample vec)) :
  (∀ gs, gs ∈ g → ∃ gs', assign_sample r gs = (gs', None) ∧ Q gs gs') →
  ∃ g', assign_all r g = (g', None) ∧ Forall2 Q g g'.
Proof.
  induction g as [|gs g IH]; intros Hall.
  - exists []. split; [reflexivity|constructor].
  - destruct (Hall gs (list_elem_of_here _ _)) as (gs' & Hgs & HQ).
    destruct IH as (g' & Hg & HF).
    { intros x Hx. apply Hall, list_elem_of_further, Hx. }
    exists (gs' :: g'). simpl. rewrite Hgs, Hg.
    split; [reflexivity|]. constructor; assumption.
Qed.
End Assignment.

(** ** Every atom is counted *)

Section Counts.
Context {vec : Type} (soap_S : vec → vec → Q) {order : DictOrder}.

(** After a run of [uniquify] that returns, on a collection whose sample
    identifiers are distinct and differ from the sentinel's, with a kernel
    that is 0 on equal vectors and a positive threshold: nothing was warned
    about, every atom of every sample is in the list of an entry that is
    flagged as used, and the lists hold indices of the sample only. *)
Lemma every_atom_assigned (c : Collection vec) (eps : Q) (sd : vec)
    (r : UResult vec) (w : list key) :
  seed c = Some sd →
  NoDup (gbs c).*1 → seed_key.1 ∉ (gbs c).*1 →
  0 < eps → (∀ v, soap_S v v == 0) →
  uniquify soap_S c eps = Ok (r, w) →
  w = []
  ∧ NoDup (Dict.keys (r_U r))
  ∧ ∀ gs, gs ∈ gbs c →
      ∃ LAEs, r_GBs r !! gs.1 = Some LAEs
        ∧ NoDup (Dict.keys LAEs)
        ∧ (∀ u x, x ∈ members LAEs u →
                  u ∈ Dict.keys (r_U r) ∧ (x.2 < length (P gs.2))%nat)
        ∧ (∀ i, (i < length (P gs.2))%nat →
                ∃ u, (gs.1, i) ∈ members LAEs u).
Proof.
  intros Hseed Hnd Hsent Heps Hrefl Hu.
  destruct (survivors_keys soap_S c eps sd r w Hseed Hu)
    as (used & Hcl & HndU & Hkeys).
  destruct (classification_Ok soap_S _ _ _ _ _ _ Hnd Hcl)
    as (Hk & _ & Hres & Hwn).
  specialize (Hkeys Hk).
  assert (Hw : w = []).
  { destruct w as [|x w']; [reflexivity|]. exfalso.
    destruct (Hwn x (list_elem_of_here _ _)) as (gs & Pv & Hgs & _ & HPv & Hall).
    assert (Hlt : ∀ v, soap_S v v < eps) by (intros v; rewrite Hrefl; exact Heps).
    pose proof (extraction_covers soap_S sd (gbs c) eps gs x.2 Pv
                  Hnd Hsent Hlt Hgs HPv) as Hex.
    apply Exists_exists in Hex as (e & He & Hlte).
    pose proof (proj1 (Forall_forall _ _) Hall e He) as Hge. simpl in Hge.
    exact (Qlt_not_le _ _ Hlte Hge). }
  split; [exact Hw|]. split; [exact HndU|].
  intros gs Hgs. destruct (Hres gs Hgs) as (LAEs & HL & HndL & Hm & Hc).
  exists LAEs. split; [exact HL|]. split; [exact HndL|]. split.
  - intros u x Hx. destruct (Hm u x Hx) as (Hused & _ & Hlt).
    split; [apply Hkeys, Hused|exact Hlt].
  - intros i Hi. destruct (Hc i Hi) as [Hin|Hex]; [|exact Hex].
    rewrite Hw in Hin. inversion Hin.
Qed.

Lemma LER_row_total (uids : list key) (s : Sample vec) (l : list (option key)) :
  LAEs s = Some l →
  sum_list ((λ uid, length (filter (λ x, x = Some uid) l)) <$> uids)
    = xyz_len s →
  ∃ row, LER_row uids s = Ok row.
Proof.
  intros Hl Hsum. unfold LER_row.
  assert (Hc : mapM (LAE_count s) uids
               = Ok ((λ uid, length (filter (λ x, x = Some uid) l)) <$> uids)).
  { apply mapM_Ok. apply Forall2_fmap_r, Forall_Forall2_diag, Forall_forall.
    intros uid _. unfold LAE_count. rewrite Hl. reflexivity. }
  rewrite Hc. cbn. rewrite decide_True by exact Hsum. eauto.
Qed.

(** C5: under the contracts of the specification (a seed, distinct sample
    identifiers none of which is the sentinel's, a kernel that is 0 on
    equal vectors, a positive threshold, trimmed boundaries with a
    descriptor row per atom) and a threshold that is not in the stores:
    a threshold of at most 1 makes [uniquify] return; and whenever it
    returns, no atom was warned about, [U] assigns an identifier of the
    finalized catalogue to every atom, the counts of the catalogue
    identifiers in a boundary's [LAEs] add up to the boundary's length, and
    [LER] passes its assertion for every boundary and returns the matrix. *)
Theorem assigned_counts (c : Collection vec) (eps : Q) (sd : vec) :
  seed c = Some sd →
  NoDup (gbs c).*1 → seed_key.1 ∉ (gbs c).*1 →
  0 < eps → (∀ v, soap_S v v == 0) →
  (∀ gs, gs ∈ gbs c →
     xyz_len gs.2 = length (P gs.2)
     ∧ ∃ l, LAEs gs.2 = Some l ∧ length l = xyz_len gs.2) →
  store_get eps (store_U c) = None →
  store_get eps (store_LER c) = None →
  (eps <= 1 → ∃ r w, uniquify soap_S c eps = Ok (r, w))
  ∧ ∀ r w, uniquify soap_S c eps = Ok (r, w) →
      w = []
      ∧ ∃ c1 M,
          U soap_S c eps = (Ok r, c1)
          ∧ Forall2 (λ gs gs1,
               gs1.1 = gs.1 ∧ xyz_len gs1.2 = xyz_len gs.2
               ∧ ∃ l, LAEs gs1.2 = Some l
                   ∧ Forall (λ x, ∃ u, x = Some u ∧ u ∈ Dict.keys (r_U r)) l
                   ∧ sum_list
                       ((λ uid, length (filter (λ x, x = Some uid) l))
                          <$> Dict.keys (r_U r))
                     = xyz_len gs.2)
              (gbs c) (gbs c1)
          ∧ LER soap_S c eps
            = (Ok M, with_store_LER c1 (store_put eps M (store_LER c1))).
Proof.
  intros Hseed Hnd Hsent Heps Hrefl Htrim HmU HmL.
  split; [intros Hle; exact (uniquify_total soap_S c eps sd Hseed Hle)|].
  intros r w Hu.
  destruct (every_atom_assigned c eps sd r w Hseed Hnd Hsent Heps Hrefl Hu)
    as (Hw & HndU & Hres).
  split; [exact Hw|].
  destruct (assign_all_spec
    (λ gs gs1 : string * Sample vec,
       gs1.1 = gs.1 ∧ xyz_len gs1.2 = xyz_len gs.2
       ∧ ∃ l, LAEs gs1.2 = Some l
           ∧ Forall (λ x, ∃ u, x = Some u ∧ u ∈ Dict.keys (r_U r)) l
           ∧ sum_list ((λ uid, length (filter (λ x, x = Some uid) l))
                         <$> Dict.keys (r_U r))
             = xyz_len gs.2)
    r (gbs c)) as (g' & Hg' & HF).
  { intros gs Hgs.
    destruct (Hres gs Hgs) as (L & HL & HndL & Hm & Hc).
    destruct (Htrim gs Hgs) as (Hlen & l & Hl & Hll).
    unfold assign_sample. rewrite HL.
    destruct (iterE_assign (λ u, u ∈ Dict.keys (r_U r)) (assignments L)
                gs.2 l Hl) as (s' & l' & Hrun & Hx & HL' & Hlen' & Hidx).
    { apply Forall_forall. intros [VID u] Ha.
      apply (in_assignments L VID u HndL) in Ha as (pv & Hpv & <-).
      destruct (Hm u pv Hpv) as [Hk Hlt]. simpl. split; [lia|exact Hk]. }
    rewrite Hrun. eexists. split; [reflexivity|]. simpl.
    split; [reflexivity|]. split; [exact Hx|].
    assert (Hall : Forall (λ x, ∃ u, x = Some u ∧ u ∈ Dict.keys (r_U r)) l').
    { apply Forall_lookup. intros i x Hix.
      assert (Hi : (i < length (P gs.2))%nat).
      { apply lookup_lt_Some in Hix. lia. }
      destruct (Hc i Hi) as [u Hmem].
      apply members_assignments in Hmem. simpl in Hmem.
      assert (Hin : i ∈ (assignments L).*1).
      { apply list_elem_of_fmap. exists (i, u). auto. }
      destruct (proj1 (Hidx i) Hin) as (u' & Hu' & Hgood).
      exists u'. split; [congruence|exact Hgood]. }
    exists l'. split; [exact HL'|]. split; [exact Hall|].
    rewrite (count_partition _ l' HndU Hall). lia. }
  assert (HU : U soap_S c eps
               = (Ok r, with_gbs (with_store_U c (store_put eps r (store_U c)))
                                 g')).
  { unfold U. rewrite HmU, Hu. simpl. rewrite Hg'. reflexivity. }
  destruct (mapM_total (λ gs : string * Sample vec,
                          LER_row (Dict.keys (r_U r)) gs.2) g') as [M HM].
  { intros gs1 Hgs1.
    apply list_elem_of_lookup in Hgs1 as [i Hi].
    destruct (Forall2_lookup_r _ _ _ _ _ HF Hi)
      as (gs & _ & _ & Hxl & l & Hl & _ & Hsum).
    apply (LER_row_total _ _ l Hl). congruence. }
  eexists _, M. split; [exact HU|]. split; [exact HF|].
  unfold LER. rewrite HmL, HU. simpl. rewrite HM. reflexivity.
Qed.
End Counts.

Lemma dist_refl (v : Q) : Examples.dist v v == 0.
Proof. unfold Examples.dist. destruct (decide (v < v)); ring. Qed.

Lemma collection_trimmed (sd : option Q) (g : list (string * list Q))
    (gs : string * Sample Q) :
  gs ∈ gbs (Examples.collection sd g) →
  xyz_len gs.2 = length (P gs.2)
  ∧ ∃ l, LAEs gs.2 = Some l ∧ length l = xyz_len gs.2.
Proof.
  intros Hin. simpl in Hin. apply list_elem_of_fmap in Hin as (x & -> & _).
  simpl. split; [reflexivity|]. eexists. split; [reflexivity|].
  apply length_replicate.
Qed.

Lemma assigned_counts_witness :
  let c := Examples.collection (Some 0)
             [("a"%string, [0; 1 # 2; 0]); ("b"%string, [1 # 2; 1 # 4])] in
  ∃ r w M c1,
    Examples.run_uniquify c (1 # 10) = Ok (r, w)
    ∧ w = []
    ∧ LER Examples.dist (order := insertion_order) c (1 # 10) = (Ok M, c1).
Proof.
  intros c.
  assert (Hnd : NoDup (gbs c).*1)
    by (refine (bool_decide_unpack _ _); vm_compute; exact I).
  assert (Hsent : seed_key.1 ∉ (gbs c).*1)
    by (refine (bool_decide_unpack _ _); vm_compute; exact I).
  destruct (assigned_counts Examples.dist (order := insertion_order)
              c (1 # 10) 0 eq_refl Hnd Hsent eq_refl dist_refl
              (collection_trimmed _ _) eq_refl eq_refl) as [Htot Hok].
  destruct (Htot ltac:(discriminate)) as (r & w & Hrun).
  destruct (Hok r w Hrun) as (Hw & c1 & M & _ & _ & HLER).
  exists r, w, M. eexists. split; [exact Hrun|]. split; [exact Hw|].
  exact HLER.
Defined.

(** ** Two thresholds *)

Section Thresholds.
Context {vec : Type} (soap_S : vec → vec → Q) {order : DictOrder}.

Lemma row_matches_antitone (Pv : vec) (eps1 eps2 : Q) (U : list (key * vec)) :
  eps1 <= eps2 →
  row_matches soap_S Pv eps2 U = false → row_matches soap_S Pv eps1 U = false.
Proof.
  intros Hle H2. apply row_matches_false. apply row_matches_false in H2.
  eapply Forall_impl; [exact H2|]. simpl. intros e He.
  exact (Qle_trans _ _ _ Hle He).
Qed.

Lemma fold_insert_collapse (eps : Q) (sd : vec) (U l : list (key * vec)) :
  Forall (λ a, soap_S a.2 sd < eps) l →
  foldl (insert_if_new soap_S eps) ((seed_key, sd) :: U) l
  = (seed_key, sd) :: U.
Proof.
  induction l as [|a l IH]; intros Hall; [reflexivity|].
  apply Forall_cons in Hall as [Ha Hall]. simpl.
  unfold insert_if_new at 2. rewrite bool_decide_eq_false_2; [exact (IH Hall)|].
  intros HF. apply Forall_cons in HF as [Hge _]. simpl in Hge.
  exact (Qlt_not_le _ _ Ha Hge).
Qed.

Lemma atoms_rows (g : list (string * Sample vec)) (a : key * vec) :
  a ∈ atoms g → ∃ gs, gs ∈ g ∧ a.2 ∈ P gs.2.
Proof.
  unfold atoms. intros Hin.
  apply list_elem_of_In, in_flat_map in Hin as (gs & Hgs & Ha).
  apply list_elem_of_In in Hgs, Ha.
  apply list_elem_of_fmap in Ha as ([i Pv] & -> & Hi).
  exists gs. split; [exact Hgs|]. simpl.
  apply list_elem_of_lookup in Hi as [j Hj].
  apply enumerate_from_lookup_inv in Hj as [_ Hj].
  apply list_elem_of_lookup. eauto.
Qed.

(** C9 as the code has it, for thresholds [eps1 <= eps2]: against one
    catalogue, a row that the extraction inserts at [eps2] is inserted at
    [eps1] as well; and when every row is within [eps2] of the seed, so that
    the catalogue collapses to the seed entry, a run at a positive [eps1]
    has at least as many surviving entries as the run at [eps2]. *)
Theorem survivors_antitone_cases (c : Collection vec) (eps1 eps2 : Q)
    (sd : vec) :
  eps1 <= eps2 →
  (∀ Pv U, row_matches soap_S Pv eps2 U = false →
           row_matches soap_S Pv eps1 U = false)
  ∧ (seed c = Some sd →
     NoDup (gbs c).*1 → seed_key.1 ∉ (gbs c).*1 →
     0 < eps1 → (∀ v, soap_S v v == 0) →
     (∀ gs Pv, gs ∈ gbs c → Pv ∈ P gs.2 → soap_S Pv sd < eps2) →
     ∀ r1 w1 r2 w2,
       uniquify soap_S c eps1 = Ok (r1, w1) →
       uniquify soap_S c eps2 = Ok (r2, w2) →
       (length (r_U r2) <= length (r_U r1))%nat).
Proof.
  intros Hle. split.
  { intros Pv U. apply row_matches_antitone, Hle. }
  intros Hseed Hnd Hsent Hpos Hrefl Hnear r1 w1 r2 w2 Hu1 Hu2.
  destruct (finalized_catalogue soap_S c eps2 sd r2 w2 Hseed Hu2)
    as (used & U2 & Hcl & HU2 & _ & Hperm & _).
  assert (Hone : (length (r_U r2) <= 1)%nat).
  { rewrite Hperm, HU2.
    rewrite (extraction_extract_rule soap_S sd (gbs c) eps2 Hnd Hsent).
    unfold extract_rule. rewrite fold_insert_collapse.
    - etransitivity; [apply length_filter|]. reflexivity.
    - apply Forall_forall. intros a Ha.
      apply atoms_rows in Ha as (gs & Hgs & HPv). exact (Hnear gs _ Hgs HPv). }
  destruct (r_U r2) as [|[u v] U'] eqn:HrU; [simpl; lia|].
  assert (Hu : u ∈ Dict.keys (r_U r2)).
  { rewrite HrU. simpl. apply list_elem_of_here. }
  destruct (survivors_keys soap_S c eps2 sd r2 w2 Hseed Hu2)
    as (used' & Hcl' & _ & Hkeys).
  destruct (classification_Ok soap_S _ _ _ _ _ _ Hnd Hcl')
    as (Hk & Hused & Hres & _).
  apply (Hkeys Hk), Hused in Hu as (gs & L & Hgs & HL & Hmem).
  destruct (Hres gs Hgs) as (L' & HL' & _ & Hm & _).
  assert (L' = L) as -> by congruence.
  destruct (members L u) as [|x xs] eqn:Hx; [contradiction|].
  destruct (Hm u x) as (_ & _ & Hlt); [rewrite Hx; apply list_elem_of_here|].
  destruct (every_atom_assigned soap_S c eps1 sd r1 w1
              Hseed Hnd Hsent Hpos Hrefl Hu1) as (_ & _ & Hres1).
  destruct (Hres1 gs Hgs) as (L1 & _ & _ & Hm1 & Hc1).
  destruct (Hc1 x.2 Hlt) as [u1 Hu1'].
  destruct (Hm1 u1 _ Hu1') as [Hin _].
  simpl in Hone.
  destruct (r_U r1); [inversion Hin|]. simpl. lia.
Qed.
End Thresholds.

Lemma survivors_antitone_cases_witness :
  let c := Examples.collection (Some 0)
             [("a"%string, [1 # 4; 1 # 2]); ("b"%string, [1 # 5])] in
  ∃ r1 w1 r2 w2,
    Examples.run_uniquify c (1 # 10) = Ok (r1, w1)
    ∧ Examples.run_uniquify c (3 # 5) = Ok (r2, w2)
    ∧ (length (r_U r2) <= length (r_U r1))%nat.
Proof.
  intros c.
  eassert (Hrun1 : Examples.run_uniquify c (1 # 10) = Ok (_, _))
    by (vm_compute; reflexivity).
  eassert (Hrun2 : Examples.run_uniquify c (3 # 5) = Ok (_, _))
    by (vm_compute; reflexivity).
  eexists _, _, _, _. split; [exact Hrun1|]. split; [exact Hrun2|].
  refine (proj2 (survivors_antitone_cases Examples.dist
                   (order := insertion_order) c (1 # 10) (3 # 5) 0 _)
            eq_refl _ _ eq_refl dist_refl _ _ _ _ _ Hrun1 Hrun2).
  - discriminate.
  - refine (bool_decide_unpack _ _). vm_compute. exact I.
  - refine (bool_decide_unpack _ _). vm_compute. exact I.
  - intros gs Pv Hgs HPv. simpl in Hgs.
    repeat (apply elem_of_cons in Hgs as [->|Hgs]);
      [| |inversion Hgs]; simpl in HPv;
      repeat (apply elem_of_cons in HPv as [->|HPv]);
      try (inversion HPv; fail); reflexivity.
Defined.

(** ** The pipeline on concrete collections *)

(** C1: at threshold 3/2 the only catalogue entry is at dissimilarity 5/4 of
    the row, so the minimum is below the threshold; the row is not assigned,
    [_classify] leaves with the [KeyError] of [result[None]]. *)
Theorem classify_nearest_above_one :
  Examples.dist (5 # 4) 0 < 3 # 2
  ∧ _classify Examples.dist [5 # 4] "a" [(seed_key, 0)] (3 # 2)
      [(seed_key, false)] [] = Raise KeyError.
Proof. split; reflexivity. Qed.

(** C7: at threshold 11/10 the only catalogue entry is at dissimilarity 5/4
    of the first row, at least the threshold; no warning is recorded and the
    second row is not reached, [_classify] leaves with the [KeyError] of
    [result[None]]. *)
Theorem classify_unmatched_above_one :
  11 # 10 <= Examples.dist (5 # 4) 0
  ∧ _classify Examples.dist [5 # 4; 0] "a" [(seed_key, 0)] (11 # 10)
      [(seed_key, false)] [] = Raise KeyError.
Proof. split; [discriminate | reflexivity]. Qed.

(** C3, as stated: the seed and the rows 0 and 1/2 at threshold 1/10 give a
    finalized catalogue that starts with the entry at dissimilarity 1/2 of
    the seed and ends with the seed entry, at dissimilarity 0. *)
Lemma finalized_not_most_similar_first :
  ∃ r w,
    Examples.run_uniquify
      (Examples.collection (Some 0) [("a"%string, [0; 1 # 2])]) (1 # 10)
      = Ok (r, w)
    ∧ Dict.keys (r_U r) = [("a"%string, 1%nat); seed_key]
    ∧ ¬ seed_similar_first Examples.dist 0 (r_U r).
Proof.
  eexists _, _. split; [reflexivity|]. split; [reflexivity|].
  intros Hs. apply StronglySorted_inv in Hs as [_ Hs].
  apply Forall_inv in Hs. revert Hs. vm_compute. intros Hs. apply Hs.
  reflexivity.
Qed.

(** C6, as stated: with the seed 0 and a single row 1/2 at threshold 1/10
    the row founds its own entry and is classified to it; the seed entry is
    never used and is pruned.  With no sample at all the finalized catalogue
    is empty. *)
Lemma seed_pruned_when_unused :
  (∃ r w,
     Examples.run_uniquify
       (Examples.collection (Some 0) [("a"%string, [1 # 2])]) (1 # 10)
       = Ok (r, w)
     ∧ seed_key ∉ Dict.keys (r_U r))
  ∧ (∃ r w,
       Examples.run_uniquify (Examples.collection (Some 0) []) (1 # 10)
         = Ok (r, w)
       ∧ r_U r = []).
Proof.
  split; eexists _, _; (split; [reflexivity|]); [|reflexivity].
  intros Hin. apply list_elem_of_In in Hin. vm_compute in Hin.
  destruct Hin as [Hin|[]]. discriminate.
Qed.

(** C9, as stated: the seed 0 and the rows 7/20, 1/2, 11/50 on a line.  At
    threshold 1/5 the first row founds an entry that absorbs the other two
    and the seed is pruned: one survivor.  At threshold 2/5 the first row
    is absorbed by the seed, the second founds an entry, and both are used:
    two survivors. *)
Lemma survivors_not_antitone :
  let c := Examples.collection (Some 0)
             [("a"%string, [7 # 20; 1 # 2; 11 # 50])] in
  ∃ r1 w1 r2 w2,
    0 < 1 # 5 ∧ 1 # 5 <= 2 # 5
    ∧ Examples.run_uniquify c (1 # 5) = Ok (r1, w1)
    ∧ Examples.run_uniquify c (2 # 5) = Ok (r2, w2)
    ∧ (length (r_U r1) < length (r_U r2))%nat.
Proof.
  eexists _, _, _, _.
  split; [reflexivity|]. split; [discriminate|].
  split; [reflexivity|]. split; [reflexivity|].
  vm_compute. lia.
Qed.

(** * Further properties of the two passes *)

(** ** Classification at thresholds up to 1 and above 1 *)

Lemma foldM_raises {A B} (f : B → A → res B) (e0 : exn) (l : list A) (b : B) :
  (∀ b x e, f b x = Raise e → e = e0) →
  Exists (λ x, ∀ b, f b x = Raise e0) l →
  foldM f b l = Raise e0.
Proof.
  intros Honly Hex. revert b.
  induction Hex as [x l Hx|x l _ IH]; intros b; simpl.
  - rewrite Hx. reflexivity.
  - destruct (f b x) as [b'|e] eqn:Hb; [apply IH|].
    rewrite (Honly _ _ _ Hb). reflexivity.
Qed.

Section ClassifyThresholds.
Context {vec : Type} (soap_S : vec → vec → Q).

Lemma classify_row_KeyError (PID : string) (uni : list (key * vec)) (eps : Q)
    (st : list (key * list key) * list (key * bool) * list key)
    (row : nat * vec) (e : exn) :
  classify_row soap_S PID uni eps st row = Raise e → e = KeyError.
Proof.
  destruct st as [[result used] warned]. destruct row as [i Pv].
  unfold classify_row.
  destruct (foldl _ _ uni) as [[result' K0] U0].
  destruct (decide (K0 < eps)); [|discriminate].
  destruct U0 as [u|]; [|intros [= <-]; reflexivity].
  destruct (Dict.get u result'); [discriminate|].
  intros [= <-]. reflexivity.
Qed.

Lemma classify_row_near (PID : string) (uni : list (key * vec)) (eps : Q)
    (result : list (key * list key)) (used : list (key * bool))
    (warned : list key) (i : nat) (Pv : vec) :
  1 < eps → Exists (λ e, soap_S Pv e.2 < 1) uni →
  ∃ result' used',
    classify_row soap_S PID uni eps (result, used, warned) (i, Pv)
    = Ok (result', used', warned).
Proof.
  intros Heps Hnear. unfold classify_row.
  pose proof (scan_split soap_S Pv eps uni result (1, None)) as Hscan.
  simpl in Hscan. rewrite Hscan. clear Hscan.
  pose proof (nearest_spec soap_S Pv eps uni) as Hn. unfold nearest in Hn.
  destruct (nearest_from soap_S Pv eps (1, None) uni) as [K0 [u|]]; simpl.
  - destruct Hn as (l1 & uP & l2 & Huni & -> & Hlt & _).
    rewrite decide_True by exact Hlt.
    assert (Hu : u ∈ Dict.keys (init_keys uni result)).
    { apply init_keys_covers. rewrite Huni. unfold Dict.keys.
      rewrite fmap_app, elem_of_app. right. apply list_elem_of_here. }
    destruct (get_is_Some u _ Hu) as [l Hl]. rewrite Hl. eauto.
  - exfalso. destruct Hn as [_ Hall].
    apply Exists_exists in Hnear as (e & He & Hlt).
    pose proof (proj1 (Forall_forall _ _) Hall e He) as Hge. simpl in Hge.
    apply (Qlt_not_le _ _ Hlt), Hge. exact (Qlt_trans _ _ _ Hlt Heps).
Qed.

(** X1: with a threshold of at most 1 a row always gets through
    [classify_row]: when some entry is below the threshold the row is
    appended to the list of the first entry at the least dissimilarity
    (strictly nearer than every entry before it, at least as near as every
    entry after it) and that entry is flagged; otherwise every entry is at
    the threshold or beyond, nothing is assigned and the row is warned
    about. *)
Theorem classify_row_below_one (PID : string) (uni : list (key * vec))
    (eps : Q) (result : list (key * list key)) (used : list (key * bool))
    (warned : list key) (i : nat) (Pv : vec) :
  eps <= 1 →
  ∃ result' used' warned',
    classify_row soap_S PID uni eps (result, used, warned) (i, Pv)
      = Ok (result', used', warned')
    ∧ ((∃ l1 u uP l2 l,
          uni = l1 ++ (u, uP) :: l2
          ∧ soap_S Pv uP < eps
          ∧ Forall (λ e, soap_S Pv uP < soap_S Pv e.2) l1
          ∧ Forall (λ e, soap_S Pv uP <= soap_S Pv e.2) l2
          ∧ Dict.get u (init_keys uni result) = Some l
          ∧ result' = Dict.set u (l ++ [(PID, i)]) (init_keys uni result)
          ∧ used' = Dict.set u true used ∧ warned' = warned)
       ∨ (Forall (λ e, eps <= soap_S Pv e.2) uni
          ∧ result' = init_keys uni result
          ∧ used' = used ∧ warned' = warned ++ [(PID, i)])).
Proof.
  intros Heps.
  destruct (classify_row_total soap_S PID uni eps (result, used, warned)
              (i, Pv) Heps) as [[[result' used'] warned'] Hrow].
  exists result', used', warned'. split; [exact Hrow|].
  apply classify_row_Ok in Hrow
    as [(l1 & u & uP & l2 & l & Hu & Hlt & Hl1 & Hl2 & Hl & Hr & Hus & Hw)
       |Hwarn]; [left|right; exact Hwarn].
  exists l1, u, uP, l2, l. split; [exact Hu|]. split; [exact Hlt|].
  split; [|split; [|auto]].
  - eapply Forall_impl; [exact Hl1|]. simpl. intros e He.
    destruct (Qlt_le_dec (soap_S Pv e.2) eps) as [Hlte|Hge]; [exact (He Hlte)|].
    exact (Qlt_le_trans _ _ _ Hlt Hge).
  - eapply Forall_impl; [exact Hl2|]. simpl. intros e He.
    destruct (Qlt_le_dec (soap_S Pv e.2) eps) as [Hlte|Hge]; [exact (He Hlte)|].
    apply Qlt_le_weak. exact (Qlt_le_trans _ _ _ Hlt Hge).
Qed.

(** X2: with a threshold above 1, [_classify] returns exactly when every
    row has an entry at a dissimilarity below 1, and then it warns about
    nothing; as soon as one row has no such entry it raises [KeyError]
    (from [result[None]]), whether or not that row has an entry below the
    threshold. *)
Theorem classify_above_one (NP : list vec) (PID : string)
    (uni : list (key * vec)) (eps : Q) (used : list (key * bool))
    (warned : list key) :
  1 < eps →
  (Forall (λ Pv, Exists (λ e, soap_S Pv e.2 < 1) uni) NP →
   ∃ LAEs used',
     _classify soap_S NP PID uni eps used warned = Ok (LAEs, used', warned))
  ∧ (Exists (λ Pv, Forall (λ e, 1 <= soap_S Pv e.2) uni) NP →
     _classify soap_S NP PID uni eps used warned = Raise KeyError).
Proof.
  intros Heps. unfold _classify. split.
  - intros Hnear.
    destruct (foldM_total
      (λ _ (st : list (key * list key) * list (key * bool) * list key),
         st.2 = warned)
      (classify_row soap_S PID uni eps) (enumerate NP) ([], used, warned)
      eq_refl) as ([[L us] wn] & Hrun & Hw).
    + intros pre [i Pv] post [[result us] wn] Hsplit Hwn. simpl in Hwn.
      subst wn. apply enumerate_split in Hsplit as [_ HPv].
      assert (Hex : Exists (λ e, soap_S Pv e.2 < 1) uni).
      { apply (proj1 (Forall_forall _ _) Hnear).
        apply list_elem_of_lookup. eauto. }
      destruct (classify_row_near PID uni eps result us warned i Pv Heps Hex)
        as (result' & us' & Hrow).
      eexists. split; [exact Hrow|reflexivity].
    + simpl in Hw. subst wn. eauto.
  - intros Hfar. apply foldM_raises.
    + intros b x e. apply classify_row_KeyError.
    + apply Exists_exists in Hfar as (Pv & HPv & Hall).
      apply list_elem_of_lookup in HPv as [i Hi].
      apply Exists_exists. exists (i, Pv). split.
      * apply list_elem_of_lookup. exists i. unfold enumerate.
        rewrite (enumerate_from_lookup 0 i _ _ Hi). reflexivity.
      * intros b. apply classify_row_raises; assumption.
Qed.
End ClassifyThresholds.

Lemma classify_row_below_one_witness :
  ∃ st',
    classify_row Examples.dist "a" [(seed_key, 0); (("a"%string, 1%nat), 1 # 2)]
      (1 # 10) ([], [], []) (2%nat, 11 # 20) = Ok st'.
Proof.
  destruct (classify_row_below_one Examples.dist "a"
              [(seed_key, 0); (("a"%string, 1%nat), 1 # 2)] (1 # 10)
              [] [] [] 2 (11 # 20) ltac:(discriminate))
    as (result' & used' & warned' & Hrow & _).
  eexists. exact Hrow.
Defined.

Lemma classify_above_one_witness :
  _classify Examples.dist [1 # 4; 5 # 4] "a" [(seed_key, 0)] (3 # 2)
    [(seed_key, false)] [] = Raise KeyError.
Proof.
  apply (classify_above_one Examples.dist [1 # 4; 5 # 4] "a" [(seed_key, 0)]
           (3 # 2) [(seed_key, false)] [] eq_refl).
  apply Exists_cons_tl, Exists_cons_hd. constructor; [|constructor].
  discriminate.
Defined.

(** ** The shape of the per-sample results *)

Lemma StronglySorted_snoc {A} (R : relation A) (l : list A) (x : A) :
  StronglySorted R l → Forall (λ y, R y x) l → StronglySorted R (l ++ [x]).
Proof.
  induction 1 as [|y l Hl IH Hy]; intros Hall; simpl.
  - repeat constructor.
  - apply Forall_cons in Hall as [Hyx Hall]. constructor; [exact (IH Hall)|].
    apply Forall_app. split; [exact Hy|]. constructor; [exact Hyx|constructor].
Qed.

Section InitKeysShape.
Context {vec : Type}.
Implicit Types (uni : list (key * vec)) (result : list (key * list key)).

Lemma init_keys_heads uni result :
  Forall (λ e, head e.2 = Some e.1) result →
  Forall (λ e, head e.2 = Some e.1) (init_keys uni result).
Proof.
  revert result. induction uni as [|e uni IH]; intros result Hh; simpl.
  - exact Hh.
  - apply IH. destruct (Dict.contains e.1 result); [exact Hh|].
    apply Forall_set; [exact Hh|reflexivity].
Qed.

Lemma init_keys_id uni result :
  (∀ u, u ∈ Dict.keys uni → u ∈ Dict.keys result) →
  init_keys uni result = result.
Proof.
  induction uni as [|e uni IH]; intros Hsub; [reflexivity|].
  change (init_keys (e :: uni) result)
    with (init_keys uni (if Dict.contains e.1 result then result
                         else Dict.set e.1 [e.1] result)).
  assert (Hc : Dict.contains e.1 result = true).
  { apply contains_spec, Hsub. apply list_elem_of_here. }
  rewrite Hc. apply IH. intros u Hu. apply Hsub, list_elem_of_further, Hu.
Qed.

Lemma init_keys_fresh uni result :
  NoDup (Dict.keys result ++ Dict.keys uni) →
  init_keys uni result = result ++ ((λ e, (e.1, [e.1])) <$> uni).
Proof.
  revert result. induction uni as [|e uni IH]; intros result Hnd.
  - simpl. rewrite app_nil_r. reflexivity.
  - change (init_keys (e :: uni) result)
      with (init_keys uni (if Dict.contains e.1 result then result
                           else Dict.set e.1 [e.1] result)).
    assert (He : e.1 ∉ Dict.keys result).
    { apply NoDup_app in Hnd as (_ & Hdis & _). intros Hin.
      apply (Hdis _ Hin). apply list_elem_of_here. }
    assert (Hc : Dict.contains e.1 result = false).
    { destruct (Dict.contains e.1 result) eqn:Hc; [|reflexivity].
      apply contains_spec in Hc. contradiction. }
    rewrite Hc, set_fresh by exact He. rewrite IH.
    + rewrite <- app_assoc. reflexivity.
    + unfold Dict.keys in *. rewrite fmap_app, <- app_assoc. exact Hnd.
Qed.

Lemma init_keys_keys_eq uni result :
  NoDup (Dict.keys uni) →
  result = [] ∨ Dict.keys result = Dict.keys uni →
  Dict.keys (init_keys uni result) = Dict.keys uni.
Proof.
  intros Hnd [->|Hk].
  - rewrite init_keys_fresh by exact Hnd. simpl. unfold Dict.keys.
    rewrite <- list_fmap_compose. reflexivity.
  - rewrite init_keys_id; [exact Hk|]. intros u Hu. rewrite Hk. exact Hu.
Qed.
End InitKeysShape.

Section ClassifyShape.
Context {vec : Type} (soap_S : vec → vec → Q).

(** The rows of a sample that have no entry below the threshold, under
    their identifiers. *)
Lemma filter_far_snoc (uni : list (key * vec)) (eps : Q)
    (pre : list (nat * vec)) (x : nat * vec) :
  filter (λ iv : nat * vec, Forall (λ e, eps <= soap_S iv.2 e.2) uni)
         (pre ++ [x])
  = filter (λ iv : nat * vec, Forall (λ e, eps <= soap_S iv.2 e.2) uni) pre
    ++ (if decide (Forall (λ e, eps <= soap_S x.2 e.2) uni) then [x] else []).
Proof.
  rewrite filter_app, filter_cons, filter_nil.
  destruct (decide _); reflexivity.
Qed.

(** What [_classify] has built when it is through the rows of [NP]. *)
Lemma classify_shape (NP : list vec) (PID : string) (uni : list (key * vec))
    (eps : Q) (used0 used : list (key * bool)) (warned0 warned : list key)
    (LAEs : list (key * list key)) :
  NoDup (Dict.keys uni) →
  _classify soap_S NP PID uni eps used0 warned0 = Ok (LAEs, used, warned) →
  Forall (λ e, head e.2 = Some e.1) LAEs
  ∧ (NP = [] → LAEs = [])
  ∧ (NP ≠ [] → Dict.keys LAEs = Dict.keys uni)
  ∧ (∀ u, StronglySorted (λ a b : key, (a.2 < b.2)%nat) (members LAEs u))
  ∧ (∀ u x, x ∈ members LAEs u → x.1 = PID ∧ (x.2 < length NP)%nat)
  ∧ (∀ u u' x, x ∈ members LAEs u → x ∈ members LAEs u' → u = u')
  ∧ warned
    = warned0
      ++ ((λ iv : nat * vec, (PID, iv.1))
            <$> filter (λ iv : nat * vec,
                          Forall (λ e, eps <= soap_S iv.2 e.2) uni)
                       (enumerate NP)).
Proof.
  intros Hnd Hrun. unfold _classify in Hrun.
  pose (I := λ (pre : list (nat * vec))
               (st : list (key * list key) * list (key * bool) * list key),
    let '(result, used, warned) := st in
    Forall (λ e, head e.2 = Some e.1) result
    ∧ (result = [] ∨ Dict.keys result = Dict.keys uni)
    ∧ (pre = [] → result = [])
    ∧ (pre ≠ [] → Dict.keys result = Dict.keys uni)
    ∧ (∀ u, StronglySorted (λ a b : key, (a.2 < b.2)%nat) (members result u))
    ∧ (∀ u x, x ∈ members result u → x.1 = PID ∧ (x.2 < length pre)%nat)
    ∧ (∀ u u' x, x ∈ members result u → x ∈ members result u' → u = u')
    ∧ warned
      = warned0
        ++ ((λ iv : nat * vec, (PID, iv.1))
              <$> filter (λ iv : nat * vec,
                            Forall (λ e, eps <= soap_S iv.2 e.2) uni) pre)).
  assert (Hfin : I (enumerate NP) (LAEs, used, warned)).
  { apply (foldM_inv I (classify_row soap_S PID uni eps) (enumerate NP)
             ([], used0, warned0)); [| |exact Hrun].
    - simpl. split; [constructor|]. split; [auto|]. split; [auto|].
      split; [intros H; contradiction|].
      split; [intros u; constructor|].
      split; [intros u x Hx; inversion Hx|].
      split; [intros u u' x Hx; inversion Hx|].
      rewrite app_nil_r. reflexivity.
    - intros pre [i Pv] post [[result us] wn] [[result' us'] wn'] Hsplit
        (Hh & Hk & _ & _ & Hs & Hm & Hd & Hw) Hrow.
      apply enumerate_split in Hsplit as [Hi HPv].
      assert (Hne : Forall (λ e : key * list key, e.2 ≠ []) result).
      { eapply Forall_impl; [exact Hh|]. intros [k l] He Hnil.
        simpl in He, Hnil. subst l. discriminate. }
      pose proof (init_keys_heads uni result Hh) as Hh0.
      pose proof (init_keys_keys_eq uni result Hnd Hk) as Hk0.
      assert (Hpre : pre ++ [(i, Pv)] ≠ []) by (destruct pre; discriminate).
      apply classify_row_Ok in Hrow
        as [(l1 & u & uP & l2 & l & Hu & Hlt & _ & _ & Hl & -> & -> & ->)
           |(Hfar & -> & -> & ->)]; simpl.
      + assert (Hmem : ∀ u',
          members (Dict.set u (l ++ [(PID, i)]) (init_keys uni result)) u'
          = if decide (u' = u) then members result u ++ [(PID, i)]
            else members result u').
        { apply assigned_members; assumption. }
        assert (Hin : u ∈ Dict.keys (init_keys uni result)).
        { apply get_Some_elem in Hl. apply list_elem_of_fmap.
          exists (u, l). auto. }
        split.
        { apply Forall_set; [exact Hh0|]. simpl.
          apply get_Some_elem in Hl.
          pose proof (proj1 (Forall_forall _ _) Hh0 _ Hl) as Hhd.
          simpl in Hhd. destruct l; [discriminate|exact Hhd]. }
        rewrite keys_set_present by exact Hin.
        split; [right; exact Hk0|].
        split; [intros H; contradiction|].
        split; [intros _; exact Hk0|].
        split.
        { intros u'. rewrite Hmem. destruct (decide (u' = u)); [|apply Hs].
          apply StronglySorted_snoc; [apply Hs|].
          apply Forall_forall. intros y Hy. simpl.
          destruct (Hm u y Hy) as [_ Hlen]. lia. }
        split.
        { intros u' x. rewrite Hmem, length_app. simpl.
          destruct (decide (u' = u)) as [->|].
          - rewrite elem_of_app, list_elem_of_singleton.
            intros [Hx| ->]; [|simpl; split; [reflexivity|lia]].
            destruct (Hm u x Hx). split; [assumption|lia].
          - intros Hx. destruct (Hm u' x Hx). split; [assumption|lia]. }
        split.
        { assert (Hnew : ∀ v, (PID, i) ∉ members result v).
          { intros v Hin'. destruct (Hm v _ Hin') as [_ Hlen].
            simpl in Hlen. lia. }
          intros u1 u2 x. rewrite !Hmem.
          destruct (decide (u1 = u)) as [->|], (decide (u2 = u)) as [->|];
            [reflexivity| | |apply Hd].
          - rewrite elem_of_app, list_elem_of_singleton.
            intros [Hx| ->] Hx'; [exact (Hd _ _ _ Hx Hx')|].
            exfalso. exact (Hnew _ Hx').
          - rewrite elem_of_app, list_elem_of_singleton.
            intros Hx [Hx'| ->]; [exact (Hd _ _ _ Hx Hx')|].
            exfalso. exact (Hnew _ Hx). }
        rewrite filter_far_snoc. simpl. rewrite decide_False.
        * rewrite app_nil_r. exact Hw.
        * intros Hall. rewrite Hu in Hall.
          apply Forall_app in Hall as [_ Hall].
          apply Forall_cons in Hall as [Hge _]. simpl in Hge.
          exact (Qlt_not_le _ _ Hlt Hge).
      + split; [exact Hh0|]. split; [right; exact Hk0|].
        split; [intros H; contradiction|].
        split; [intros _; exact Hk0|].
        split; [intros u; rewrite init_keys_members; apply Hs|].
        split.
        { intros u x. rewrite init_keys_members, length_app. intros Hx.
          destruct (Hm u x Hx). split; [assumption|simpl; lia]. }
        split.
        { intros u u' x. rewrite !init_keys_members. apply Hd. }
        rewrite filter_far_snoc. simpl. rewrite decide_True by exact Hfar.
        rewrite fmap_app, app_assoc, Hw. reflexivity. }
  destruct Hfin as (Hh & _ & Hnil & Hkeys & Hs & Hm & Hd & Hw).
  split; [exact Hh|]. split.
  { intros ->. apply Hnil. reflexivity. }
  split.
  { intros HNP. apply Hkeys. destruct NP; [contradiction|discriminate]. }
  split; [exact Hs|]. split; [|split; [exact Hd|exact Hw]].
  intros u x Hx. rewrite <- (enumerate_length NP). exact (Hm u x Hx).
Qed.
End ClassifyShape.

Section ClassificationShape.
Context {vec : Type} (soap_S : vec → vec → Q).

(** The warnings of the second loop of [uniquify]. *)
Lemma classification_warned (U1 : list (key * vec)) (eps : Q)
    (g : list (string * Sample vec))
    (GBs : gmap string (list (key * list key))) (used : list (key * bool))
    (warned : list key) :
  NoDup (Dict.keys U1) →
  classification soap_S U1 eps g = Ok (GBs, used, warned) →
  warned = flat_map (unmatched soap_S U1 eps) g.
Proof.
  intros HndU Hrun. unfold classification in Hrun.
  pose (I := λ (pre : list (string * Sample vec))
               (st : gmap string (list (key * list key))
                     * list (key * bool) * list key),
    st.2 = flat_map (unmatched soap_S U1 eps) pre).
  cut (I g (GBs, used, warned)); [intros Hfin; exact Hfin|].
  apply (foldM_inv I (classify_sample soap_S U1 eps) g (∅, unused U1, []));
    [reflexivity| |exact Hrun].
  intros pre gs post [[GBs0 used0] warned0] [[GBs1 used1] warned1] _ HI Hstep.
  unfold I in *. simpl in *. unfold classify_sample in Hstep.
  destruct (_classify soap_S (P gs.2) gs.1 U1 eps used0 warned0)
    as [[[LAEs us] wn]|] eqn:Hcl; [|discriminate].
  cbn in Hstep. injection Hstep as <- <- <-.
  destruct (classify_shape soap_S _ _ _ _ _ _ _ _ _ HndU Hcl)
    as (_ & _ & _ & _ & _ & _ & ->).
  rewrite flat_map_app. simpl. rewrite app_nil_r, HI. reflexivity.
Qed.

(** The per-sample results of the second loop of [uniquify]: the keys are
    the sample identifiers, and the value of a sample is what [_classify]
    returned for it. *)
Lemma classification_runs (U1 : list (key * vec)) (eps : Q)
    (g : list (string * Sample vec))
    (GBs : gmap string (list (key * list key))) (used : list (key * bool))
    (warned : list key) :
  NoDup g.*1 →
  classification soap_S U1 eps g = Ok (GBs, used, warned) →
  (∀ k, is_Some (GBs !! k) ↔ k ∈ g.*1)
  ∧ ∀ gs, gs ∈ g →
      ∃ LAEs used0 warned0 used1 warned1,
        GBs !! gs.1 = Some LAEs
        ∧ _classify soap_S (P gs.2) gs.1 U1 eps used0 warned0
          = Ok (LAEs, used1, warned1).
Proof.
  intros Hnd Hrun. unfold classification in Hrun.
  pose (I := λ (pre : list (string * Sample vec))
               (st : gmap string (list (key * list key))
                     * list (key * bool) * list key),
    (∀ k, is_Some (st.1.1 !! k) ↔ k ∈ pre.*1)
    ∧ ∀ gs, gs ∈ pre →
        ∃ LAEs used0 warned0 used1 warned1,
          st.1.1 !! gs.1 = Some LAEs
          ∧ _classify soap_S (P gs.2) gs.1 U1 eps used0 warned0
            = Ok (LAEs, used1, warned1)).
  cut (I g (GBs, used, warned)); [intros Hfin; exact Hfin|].
  apply (foldM_inv I (classify_sample soap_S U1 eps) g (∅, unused U1, []));
    [| |exact Hrun].
  - split.
    + intros k. simpl. rewrite lookup_empty. split.
      * intros [x Hx]. discriminate.
      * intros Hin. inversion Hin.
    + intros gs Hin. inversion Hin.
  - intros pre gs post [[GBs0 used0] warned0] [[GBs1 used1] warned1]
      Hsplit [Hdom Hres] Hstep.
    unfold I in *. simpl in *. unfold classify_sample in Hstep.
    destruct (_classify soap_S (P gs.2) gs.1 U1 eps used0 warned0)
      as [[[LAEs us] wn]|] eqn:Hcl; [|discriminate].
    cbn in Hstep. injection Hstep as <- <- <-.
    assert (Hfresh : ∀ gs', gs' ∈ pre → gs'.1 ≠ gs.1).
    { intros gs' Hin Heq. rewrite Hsplit, fmap_app in Hnd.
      apply NoDup_app in Hnd as (_ & Hdis & _).
      apply (Hdis gs'.1).
      - apply list_elem_of_fmap. eauto.
      - rewrite Heq. simpl. apply list_elem_of_here. }
    split.
    + intros k. rewrite fmap_app, elem_of_app. simpl.
      rewrite list_elem_of_singleton.
      destruct (decide (k = gs.1)) as [->|Hne].
      * rewrite lookup_insert_eq. split; [auto|eauto].
      * rewrite lookup_insert_ne by congruence. rewrite Hdom. tauto.
    + intros gs' Hin. apply elem_of_app in Hin as [Hin|Hin].
      * destruct (Hres gs' Hin) as (L & u0 & w0 & u1 & w1 & HL & Hc).
        exists L, u0, w0, u1, w1.
        rewrite lookup_insert_ne by (apply not_eq_sym, Hfresh, Hin). auto.
      * apply list_elem_of_singleton in Hin as ->.
        exists LAEs, used0, warned0, us, wn.
        rewrite lookup_insert_eq. auto.
Qed.
End ClassificationShape.

Section ResultShape.
Context {vec : Type} (soap_S : vec → vec → Q) {order : DictOrder}.

(** X3: the warnings of a run of [uniquify] that returns are exactly the
    atoms whose dissimilarity to every entry of the extracted catalogue is
    at least the threshold, once each, in collection order and, within a
    sample, in row order. *)
Theorem uniquify_warnings (c : Collection vec) (eps : Q) (sd : vec)
    (r : UResult vec) (w : list key) :
  seed c = Some sd → uniquify soap_S c eps = Ok (r, w) →
  w = flat_map (unmatched soap_S (extraction soap_S sd (gbs c) eps) eps)
               (gbs c).
Proof.
  intros Hseed Hu.
  destruct (uniquify_Ok soap_S c eps sd r w Hseed Hu) as (used & U2 & Hcl & _).
  apply (classification_warned soap_S _ _ _ _ _ _
           (extraction_NoDup soap_S sd (gbs c) eps) Hcl).
Qed.

(** X4: in the result of [uniquify] on a collection with distinct sample
    identifiers, ["GBs"] has exactly the sample identifiers as keys; the
    dictionary of a sample without rows is empty; the dictionary of any
    other sample has the identifiers of the whole extracted catalogue as
    keys (inserted in catalogue order), those of the entries that were
    pruned afterwards included; and every list starts with the identifier
    it is stored under. *)
Theorem per_sample_lists (c : Collection vec) (eps : Q) (sd : vec)
    (r : UResult vec) (w : list key) :
  seed c = Some sd → NoDup (gbs c).*1 →
  uniquify soap_S c eps = Ok (r, w) →
  (∀ k, is_Some (r_GBs r !! k) ↔ k ∈ (gbs c).*1)
  ∧ ∀ gs, gs ∈ gbs c →
      ∃ LAEs, r_GBs r !! gs.1 = Some LAEs
        ∧ Forall (λ e, head e.2 = Some e.1) LAEs
        ∧ (P gs.2 = [] → LAEs = [])
        ∧ (P gs.2 ≠ [] →
           Dict.keys LAEs = Dict.keys (extraction soap_S sd (gbs c) eps)).
Proof.
  intros Hseed Hnd Hu.
  destruct (uniquify_Ok soap_S c eps sd r w Hseed Hu) as (used & U2 & Hcl & _).
  destruct (classification_runs soap_S _ _ _ _ _ _ Hnd Hcl) as [Hdom Hres].
  split; [exact Hdom|]. intros gs Hgs.
  destruct (Hres gs Hgs) as (L & u0 & w0 & u1 & w1 & HL & Hrun).
  exists L. split; [exact HL|].
  destruct (classify_shape soap_S _ _ _ _ _ _ _ _ _
              (extraction_NoDup soap_S sd (gbs c) eps) Hrun)
    as (Hh & Hnil & Hkeys & _).
  auto.
Qed.

(** X5: in the result of [uniquify] on a collection with distinct sample
    identifiers, the atoms listed after the head of a sample's lists are
    atoms of that sample; within a list they come in increasing row order,
    so none is repeated; and no atom is in the lists of two entries. *)
Theorem per_sample_members (c : Collection vec) (eps : Q) (sd : vec)
    (r : UResult vec) (w : list key) :
  seed c = Some sd → NoDup (gbs c).*1 →
  uniquify soap_S c eps = Ok (r, w) →
  ∀ gs, gs ∈ gbs c →
    ∃ LAEs, r_GBs r !! gs.1 = Some LAEs
      ∧ (∀ u x, x ∈ members LAEs u →
                x.1 = gs.1 ∧ (x.2 < length (P gs.2))%nat)
      ∧ (∀ u, StronglySorted (λ a b : key, (a.2 < b.2)%nat) (members LAEs u))
      ∧ (∀ u u' x, x ∈ members LAEs u → x ∈ members LAEs u' → u = u').
Proof.
  intros Hseed Hnd Hu gs Hgs.
  destruct (uniquify_Ok soap_S c eps sd r w Hseed Hu) as (used & U2 & Hcl & _).
  destruct (classification_runs soap_S _ _ _ _ _ _ Hnd Hcl) as [_ Hres].
  destruct (Hres gs Hgs) as (L & u0 & w0 & u1 & w1 & HL & Hrun).
  exists L. split; [exact HL|].
  destruct (classify_shape soap_S _ _ _ _ _ _ _ _ _
              (extraction_NoDup soap_S sd (gbs c) eps) Hrun)
    as (_ & _ & _ & Hs & Hm & Hd & _).
  auto.
Qed.
End ResultShape.

Lemma uniquify_warnings_witness :
  let c := Examples.collection (Some 0) [("a"%string, [0; 1 # 2])] in
  ∃ r w,
    Examples.run_uniquify c 0 = Ok (r, w)
    ∧ w = flat_map (unmatched Examples.dist
                      (extraction Examples.dist 0 (gbs c) 0) 0) (gbs c).
Proof.
  intros c.
  eassert (Hrun : Examples.run_uniquify c 0 = Ok (_, _))
    by (vm_compute; reflexivity).
  eexists _, _. split; [exact Hrun|].
  exact (uniquify_warnings Examples.dist (order := insertion_order)
           c 0 0 _ _ eq_refl Hrun).
Defined.

Lemma per_sample_lists_witness :
  let c := Examples.collection (Some 0)
             [("a"%string, [0; 1 # 2]); ("b"%string, [])] in
  ∃ r w,
    Examples.run_uniquify c (1 # 10) = Ok (r, w)
    ∧ ∀ k, is_Some (r_GBs r !! k) ↔ k ∈ (gbs c).*1.
Proof.
  intros c.
  eassert (Hrun : Examples.run_uniquify c (1 # 10) = Ok (_, _))
    by (vm_compute; reflexivity).
  assert (Hnd : NoDup (gbs c).*1)
    by (refine (bool_decide_unpack _ _); vm_compute; exact I).
  eexists _, _. split; [exact Hrun|].
  exact (proj1 (per_sample_lists Examples.dist (order := insertion_order)
                  c (1 # 10) 0 _ _ eq_refl Hnd Hrun)).
Defined.

Lemma per_sample_members_witness :
  let c := Examples.collection (Some 0)
             [("a"%string, [0; 1 # 2; 0]); ("b"%string, [1 # 2])] in
  ∃ r w,
    Examples.run_uniquify c (1 # 10) = Ok (r, w)
    ∧ ∃ LAEs, r_GBs r !! "a"%string = Some LAEs
        ∧ ∀ u u' x, x ∈ members LAEs u → x ∈ members LAEs u' → u = u'.
Proof.
  intros c.
  eassert (Hrun : Examples.run_uniquify c (1 # 10) = Ok (_, _))
    by (vm_compute; reflexivity).
  assert (Hnd : NoDup (gbs c).*1)
    by (refine (bool_decide_unpack _ _); vm_compute; exact I).
  eexists _, _. split; [exact Hrun|].
  destruct (per_sample_members Examples.dist (order := insertion_order)
              c (1 # 10) 0 _ _ eq_refl Hnd Hrun
              ("a"%string, Examples.boundary [0; 1 # 2; 0]))
    as (L & HL & _ & _ & Hd).
  { apply list_elem_of_here. }
  exists L. split; [exact HL|exact Hd].
Defined.

(** ** Separation, coverage and origin of the entries *)

Lemma StronglySorted_either {A} (R : relation A) (l : list A) (a b : A) :
  StronglySorted R l → a ∈ l → b ∈ l → a = b ∨ R a b ∨ R b a.
Proof.
  induction 1 as [|y l Hl IH Hy]; intros Ha Hb; [inversion Ha|].
  apply elem_of_cons in Ha as [->|Ha], Hb as [->|Hb].
  - auto.
  - right. left. exact (proj1 (Forall_forall _ _) Hy _ Hb).
  - right. right. exact (proj1 (Forall_forall _ _) Hy _ Ha).
  - auto.
Qed.

Section Separation.
Context {vec : Type} (soap_S : vec → vec → Q) {order : DictOrder}.

Lemma fold_insert_separated (eps : Q) (U l : list (key * vec)) :
  StronglySorted (λ a b : key * vec, eps <= soap_S b.2 a.2) U →
  StronglySorted (λ a b : key * vec, eps <= soap_S b.2 a.2)
                 (foldl (insert_if_new soap_S eps) U l).
Proof.
  revert U. induction l as [|a l IH]; intros U HU; simpl; [exact HU|].
  apply IH. unfold insert_if_new.
  destruct (bool_decide _) eqn:Hd; [|exact HU].
  apply bool_decide_eq_true in Hd.
  apply StronglySorted_snoc; assumption.
Qed.

Lemma fold_insert_origin (eps : Q) (U l : list (key * vec)) (e : key * vec) :
  e ∈ foldl (insert_if_new soap_S eps) U l → e ∈ U ∨ e ∈ l.
Proof.
  revert U. induction l as [|a l IH]; intros U; simpl; [auto|].
  intros He. apply IH in He as [He|He].
  - unfold insert_if_new in He. destruct (bool_decide _).
    + apply elem_of_app in He as [He|He]; [auto|].
      apply list_elem_of_singleton in He as ->.
      right. apply list_elem_of_here.
    + auto.
  - right. apply list_elem_of_further, He.
Qed.

(** X6: on a collection with distinct sample identifiers, none the
    sentinel's, every entry of the extracted catalogue is at a
    dissimilarity of at least the threshold from every entry before it
    (the later entry being the first argument of the kernel); with a
    symmetric kernel any two different entries of the finalized catalogue
    are at least the threshold apart. *)
Theorem catalogue_separated (c : Collection vec) (eps : Q) (sd : vec)
    (r : UResult vec) (w : list key) :
  seed c = Some sd → NoDup (gbs c).*1 → seed_key.1 ∉ (gbs c).*1 →
  uniquify soap_S c eps = Ok (r, w) →
  StronglySorted (λ a b : key * vec, eps <= soap_S b.2 a.2)
                 (extraction soap_S sd (gbs c) eps)
  ∧ ((∀ x y, soap_S x y == soap_S y x) →
     ∀ a b, a ∈ r_U r → b ∈ r_U r → a ≠ b → eps <= soap_S a.2 b.2).
Proof.
  intros Hseed Hnd Hsent Hu.
  assert (Hsep : StronglySorted (λ a b : key * vec, eps <= soap_S b.2 a.2)
                   (extraction soap_S sd (gbs c) eps)).
  { rewrite (extraction_extract_rule soap_S sd (gbs c) eps Hnd Hsent).
    apply fold_insert_separated. repeat constructor. }
  split; [exact Hsep|]. intros Hsym a b Ha Hb Hab.
  destruct (finalized_catalogue soap_S c eps sd r w Hseed Hu)
    as (used & U2 & _ & HU2 & _ & Hperm & _).
  rewrite Hperm, HU2 in Ha, Hb.
  apply list_elem_of_filter in Ha as [_ Ha], Hb as [_ Hb].
  destruct (StronglySorted_either _ _ a b Hsep Ha Hb) as [?|[Hle|Hle]];
    [contradiction| |exact Hle].
  rewrite (Hsym a.2 b.2). exact Hle.
Qed.

(** X7: on a collection with distinct sample identifiers, none the
    sentinel's, every entry of the finalized catalogue is the seed under
    the sentinel identifier or the descriptor row of an atom of the
    collection under that atom's own identifier, the seed entry being the
    only one that can stand for no atom; and the identifiers of the
    catalogue are distinct. *)
Theorem catalogue_entries (c : Collection vec) (eps : Q) (sd : vec)
    (r : UResult vec) (w : list key) :
  seed c = Some sd → NoDup (gbs c).*1 → seed_key.1 ∉ (gbs c).*1 →
  uniquify soap_S c eps = Ok (r, w) →
  NoDup (Dict.keys (r_U r))
  ∧ ∀ u v, (u, v) ∈ r_U r →
      (u = seed_key ∧ v = sd)
      ∨ ∃ s, (u.1, s) ∈ gbs c ∧ P s !! u.2 = Some v.
Proof.
  intros Hseed Hnd Hsent Hu.
  destruct (finalized_catalogue soap_S c eps sd r w Hseed Hu)
    as (used & U2 & _ & HU2 & HndU2 & Hperm & _).
  split.
  { unfold Dict.keys. rewrite Hperm. exact HndU2. }
  intros u v Hin. rewrite Hperm, HU2 in Hin.
  apply list_elem_of_filter in Hin as [_ Hin].
  rewrite (extraction_extract_rule soap_S sd (gbs c) eps Hnd Hsent) in Hin.
  apply fold_insert_origin in Hin as [Hin|Hin].
  - apply list_elem_of_singleton in Hin as [= -> ->]. auto.
  - right. unfold atoms in Hin.
    apply list_elem_of_In, in_flat_map in Hin as ([gid s] & Hgs & Hin).
    apply list_elem_of_In in Hgs, Hin.
    apply list_elem_of_fmap in Hin as ([i x] & [= -> ->] & Hix).
    exists s. simpl in *. split; [exact Hgs|].
    apply list_elem_of_lookup in Hix as [j Hj].
    apply enumerate_from_lookup_inv in Hj as [-> Hx]. exact Hx.
Qed.

(** X8: on a collection with distinct sample identifiers, none the
    sentinel's, with a kernel that puts every vector below the threshold
    of itself, the first pass leaves every atom of the collection with an
    entry of the extracted catalogue below the threshold. *)
Theorem extraction_covers_atoms (sd : vec) (g : list (string * Sample vec))
    (eps : Q) :
  NoDup g.*1 → seed_key.1 ∉ g.*1 → (∀ v, soap_S v v < eps) →
  ∀ gs i Pv, gs ∈ g → P gs.2 !! i = Some Pv →
    ∃ u uP, (u, uP) ∈ extraction soap_S sd g eps ∧ soap_S Pv uP < eps.
Proof.
  intros Hnd Hsent Hrefl gs i Pv Hgs HPv.
  pose proof (extraction_covers soap_S sd g eps gs i Pv Hnd Hsent Hrefl
                Hgs HPv) as Hex.
  apply Exists_exists in Hex as ([u uP] & Hin & Hlt). eauto.
Qed.
End Separation.

Lemma dist_self_below (v : Q) : Examples.dist v v < 1 # 10.
Proof. rewrite dist_refl. reflexivity. Qed.

Lemma catalogue_separated_witness :
  let c := Examples.collection (Some 0)
             [("a"%string, [0; 1 # 2; 1 # 4]); ("b"%string, [1 # 2])] in
  ∃ r w,
    Examples.run_uniquify c (1 # 10) = Ok (r, w)
    ∧ StronglySorted (λ a b : key * Q, 1 # 10 <= Examples.dist b.2 a.2)
                     (extraction Examples.dist 0 (gbs c) (1 # 10)).
Proof.
  intros c.
  eassert (Hrun : Examples.run_uniquify c (1 # 10) = Ok (_, _))
    by (vm_compute; reflexivity).
  assert (Hnd : NoDup (gbs c).*1)
    by (refine (bool_decide_unpack _ _); vm_compute; exact I).
  assert (Hsent : seed_key.1 ∉ (gbs c).*1)
    by (refine (bool_decide_unpack _ _); vm_compute; exact I).
  eexists _, _. split; [exact Hrun|].
  exact (proj1 (catalogue_separated Examples.dist (order := insertion_order)
                  c (1 # 10) 0 _ _ eq_refl Hnd Hsent Hrun)).
Defined.

Lemma catalogue_entries_witness :
  let c := Examples.collection (Some 0)
             [("a"%string, [0; 1 # 2; 1 # 4]); ("b"%string, [1 # 2])] in
  ∃ r w,
    Examples.run_uniquify c (1 # 10) = Ok (r, w)
    ∧ NoDup (Dict.keys (r_U r)).
Proof.
  intros c.
  eassert (Hrun : Examples.run_uniquify c (1 # 10) = Ok (_, _))
    by (vm_compute; reflexivity).
  assert (Hnd : NoDup (gbs c).*1)
    by (refine (bool_decide_unpack _ _); vm_compute; exact I).
  assert (Hsent : seed_key.1 ∉ (gbs c).*1)
    by (refine (bool_decide_unpack _ _); vm_compute; exact I).
  eexists _, _. split; [exact Hrun|].
  exact (proj1 (catalogue_entries Examples.dist (order := insertion_order)
                  c (1 # 10) 0 _ _ eq_refl Hnd Hsent Hrun)).
Defined.

Lemma extraction_covers_atoms_witness :
  let g := gbs (Examples.collection (Some 0)
                  [("a"%string, [0; 1 # 2; 1 # 4]); ("b"%string, [1 # 2])]) in
  ∃ u uP, (u, uP) ∈ extraction Examples.dist 0 g (1 # 10)
          ∧ Examples.dist (1 # 2) uP < 1 # 10.
Proof.
  intros g.
  assert (Hnd : NoDup g.*1)
    by (refine (bool_decide_unpack _ _); vm_compute; exact I).
  assert (Hsent : seed_key.1 ∉ g.*1)
    by (refine (bool_decide_unpack _ _); vm_compute; exact I).
  apply (extraction_covers_atoms Examples.dist 0 g (1 # 10) Hnd Hsent
           dist_self_below ("b"%string, Examples.boundary [1 # 2]) 0%nat
           (1 # 2)).
  - apply list_elem_of_further, list_elem_of_here.
  - reflexivity.
Defined.

(** ** The stores and the assignments of [U] and [LER] *)

Section Stores.
Context {V : Type}.

Lemma store_get_put (eps : Q) (v : V) (d : list (Q * V)) :
  store_get eps (store_put eps v d) = Some v.
Proof.
  induction d as [|[e v'] d IH]; simpl.
  - rewrite (proj2 (Qeq_bool_iff eps eps) (Qeq_refl eps)). reflexivity.
  - destruct (Qeq_bool eps e) eqn:He; simpl; rewrite He; [reflexivity|].
    exact IH.
Qed.

Lemma store_get_put_other (eps eps' : Q) (v : V) (d : list (Q * V)) :
  ¬ eps' == eps →
  store_get eps' (store_put eps v d) = store_get eps' d.
Proof.
  intros Hne. induction d as [|[e v'] d IH]; simpl.
  - destruct (Qeq_bool eps' eps) eqn:He; [|reflexivity].
    apply Qeq_bool_iff in He. contradiction.
  - destruct (Qeq_bool eps e) eqn:He; simpl.
    + destruct (Qeq_bool eps' e) eqn:He'; [|reflexivity].
      apply Qeq_bool_iff in He, He'. exfalso. apply Hne.
      rewrite He, He'. reflexivity.
    + rewrite IH. reflexivity.
Qed.

Lemma store_put_miss (eps : Q) (v : V) (d : list (Q * V)) :
  store_get eps d = None → store_put eps v d = d ++ [(eps, v)].
Proof.
  induction d as [|[e v'] d IH]; simpl; [reflexivity|].
  destruct (Qeq_bool eps e); [discriminate|].
  intros Hd. rewrite IH by exact Hd. reflexivity.
Qed.
End Stores.

Section Writes.

Lemma apply_writes_snoc (todo : list (nat * key)) (a : nat * key)
    (l : list (option key)) :
  apply_writes (todo ++ [a]) l = <[a.1 := Some a.2]> (apply_writes todo l).
Proof. unfold apply_writes. rewrite foldl_app. reflexivity. Qed.

Lemma apply_writes_length (todo : list (nat * key)) (l : list (option key)) :
  length (apply_writes todo l) = length l.
Proof.
  revert l. induction todo as [|a todo IH]; intros l; [reflexivity|].
  simpl. change (length (apply_writes todo (<[a.1 := Some a.2]> l)) = length l).
  rewrite IH. apply length_insert.
Qed.

Lemma apply_writes_out (todo : list (nat * key)) (l : list (option key))
    (i : nat) :
  i ∉ todo.*1 → apply_writes todo l !! i = l !! i.
Proof.
  revert l. induction todo as [|a todo IH]; intros l Hi; [reflexivity|].
  simpl in Hi. apply not_elem_of_cons in Hi as [Hne Hi].
  change (apply_writes todo (<[a.1 := Some a.2]> l) !! i = l !! i).
  rewrite IH by exact Hi. apply list_lookup_insert_ne. congruence.
Qed.

(** An index that the writes give one identifier only ends up with it. *)
Lemma apply_writes_in (todo : list (nat * key)) (l : list (option key))
    (i : nat) (u : key) :
  (i < length l)%nat → (i, u) ∈ todo →
  (∀ u', (i, u') ∈ todo → u' = u) →
  apply_writes todo l !! i = Some (Some u).
Proof.
  revert l. induction todo as [|a todo IH] using rev_ind; intros l Hi Hin Hfun.
  - inversion Hin.
  - rewrite apply_writes_snoc.
    destruct (decide (a.1 = i)) as [Heq|Hne].
    + assert (Ha : a.2 = u).
      { apply Hfun. apply elem_of_app. right.
        apply list_elem_of_singleton. destruct a; simpl in *. congruence. }
      rewrite Heq, Ha. apply list_lookup_insert_eq.
      rewrite apply_writes_length. exact Hi.
    + rewrite list_lookup_insert_ne by exact Hne.
      apply IH; [exact Hi| |].
      * apply elem_of_app in Hin as [Hin|Hin]; [exact Hin|].
        apply list_elem_of_singleton in Hin. subst a. contradiction.
      * intros u' Hu'. apply Hfun. apply elem_of_app. auto.
Qed.

(** The writes decide the result on the indices they visit. *)
Lemma apply_writes_agree (todo : list (nat * key)) (l l' : list (option key)) :
  length l = length l' →
  (∀ i, i ∉ todo.*1 → l !! i = l' !! i) →
  apply_writes todo l = apply_writes todo l'.
Proof.
  revert l l'. induction todo as [|a todo IH]; intros l l' Hlen Hagree.
  - simpl. apply list_eq. intros i. apply Hagree. intros Hin. inversion Hin.
  - change (apply_writes todo (<[a.1 := Some a.2]> l)
            = apply_writes todo (<[a.1 := Some a.2]> l')).
    apply IH; [rewrite !length_insert; exact Hlen|].
    intros i Hi. destruct (decide (a.1 = i)) as [<-|Hne].
    + destruct (decide (a.1 < length l)%nat) as [Hlt|Hge].
      * rewrite !list_lookup_insert_eq by lia. reflexivity.
      * rewrite !lookup_ge_None_2 by (rewrite length_insert; lia).
        reflexivity.
    + rewrite !list_lookup_insert_ne by exact Hne.
      apply Hagree. simpl. apply not_elem_of_cons. split; [congruence|exact Hi].
Qed.

Lemma apply_writes_idemp (todo : list (nat * key)) (l : list (option key)) :
  apply_writes todo (apply_writes todo l) = apply_writes todo l.
Proof.
  apply apply_writes_agree; [apply apply_writes_length|].
  intros i Hi. apply apply_writes_out, Hi.
Qed.
End Writes.

Section AssignWrites.
Context {vec : Type} {order : DictOrder}.

Lemma set_LAEs_id (s : Sample vec) (l : list (option key)) :
  LAEs s = Some l → set_LAEs s l = s.
Proof. destruct s as [n p o]. simpl. intros ->. reflexivity. Qed.

(** The loop of [U] over the assignments of one boundary: it gets through
    exactly when there is nothing to assign, or the boundary has a list
    [LAEs] that is long enough for every index; and then the list is the
    old one with the writes applied. *)
Lemma iterE_assign_writes (todo : list (nat * key)) (s s' : Sample vec) :
  iterE assign_LAE s todo = (s', None)
  ↔ (todo = [] ∧ s' = s)
    ∨ ∃ l, LAEs s = Some l ∧ Forall (λ a, (a.1 < length l)%nat) todo
           ∧ s' = set_LAEs s (apply_writes todo l).
Proof.
  revert s. induction todo as [|a todo IH]; intros s.
  - simpl. split.
    + intros [= <-]. auto.
    + intros [[_ ->]|(l & Hl & _ & ->)]; [reflexivity|].
      simpl. rewrite (set_LAEs_id s l Hl). reflexivity.
  - simpl. unfold assign_LAE at 1.
    destruct (LAEs s) as [l|] eqn:Hl.
    + destruct (decide (a.1 < length l)%nat) as [Hlt|Hge].
      * rewrite IH. split.
        -- intros [[-> ->]|(l1 & [= <-] & Hall & ->)]; right; exists l.
           ++ split; [reflexivity|]. split; [|reflexivity].
              constructor; [exact Hlt|constructor].
           ++ split; [reflexivity|]. split; [|reflexivity].
              constructor; [exact Hlt|].
              eapply Forall_impl; [exact Hall|]. intros x.
              rewrite length_insert. auto.
        -- intros [[Hnil _]|(l1 & [= <-] & Hall & ->)]; [discriminate|].
           right. exists (<[a.1 := Some a.2]> l).
           split; [reflexivity|]. split; [|reflexivity].
           apply Forall_cons in Hall as [_ Hall].
           eapply Forall_impl; [exact Hall|]. intros x.
           rewrite length_insert. auto.
      * split; [discriminate|].
        intros [[Hnil _]|(l1 & [= <-] & Hall & _)]; [discriminate|].
        apply Forall_cons in Hall as [Hlt _]. contradiction.
    + split; [discriminate|].
      intros [[Hnil _]|(l1 & Hl1 & _)]; discriminate.
Qed.

Lemma iterE_assign_idemp (todo : list (nat * key)) (s s' : Sample vec) :
  iterE assign_LAE s todo = (s', None) →
  iterE assign_LAE s' todo = (s', None).
Proof.
  intros Hrun. apply iterE_assign_writes in Hrun
    as [[-> ->]|(l & Hl & Hall & ->)]; [reflexivity|].
  apply iterE_assign_writes. right. exists (apply_writes todo l).
  split; [reflexivity|]. split.
  - eapply Forall_impl; [exact Hall|]. intros x.
    rewrite apply_writes_length. auto.
  - rewrite apply_writes_idemp. reflexivity.
Qed.

Lemma assign_sample_idemp (r : UResult vec) (gs gs' : string * Sample vec) :
  assign_sample r gs = (gs', None) → assign_sample r gs' = (gs', None).
Proof.
  unfold assign_sample.
  destruct (r_GBs r !! gs.1) as [L|] eqn:HL; [|discriminate].
  destruct (iterE assign_LAE gs.2 (assignments L)) as [s e] eqn:Hrun.
  intros [= <- ->]. simpl. rewrite HL.
  rewrite (iterE_assign_idemp _ _ _ Hrun). reflexivity.
Qed.

Lemma assign_all_idemp (r : UResult vec) (g g' : list (string * Sample vec)) :
  assign_all r g = (g', None) → assign_all r g' = (g', None).
Proof.
  revert g'. induction g as [|gs g IH]; intros g'; simpl.
  - intros [= <-]. reflexivity.
  - destruct (assign_sample r gs) as [gs' [e|]] eqn:Hgs; [discriminate|].
    destruct (assign_all r g) as [g1 e] eqn:Hg. intros [= <- ->].
    simpl. rewrite (assign_sample_idemp _ _ _ Hgs), (IH _ eq_refl).
    reflexivity.
Qed.
End AssignWrites.

Section Caches.
Context {vec : Type} (soap_S : vec → vec → Q) {order : DictOrder}.

Lemma with_gbs_id (c : Collection vec) : with_gbs c (gbs c) = c.
Proof. destruct c. reflexivity. Qed.

(** What a call of [U] that returns has gone through. *)
Lemma U_Ok (c c1 : Collection vec) (eps : Q) (r : UResult vec) :
  U soap_S c eps = (Ok r, c1) →
  ∃ c0 g,
    assign_all r (gbs c) = (g, None) ∧ c1 = with_gbs c0 g
    ∧ seed c0 = seed c ∧ gbs c0 = gbs c ∧ store_LER c0 = store_LER c
    ∧ ((store_get eps (store_U c) = Some r ∧ c0 = c)
       ∨ (store_get eps (store_U c) = None
          ∧ (∃ w, uniquify soap_S c eps = Ok (r, w))
          ∧ c0 = with_store_U c (store_put eps r (store_U c)))).
Proof.
  unfold U. destruct (store_get eps (store_U c)) as [r0|] eqn:Hget.
  - destruct (assign_all r0 (gbs c)) as [g [e|]] eqn:Hg; [discriminate|].
    intros [= <- <-]. exists c, g. auto 10.
  - destruct (uniquify soap_S c eps) as [[r0 w]|] eqn:Hu; [|discriminate].
    simpl. destruct (assign_all r0 (gbs c)) as [g [e|]] eqn:Hg; [discriminate|].
    intros [= <- <-]. eexists _, g. split; [exact Hg|].
    split; [reflexivity|]. repeat split. right. eauto.
Qed.

(** X9: a call of [U] that returns leaves the catalogue in the store
    under its threshold, whether it was found there or computed, and
    touches neither the seed, nor the fingerprint store, nor what the
    store holds under any other threshold. *)
Theorem U_read_through (c c1 : Collection vec) (eps : Q) (r : UResult vec) :
  U soap_S c eps = (Ok r, c1) →
  store_get eps (store_U c1) = Some r
  ∧ (∀ eps', ¬ eps' == eps →
       store_get eps' (store_U c1) = store_get eps' (store_U c))
  ∧ seed c1 = seed c ∧ store_LER c1 = store_LER c.
Proof.
  intros HU. apply U_Ok in HU
    as (c0 & g & _ & -> & Hseed & _ & HLER & [[Hget ->]|(Hget & _ & ->)]);
    simpl.
  - auto.
  - split; [apply store_get_put|]. split; [|auto].
    intros eps' Hne. apply store_get_put_other, Hne.
Qed.

(** X10: [U] is idempotent: after a call that returned, a second call
    with the same threshold returns the same catalogue and leaves the
    collection, the [LAEs] of every boundary included, as the first call
    left it. *)
Theorem U_idempotent (c c1 : Collection vec) (eps : Q) (r : UResult vec) :
  U soap_S c eps = (Ok r, c1) → U soap_S c1 eps = (Ok r, c1).
Proof.
  intros HU. apply U_Ok in HU
    as (c0 & g & Hg & -> & _ & _ & _ & Hc0).
  assert (Hget : store_get eps (store_U c0) = Some r).
  { destruct Hc0 as [[Hget ->]|(_ & _ & ->)]; [exact Hget|].
    simpl. apply store_get_put. }
  unfold U. simpl. rewrite Hget. simpl.
  rewrite (assign_all_idemp r _ _ Hg). reflexivity.
Qed.

(** X11: after a call of [LER] that returned a matrix, a call with the
    same threshold returns that matrix from the store without looking at
    the boundaries: whatever their [LAEs] have become in between, the
    answer and the collection stay the same. *)
Theorem LER_stored (c c' : Collection vec) (eps : Q)
    (M : list (list npfloat)) :
  LER soap_S c eps = (Ok M, c') →
  store_get eps (store_LER c') = Some M
  ∧ ∀ g, LER soap_S (with_gbs c' g) eps = (Ok M, with_gbs c' g).
Proof.
  intros HL.
  assert (Hget : store_get eps (store_LER c') = Some M).
  { unfold LER in HL.
    destruct (store_get eps (store_LER c)) as [M0|] eqn:Hget.
    - injection HL as <- <-. exact Hget.
    - destruct (U soap_S c eps) as [[r|e] c1]; [|discriminate].
      destruct (mapM _ (gbs c1)) as [M0|]; [|discriminate].
      injection HL as <- <-. simpl. apply store_get_put. }
  split; [exact Hget|]. intros g. unfold LER. simpl. rewrite Hget.
  reflexivity.
Qed.
End Caches.

Lemma U_read_through_witness :
  let c := Examples.collection (Some 0) [("a"%string, [0; 1 # 2])] in
  ∃ r c1,
    U Examples.dist (order := insertion_order) c (1 # 10) = (Ok r, c1)
    ∧ store_get (1 # 10) (store_U c1) = Some r.
Proof.
  intros c.
  eassert (HU : U Examples.dist (order := insertion_order) c (1 # 10)
                = (Ok _, _)) by (vm_compute; reflexivity).
  eexists _, _. split; [exact HU|].
  exact (proj1 (U_read_through Examples.dist (order := insertion_order)
                  c _ (1 # 10) _ HU)).
Defined.

Lemma U_idempotent_witness :
  let c := Examples.collection (Some 0) [("a"%string, [0; 1 # 2])] in
  ∃ r c1,
    U Examples.dist (order := insertion_order) c (1 # 10) = (Ok r, c1)
    ∧ U Examples.dist (order := insertion_order) c1 (1 # 10) = (Ok r, c1).
Proof.
  intros c.
  eassert (HU : U Examples.dist (order := insertion_order) c (1 # 10)
                = (Ok _, _)) by (vm_compute; reflexivity).
  eexists _, _. split; [exact HU|].
  exact (U_idempotent Examples.dist (order := insertion_order)
           c _ (1 # 10) _ HU).
Defined.

Lemma LER_stored_witness :
  let c := Examples.collection (Some 0) [("a"%string, [0; 1 # 2])] in
  ∃ M c',
    LER Examples.dist (order := insertion_order) c (1 # 10) = (Ok M, c')
    ∧ store_get (1 # 10) (store_LER c') = Some M.
Proof.
  intros c.
  eassert (HL : LER Examples.dist (order := insertion_order) c (1 # 10)
                = (Ok _, _)) by (vm_compute; reflexivity).
  eexists _, _. split; [exact HL|].
  exact (proj1 (LER_stored Examples.dist (order := insertion_order)
                  c _ (1 # 10) _ HL)).
Defined.

Section Assigned.
Context {vec : Type} (soap_S : vec → vec → Q) {order : DictOrder}.

Lemma assign_all_Ok (r : UResult vec) (g g' : list (string * Sample vec)) :
  assign_all r g = (g', None) →
  Forall2 (λ gs gs', assign_sample r gs = (gs', None)) g g'.
Proof.
  revert g'. induction g as [|gs g IH]; intros g'; simpl.
  - intros [= <-]. constructor.
  - destruct (assign_sample r gs) as [gs' [e|]] eqn:Hgs; [discriminate|].
    destruct (assign_all r g) as [g1 e] eqn:Hg. intros [= <- ->].
    constructor; [exact Hgs|]. apply IH. reflexivity.
Qed.

(** X12: a call of [U] that computes the catalogue, on a collection with
    distinct sample identifiers, and returns: in every boundary that has a
    list [LAEs], the entry of an atom that the run classified to an entry
    [u] is [u], and the entry of an atom that the run classified to
    nothing is what it was before the call. *)
Theorem U_assigns (c c1 : Collection vec) (eps : Q) (sd : vec)
    (r : UResult vec) :
  seed c = Some sd → NoDup (gbs c).*1 →
  store_get eps (store_U c) = None →
  U soap_S c eps = (Ok r, c1) →
  Forall2 (λ gs gs1,
     gs1.1 = gs.1
     ∧ ∃ L, r_GBs r !! gs.1 = Some L
         ∧ ∀ l, LAEs gs.2 = Some l →
             ∃ l1, LAEs gs1.2 = Some l1 ∧ length l1 = length l
               ∧ ∀ i,
                   (∀ u, (gs.1, i) ∈ members L u → l1 !! i = Some (Some u))
                   ∧ ((∀ u, (gs.1, i) ∉ members L u) → l1 !! i = l !! i))
    (gbs c) (gbs c1).
Proof.
  intros Hseed Hnd Hmiss HU.
  apply U_Ok in HU as (c0 & g & Hg & -> & _ & _ & _ & Hc0). simpl.
  destruct Hc0 as [[Hget _]|(_ & [w Hu] & _)]; [congruence|].
  destruct (uniquify_Ok soap_S c eps sd r w Hseed Hu) as (used & U2 & Hcl & _).
  destruct (classification_Ok soap_S _ _ _ _ _ _ Hnd Hcl)
    as (_ & _ & Hres & _).
  destruct (classification_runs soap_S _ _ _ _ _ _ Hnd Hcl) as [_ Hruns].
  apply assign_all_Ok in Hg.
  apply Forall2_same_length_lookup. split; [exact (Forall2_length _ _ _ Hg)|].
  intros k gs gs1 Hk Hk1.
  pose proof (Forall2_lookup_lr _ _ _ _ _ _ Hg Hk Hk1) as Hgs.
  assert (Hin : gs ∈ gbs c) by (apply list_elem_of_lookup; eauto).
  unfold assign_sample in Hgs.
  destruct (Hres gs Hin) as (L & HL & HndL & Hm & _).
  destruct (Hruns gs Hin) as (L' & u0 & w0 & u1 & w1 & HL' & Hrun).
  assert (L' = L) as -> by congruence.
  destruct (classify_shape soap_S _ _ _ _ _ _ _ _ _
              (extraction_NoDup soap_S sd (gbs c) eps) Hrun)
    as (_ & _ & _ & _ & _ & Hd & _).
  rewrite HL in Hgs.
  destruct (iterE assign_LAE gs.2 (assignments L)) as [s e] eqn:Hit.
  injection Hgs as <- ->. simpl. split; [reflexivity|].
  exists L. split; [exact HL|]. intros l Hl.
  assert (Hs : Forall (λ a, (a.1 < length l)%nat) (assignments L)
               ∧ LAEs s = Some (apply_writes (assignments L) l)).
  { apply iterE_assign_writes in Hit as [[Hnil ->]|(l0 & Hl0 & Hall & ->)].
    - rewrite Hnil. split; [constructor|exact Hl].
    - assert (l0 = l) as -> by congruence. split; [exact Hall|reflexivity]. }
  destruct Hs as [Hall Hs].
  exists (apply_writes (assignments L) l). split; [exact Hs|].
  split; [apply apply_writes_length|]. intros i. split.
  - intros u Hmem.
    pose proof (members_assignments L _ u Hmem) as Ha. simpl in Ha.
    apply apply_writes_in; [|exact Ha|].
    + exact (proj1 (Forall_forall _ _) Hall _ Ha).
    + intros u' Ha'.
      apply (in_assignments L i u' HndL) in Ha' as ([p j] & Hpv & Hj).
      destruct (Hm u' _ Hpv) as (_ & Hp & _). simpl in Hj, Hp. subst p j.
      exact (Hd _ _ _ Hpv Hmem).
  - intros Hnone. apply apply_writes_out. intros Hi.
    apply list_elem_of_fmap in Hi as ([j u] & -> & Ha). simpl in *.
    apply (in_assignments L j u HndL) in Ha as ([p j'] & Hpv & Hj).
    destruct (Hm u _ Hpv) as (_ & Hp & _). simpl in Hj, Hp. subst p j'.
    exact (Hnone u Hpv).
Qed.
End Assigned.

Lemma U_assigns_witness :
  let c := Examples.collection (Some 0)
             [("a"%string, [0; 1 # 2; 0]); ("b"%string, [1 # 2])] in
  ∃ r c1,
    U Examples.dist (order := insertion_order) c (1 # 10) = (Ok r, c1)
    ∧ length (gbs c1) = length (gbs c).
Proof.
  intros c.
  eassert (HU : U Examples.dist (order := insertion_order) c (1 # 10)
                = (Ok _, _)) by (vm_compute; reflexivity).
  assert (Hnd : NoDup (gbs c).*1)
    by (refine (bool_decide_unpack _ _); vm_compute; exact I).
  eexists _, _. split; [exact HU|].
  symmetry.
  exact (Forall2_length _ _ _
           (U_assigns Examples.dist (order := insertion_order)
              c _ (1 # 10) 0 _ eq_refl Hnd eq_refl HU)).
Defined.

Section Untrimmed.
Context {vec : Type} (soap_S : vec → vec → Q) {order : DictOrder}.

(** The loops of [U] over boundaries that have no list [LAEs]: the first
    boundary with something to assign raises, and nothing has changed. *)
Lemma assign_all_untrimmed (r : UResult vec)
    (g : list (string * Sample vec)) :
  (∀ gs, gs ∈ g → LAEs gs.2 = None ∧ is_Some (r_GBs r !! gs.1)) →
  Exists (λ gs, ∃ L, r_GBs r !! gs.1 = Some L ∧ assignments L ≠ []) g →
  assign_all r g = (g, Some TypeError).
Proof.
  induction g as [|gs g IH]; intros Hall Hex; [inversion Hex|].
  destruct (Hall gs (list_elem_of_here _ _)) as [Hnone [L HL]].
  simpl. unfold assign_sample. rewrite HL.
  destruct (assignments L) as [|a todo] eqn:Ha.
  - simpl. destruct gs as [gid s]. simpl in *.
    rewrite IH; [reflexivity| |].
    + intros gs' Hin. apply Hall, list_elem_of_further, Hin.
    + apply Exists_cons in Hex as [(L' & HL' & Hne)|Hex]; [|exact Hex].
      simpl in HL'. assert (L' = L) as -> by congruence. contradiction.
  - simpl. unfold assign_LAE at 1. rewrite Hnone.
    destruct gs as [gid s]. reflexivity.
Qed.

(** X13: [U] on boundaries that were never trimmed.  Under the contracts
    of the specification (a seed, distinct sample identifiers none of
    which is the sentinel's, a kernel that is 0 on equal vectors, a
    threshold in (0, 1] that is not in the store), when no boundary has a
    list [LAEs] yet and some boundary has a descriptor row, [uniquify]
    returns but the first assignment raises [TypeError]; the boundaries
    are unchanged, the catalogue stays in the store, and [LER] raises the
    same exception. *)
Theorem U_untrimmed (c : Collection vec) (eps : Q) (sd : vec) :
  seed c = Some sd →
  NoDup (gbs c).*1 → seed_key.1 ∉ (gbs c).*1 →
  0 < eps → eps <= 1 → (∀ v, soap_S v v == 0) →
  store_get eps (store_U c) = None →
  (∀ gs, gs ∈ gbs c → LAEs gs.2 = None) →
  Exists (λ gs, P gs.2 ≠ []) (gbs c) →
  ∃ r w,
    uniquify soap_S c eps = Ok (r, w)
    ∧ U soap_S c eps
      = (Raise TypeError, with_store_U c (store_put eps r (store_U c)))
    ∧ (store_get eps (store_LER c) = None →
       LER soap_S c eps
       = (Raise TypeError, with_store_U c (store_put eps r (store_U c)))).
Proof.
  intros Hseed Hnd Hsent Heps Hle Hrefl Hmiss Hnone Hrows.
  destruct (uniquify_total soap_S c eps sd Hseed Hle) as (r & w & Hu).
  destruct (every_atom_assigned soap_S c eps sd r w Hseed Hnd Hsent Heps
              Hrefl Hu) as (_ & _ & Hres).
  exists r, w. split; [exact Hu|].
  assert (Hg : assign_all r (gbs c) = (gbs c, Some TypeError)).
  { apply assign_all_untrimmed.
    - intros gs Hgs. split; [exact (Hnone gs Hgs)|].
      destruct (Hres gs Hgs) as (L & HL & _). eauto.
    - apply Exists_exists in Hrows as (gs & Hgs & Hne).
      apply Exists_exists. exists gs. split; [exact Hgs|].
      destruct (Hres gs Hgs) as (L & HL & _ & _ & Hcov).
      exists L. split; [exact HL|].
      destruct (Hcov 0%nat) as [u Hmem].
      { destruct (P gs.2); [contradiction|simpl; lia]. }
      apply members_assignments in Hmem. intros Hnil.
      rewrite Hnil in Hmem. inversion Hmem. }
  assert (HU : U soap_S c eps
               = (Raise TypeError,
                  with_store_U c (store_put eps r (store_U c)))).
  { unfold U. rewrite Hmiss, Hu. simpl. rewrite Hg. reflexivity. }
  split; [exact HU|]. intros HmL. unfold LER. rewrite HmL, HU. reflexivity.
Qed.
End Untrimmed.

Lemma U_untrimmed_witness :
  let c := {| seed := Some 0;
              gbs := [("a"%string,
                       {| xyz_len := 2; P := [0; 1 # 2]; LAEs := None |})];
              store_U := []; store_LER := [] |} in
  ∃ r,
    U Examples.dist (order := insertion_order) c (1 # 10)
    = (Raise TypeError, with_store_U c (store_put (1 # 10) r (store_U c))).
Proof.
  intros c.
  assert (Hnd : NoDup (gbs c).*1)
    by (refine (bool_decide_unpack _ _); vm_compute; exact I).
  assert (Hsent : seed_key.1 ∉ (gbs c).*1)
    by (refine (bool_decide_unpack _ _); vm_compute; exact I).
  destruct (U_untrimmed Examples.dist (order := insertion_order) c (1 # 10) 0
              eq_refl Hnd Hsent eq_refl ltac:(discriminate) dist_refl eq_refl)
    as (r & w & _ & HU & _).
  - intros gs Hgs. apply list_elem_of_singleton in Hgs as ->. reflexivity.
  - apply Exists_cons_hd. discriminate.
  - exists r. exact HU.
Defined.

(** ** Properties of the boundaries: [add_property] and [get_property] *)

Lemma foldM_app {A B} (f : B → A → res B) (b : B) (l1 l2 : list A) :
  foldM f b (l1 ++ l2)
  = match foldM f b l1 with Ok b' => foldM f b' l2 | Raise e => Raise e end.
Proof.
  revert b. induction l1 as [|x l1 IH]; intros b; simpl; [reflexivity|].
  destruct (f b x); [apply IH|reflexivity].
Qed.

Lemma mapM_raises {A B} (f : A → res B) (e0 : exn) (l : list A) :
  (∀ x e, f x = Raise e → e = e0) →
  Exists (λ x, f x = Raise e0) l → mapM f l = Raise e0.
Proof.
  intros Honly Hex. induction Hex as [x l Hx|x l _ IH]; simpl.
  - rewrite Hx. reflexivity.
  - destruct (f x) as [y|e] eqn:Hy.
    + cbn. rewrite IH. reflexivity.
    + rewrite (Honly _ _ Hy). reflexivity.
Qed.

Section PropertyFacts.
Context {V : Type}.
Variable split : option string → string → list string.
Variable cast : string → res V.

Lemma get_property_values (properties : gmap string (gmap string V))
    (name : string) (v : gmap string V) (gbids : list string) :
  properties !! name = Some v →
  get_property properties gbids name = mapM (λ gbid, py_lookup gbid v) gbids.
Proof.
  intros Hv. unfold get_property.
  assert (Hl : py_lookup name properties = Ok v).
  { unfold py_lookup. rewrite Hv. reflexivity. }
  rewrite Hl. reflexivity.
Qed.

(** X14: a property given as a dictionary can be read back:
    [add_property] with [values] never fails and ignores the file;
    [get_property] then returns the values of the boundaries in collection
    order when [values] has every boundary, raises [KeyError] as soon as
    one is missing, and the properties under other names read as before. *)
Theorem add_get_property (properties : gmap string (gmap string V))
    (name : string) (lines : list string) (v : gmap string V)
    (colindex : Z) (delimiter : option string) (skip : Z)
    (gbids : list string) :
  ∃ properties',
    add_property split cast properties name lines (Some v) colindex delimiter
                 skip = Ok properties'
    ∧ ((∀ g, g ∈ gbids → is_Some (v !! g)) →
       ∃ l, get_property properties' gbids name = Ok l
            ∧ Forall2 (λ g x, v !! g = Some x) gbids l)
    ∧ ((∃ g, g ∈ gbids ∧ v !! g = None) →
       get_property properties' gbids name = Raise KeyError)
    ∧ ∀ name', name' ≠ name →
        get_property properties' gbids name'
        = get_property properties gbids name'.
Proof.
  exists (<[name := v]> properties). split; [reflexivity|].
  assert (Hget : get_property (<[name := v]> properties) gbids name
                 = mapM (λ gbid, py_lookup gbid v) gbids).
  { apply get_property_values, lookup_insert_eq. }
  split; [|split].
  - intros Hall.
    destruct (mapM_total (λ gbid, py_lookup gbid v) gbids) as [l Hl].
    { intros g Hg. destruct (Hall g Hg) as [x Hx].
      exists x. unfold py_lookup. rewrite Hx. reflexivity. }
    exists l. rewrite Hget. split; [exact Hl|].
    apply mapM_Ok in Hl. eapply Forall2_impl; [exact Hl|].
    intros g x. unfold py_lookup. destruct (v !! g); congruence.
  - intros (g & Hg & Hnone). rewrite Hget. apply mapM_raises.
    + intros x e. unfold py_lookup. destruct (v !! x); congruence.
    + apply Exists_exists. exists g. split; [exact Hg|].
      unfold py_lookup. rewrite Hnone. reflexivity.
  - intros name' Hne. unfold get_property.
    assert (Hl : py_lookup name' (<[name := v]> properties)
                 = py_lookup name' properties).
    { unfold py_lookup. rewrite lookup_insert_ne by congruence. reflexivity. }
    rewrite Hl. reflexivity.
Qed.

(** X15: a positive [skip] skips every line of the file, not only the
    first [skip] ones (the counter that is compared with [skip] stays 0):
    whatever the file holds, the property becomes the empty dictionary,
    and reading it for a collection that has a boundary raises
    [KeyError]. *)
Theorem add_property_skip (properties : gmap string (gmap string V))
    (name : string) (lines : list string) (colindex : Z)
    (delimiter : option string) (skip : Z) :
  (0 < skip)%Z →
  add_property split cast properties name lines None colindex delimiter skip
    = Ok (<[name := ∅]> properties)
  ∧ ∀ g gbids,
      get_property (<[name := ∅]> properties) (g :: gbids) name
      = Raise KeyError.
Proof.
  intros Hskip. split.
  - unfold add_property.
    assert (Hloop : ∀ pdict : gmap string V,
      foldM (λ pdict line,
               if decide (0 < skip)%Z then Ok pdict
               else read_line split cast delimiter colindex pdict line)
            pdict lines = Ok pdict).
    { induction lines as [|line lines IH]; intros pdict; simpl; [reflexivity|].
      rewrite decide_True by exact Hskip. apply IH. }
    rewrite Hloop. reflexivity.
  - intros g gbids.
    rewrite (get_property_values _ name ∅) by apply lookup_insert_eq.
    apply mapM_raises.
    + intros x e. unfold py_lookup. rewrite lookup_empty. congruence.
    + apply Exists_cons_hd. unfold py_lookup. rewrite lookup_empty.
      reflexivity.
Qed.

Lemma read_line_parse (delimiter : option string) (colindex : Z)
    (pdict : gmap string V) (line : string) :
  read_line split cast delimiter colindex pdict line
  = match parse_line split cast delimiter colindex line with
    | Ok e => Ok (<[e.1 := e.2]> pdict)
    | Raise e => Raise e
    end.
Proof.
  unfold read_line, parse_line.
  destruct (py_index (split delimiter line) 0) as [gbid|]; [|reflexivity].
  cbn. destruct (py_index (split delimiter line) colindex) as [field|];
    [|reflexivity].
  cbn. destruct (cast field); reflexivity.
Qed.

Lemma read_lines (delimiter : option string) (colindex : Z)
    (lines : list string) (entries : list (string * V))
    (pdict : gmap string V) :
  Forall2 (λ line e, parse_line split cast delimiter colindex line = Ok e)
          lines entries →
  foldM (read_line split cast delimiter colindex) pdict lines
  = Ok (foldl (λ d e, <[e.1 := e.2]> d) pdict entries).
Proof.
  intros HF. revert pdict.
  induction HF as [|line e lines entries He _ IH]; intros pdict; simpl.
  - reflexivity.
  - rewrite read_line_parse, He. apply IH.
Qed.

Lemma inserted_last (entries : list (string * V)) (pdict : gmap string V)
    (g : string) :
  foldl (λ d e, <[e.1 := e.2]> d) pdict entries !! g
  = match last (filter (λ e, e.1 = g) entries) with
    | Some e => Some e.2
    | None => pdict !! g
    end.
Proof.
  induction entries as [|e entries IH] using rev_ind; [reflexivity|].
  rewrite foldl_app, filter_app, filter_cons, filter_nil. simpl.
  destruct (decide (e.1 = g)) as [<-|Hne].
  - rewrite last_snoc, lookup_insert_eq. reflexivity.
  - rewrite app_nil_r, lookup_insert_ne by exact Hne. exact IH.
Qed.

Lemma skip_never (skip : Z) (delimiter : option string) (colindex : Z)
    (lines : list string) (pdict : gmap string V) :
  (skip <= 0)%Z →
  foldM (λ pdict line,
           if decide (0 < skip)%Z then Ok pdict
           else read_line split cast delimiter colindex pdict line)
        pdict lines
  = foldM (read_line split cast delimiter colindex) pdict lines.
Proof.
  intros Hskip. revert pdict.
  induction lines as [|line lines IH]; intros pdict; simpl; [reflexivity|].
  rewrite decide_False by lia.
  destruct (read_line _ _ _ _ _ _); [apply IH|reflexivity].
Qed.

(** X16: without lines to skip, a file whose lines all split into enough
    fields that [cast] accepts gives the dictionary that maps an
    identifier to the value of the last line that starts with it (a later
    line replaces an earlier one), and to nothing if no line starts with
    it. *)
Theorem add_property_from_file (properties : gmap string (gmap string V))
    (name : string) (lines : list string) (entries : list (string * V))
    (colindex : Z) (delimiter : option string) (skip : Z) :
  (skip <= 0)%Z →
  Forall2 (λ line e, parse_line split cast delimiter colindex line = Ok e)
          lines entries →
  ∃ pdict,
    add_property split cast properties name lines None colindex delimiter
                 skip = Ok (<[name := pdict]> properties)
    ∧ ∀ g, pdict !! g = snd <$> last (filter (λ e, e.1 = g) entries).
Proof.
  intros Hskip HF.
  exists (foldl (λ d e, <[e.1 := e.2]> d) ∅ entries). split.
  - unfold add_property. rewrite skip_never by exact Hskip.
    rewrite (read_lines _ _ _ entries) by exact HF. reflexivity.
  - intros g. rewrite inserted_last, lookup_empty.
    destruct (last _); reflexivity.
Qed.

(** X17: without lines to skip, the first line that splits into no field
    at all, or into too few for [colindex] (counted from the end when
    negative), makes [add_property] raise [IndexError]; no property is
    stored, the lines before it notwithstanding. *)
Theorem add_property_short_line (properties : gmap string (gmap string V))
    (name : string) (pre post : list string) (line : string)
    (entries : list (string * V)) (colindex : Z)
    (delimiter : option string) (skip : Z) :
  (skip <= 0)%Z →
  Forall2 (λ line e, parse_line split cast delimiter colindex line = Ok e)
          pre entries →
  (split delimiter line = []
   ∨ (Z.of_nat (length (split delimiter line)) <= colindex)%Z
   ∨ (colindex < - Z.of_nat (length (split delimiter line)))%Z) →
  add_property split cast properties name (pre ++ line :: post) None colindex
               delimiter skip = Raise IndexError.
Proof.
  intros Hskip HF Hshort. unfold add_property.
  rewrite skip_never by exact Hskip.
  rewrite foldM_app, (read_lines _ _ _ entries) by exact HF. simpl.
  assert (Hline : ∀ pdict,
    read_line split cast delimiter colindex pdict line = Raise IndexError).
  { intros pdict. unfold read_line.
    destruct Hshort as [Hnil|Hcol].
    - rewrite Hnil. reflexivity.
    - destruct (py_index (split delimiter line) 0) as [gbid|e] eqn:H0.
      + cbn. unfold py_index.
        destruct (decide (colindex < 0)%Z);
          rewrite decide_False by lia; reflexivity.
      + cbn. unfold py_index in H0. simpl in H0.
        destruct (decide _) in H0; [|congruence].
        destruct (_ !! _) in H0; congruence. }
  rewrite Hline. reflexivity.
Qed.
End PropertyFacts.

Lemma add_property_skip_witness :
  add_property (λ _ line, [line; line]) (λ s, Ok s) ∅ "energy"
               ["a 1"%string; "b 2"%string] None 1 None 1
  = Ok (<["energy"%string := ∅]> ∅).
Proof.
  exact (proj1 (add_property_skip (λ _ line, [line; line]) (λ s, Ok s) ∅
                  "energy" ["a 1"%string; "b 2"%string] 1 None 1 eq_refl)).
Defined.

Lemma add_property_from_file_witness :
  ∃ pdict,
    add_property (λ _ line, [line; "1"%string]) (λ s, Ok s) ∅ "energy"
                 ["a"%string; "b"%string] None 1 None 0
    = Ok (<["energy"%string := pdict]> ∅).
Proof.
  destruct (add_property_from_file (λ _ line, [line; "1"%string]) (λ s, Ok s)
              ∅ "energy" ["a"%string; "b"%string]
              [("a"%string, "1"%string); ("b"%string, "1"%string)] 1 None 0)
    as (pdict & Hadd & _).
  - discriminate.
  - repeat constructor.
  - exists pdict. exact Hadd.
Defined.

Lemma add_property_short_line_witness :
  add_property (λ _ line, if decide (line = ""%string) then [] else [line; line])
               (λ s, Ok s) ∅ "energy"
               (["a"%string] ++ ""%string :: ["b"%string]) None 1 None 0
  = Raise IndexError.
Proof.
  apply (add_property_short_line
           (λ _ line, if decide (line = ""%string) then [] else [line; line])
           (λ s, Ok s) ∅ "energy" ["a"%string] ["b"%string] ""
           [("a"%string, "a"%string)] 1 None 0).
  - discriminate.
  - repeat constructor.
  - left. reflexivity.
Defined.

(** ** Finding and loading the boundaries *)

Section DiscoveryFacts.
Context {GB : Type}.
Variable py_sorted : list string → list string.
Variable path_join : string → string → string.
Variable parse_gb :
  string → gmap string GrainBoundary.pyval → gmap string GrainBoundary.pyval
  → res GB.

Lemma find_fresh (root : string) (names : list string)
    (d : list (string * string)) :
  NoDup (Dict.keys d ++ names) →
  foldl (λ gbfiles fname, Dict.set fname (path_join root fname) gbfiles)
        d names
  = d ++ ((λ f, (f, path_join root f)) <$> names).
Proof.
  revert d. induction names as [|f names IH]; intros d Hnd; simpl.
  - rewrite app_nil_r. reflexivity.
  - assert (Hf : f ∉ Dict.keys d).
    { apply NoDup_app in Hnd as (_ & Hdis & _). intros Hin.
      apply (Hdis _ Hin). apply list_elem_of_here. }
    rewrite set_fresh by exact Hf. rewrite IH.
    + rewrite <- app_assoc. reflexivity.
    + unfold Dict.keys in *. rewrite fmap_app, <- app_assoc. exact Hnd.
Qed.

(** X18: without a pattern, [_find_gbs] on a fresh collection gives one
    entry per file of the root directory, in the order of the sort, the
    file name being the identifier and the value its path under the root;
    so the identifiers are distinct, as the file names are. *)
Theorem find_gbs_all_files (root : string) (allfiles : list string) :
  NoDup allfiles → py_sorted allfiles ≡ₚ allfiles →
  _find_gbs py_sorted path_join root None allfiles []
  = (λ f, (f, path_join root f)) <$> py_sorted allfiles
  ∧ NoDup (Dict.keys (_find_gbs py_sorted path_join root None allfiles [])).
Proof.
  intros Hnd Hperm.
  assert (Hnd' : NoDup (py_sorted allfiles)) by (rewrite Hperm; exact Hnd).
  assert (Heq : _find_gbs py_sorted path_join root None allfiles []
                = (λ f, (f, path_join root f)) <$> py_sorted allfiles).
  { unfold _find_gbs. rewrite find_fresh; [reflexivity|exact Hnd']. }
  split; [exact Heq|]. rewrite Heq. unfold Dict.keys.
  rewrite <- list_fmap_compose.
  assert (Hid : (fst ∘ (λ f, (f, path_join root f))) <$> py_sorted allfiles
                = py_sorted allfiles).
  { generalize (py_sorted allfiles). intros l.
    induction l as [|f l IH]; [reflexivity|].
    rewrite fmap_cons. f_equal. exact IH. }
  rewrite Hid. exact Hnd'.
Qed.

Lemma find_pattern_get (root : string) (rx : string → option string)
    (names : list string) (k : string) :
  Dict.get k
    (foldl (λ gbfiles fname,
              match rx fname with
              | Some gbid => Dict.set gbid (path_join root fname) gbfiles
              | None => gbfiles
              end) [] names)
  = path_join root <$> last (filter (λ f, rx f = Some k) names).
Proof.
  induction names as [|f names IH] using rev_ind; [reflexivity|].
  rewrite foldl_app, filter_app, filter_cons, filter_nil. simpl.
  destruct (rx f) as [gbid|] eqn:Hf.
  - rewrite get_set. destruct (decide (k = gbid)) as [->|Hne].
    + rewrite decide_True by reflexivity. rewrite last_snoc. reflexivity.
    + rewrite decide_False by congruence. rewrite app_nil_r. exact IH.
  - rewrite decide_False by discriminate. rewrite app_nil_r. exact IH.
Qed.

Lemma find_pattern_NoDup (root : string) (rx : string → option string)
    (names : list string) (d : list (string * string)) :
  NoDup (Dict.keys d) →
  NoDup (Dict.keys
    (foldl (λ gbfiles fname,
              match rx fname with
              | Some gbid => Dict.set gbid (path_join root fname) gbfiles
              | None => gbfiles
              end) d names)).
Proof.
  revert d. induction names as [|f names IH]; intros d Hd; simpl; [exact Hd|].
  apply IH. destruct (rx f); [apply NoDup_keys_set, Hd|exact Hd].
Qed.

(** X19: with a pattern, [_find_gbs] on a fresh collection keeps the
    files that match: the identifiers found are distinct, they are the
    groups of the matching file names, and when several files give one
    identifier its path is that of the last of them in the order of the
    sort. *)
Theorem find_gbs_pattern (root : string) (rx : string → option string)
    (allfiles : list string) :
  py_sorted allfiles ≡ₚ allfiles →
  NoDup (Dict.keys (_find_gbs py_sorted path_join root (Some rx) allfiles []))
  ∧ (∀ k, k ∈ Dict.keys (_find_gbs py_sorted path_join root (Some rx)
                            allfiles [])
          ↔ ∃ f, f ∈ allfiles ∧ rx f = Some k)
  ∧ ∀ k, Dict.get k (_find_gbs py_sorted path_join root (Some rx) allfiles [])
         = path_join root
             <$> last (filter (λ f, rx f = Some k) (py_sorted allfiles)).
Proof.
  intros Hperm. unfold _find_gbs.
  split; [apply find_pattern_NoDup; constructor|].
  split; [|intros k; apply find_pattern_get].
  intros k. split.
  - intros Hk. apply get_is_Some in Hk as [p Hp].
    rewrite find_pattern_get in Hp.
    destruct (last _) as [f|] eqn:Hlast; [|discriminate].
    apply last_Some in Hlast as [l' Hl'].
    assert (Hin : f ∈ filter (λ f, rx f = Some k) (py_sorted allfiles)).
    { rewrite Hl'. apply elem_of_app. right. apply list_elem_of_here. }
    apply list_elem_of_filter in Hin as [Hf Hin].
    exists f. rewrite <- Hperm. auto.
  - intros (f & Hin & Hf).
    destruct (decide (k ∈ Dict.keys
      (foldl (λ gbfiles fname,
                match rx fname with
                | Some gbid => Dict.set gbid (path_join root fname) gbfiles
                | None => gbfiles
                end) [] (py_sorted allfiles)))) as [Hk|Hk]; [exact Hk|].
    exfalso. apply get_None in Hk. rewrite find_pattern_get in Hk.
    destruct (last _) as [f'|] eqn:Hlast; [discriminate|].
    apply last_None in Hlast.
    assert (Hin' : f ∈ filter (λ f, rx f = Some k) (py_sorted allfiles)).
    { apply list_elem_of_filter. rewrite Hperm. auto. }
    rewrite Hlast in Hin'. inversion Hin'.
Qed.


End DiscoveryFacts.

Lemma find_gbs_all_files_witness :
  NoDup (Dict.keys (_find_gbs reverse (λ r f, r ++ "/" ++ f)%string "root"
                      None ["b"%string; "a"%string] [])).
Proof.
  refine (proj2 (find_gbs_all_files reverse (λ r f, r ++ "/" ++ f)%string
                   "root" ["b"%string; "a"%string] _ _)).
  - refine (bool_decide_unpack _ _). vm_compute. exact I.
  - apply reverse_Permutation.
Defined.

Lemma find_gbs_pattern_witness :
  NoDup (Dict.keys
    (_find_gbs reverse (λ r f, r ++ "/" ++ f)%string "root"
       (Some (λ f, if decide (f = "skip"%string) then None
                   else Some "gb"%string))
       ["b"%string; "skip"%string; "a"%string] [])).
Proof.
  refine (proj1 (find_gbs_pattern reverse (λ r f, r ++ "/" ++ f)%string
                   "root" _ ["b"%string; "skip"%string; "a"%string] _)).
  apply reverse_Permutation.
Defined.


(** ** The feature list against the columns of [LER] *)

Section FeatureFacts.
Context {vec : Type} (soap_S : vec → vec → Q) {order : DictOrder}.
Variable feature_map_file : Q → string.
Variable py_repr : string → string.

Lemma U_twice (c c1 : Collection vec) (eps : Q) (r : UResult vec) :
  U soap_S c eps = (Ok r, c1) → U soap_S c1 eps = (Ok r, c1).
Proof.
  intros HU. apply U_Ok in HU
    as (c0 & g & Hg & -> & _ & _ & _ & Hc0).
  assert (Hget : store_get eps (store_U c0) = Some r).
  { destruct Hc0 as [[Hget ->]|(_ & _ & ->)]; [exact Hget|].
    simpl. apply store_get_put. }
  unfold U. simpl. rewrite Hget. simpl.
  rewrite (assign_all_idemp r _ _ Hg). reflexivity.
Qed.

(** [U] does not look at the fingerprint store. *)
Lemma U_with_store_LER (c : Collection vec) (eps : Q)
    (x : list (Q * list (list npfloat))) :
  U soap_S (with_store_LER c x) eps
  = ((U soap_S c eps).1, with_store_LER (U soap_S c eps).2 x).
Proof.
  assert (Hu : uniquify soap_S (with_store_LER c x) eps
               = uniquify soap_S c eps) by reflexivity.
  unfold U. rewrite Hu.
  change (store_U (with_store_LER c x)) with (store_U c).
  destruct (store_get eps (store_U c)) as [r|].
  - change (gbs (with_store_LER c x)) with (gbs c).
    destruct (assign_all r (gbs c)) as [g [e|]]; reflexivity.
  - destruct (uniquify soap_S c eps) as [[r w]|]; [|reflexivity].
    change (gbs (with_store_U (with_store_LER c x)
                   (store_put eps r (store_U c)))) with (gbs c).
    change (gbs (with_store_U c (store_put eps r (store_U c))))
      with (gbs c).
    destruct (assign_all r (gbs c)) as [g [e|]]; reflexivity.
Qed.

(** X21: after [LER] has computed the matrix for a threshold, [features]
    for that threshold (not in the feature store yet) returns a list with
    one identifier per column of the matrix, leaves the collection as it
    is, stores the list, and writes the feature map: one line per feature
    in column order, made of its index from 0, the identifier and the
    letter q, separated by tabs. *)
Theorem features_match_LER (c c' : Collection vec) (eps : Q)
    (M : list (list npfloat)) (sf : list (Q * list key))
    (fl : list (string * list string)) :
  store_get eps (store_LER c) = None →
  LER soap_S c eps = (Ok M, c') →
  store_get eps sf = None →
  ∃ f,
    features soap_S feature_map_file py_repr
      {| col := c'; store_features := sf; files := fl |} eps
    = (Ok f,
       {| col := c'; store_features := store_put eps f sf;
          files := Dict.set (feature_map_file eps)
                     (imap (format_feature py_repr) f) fl |})
    ∧ Forall (λ row, length row = length f) M.
Proof.
  intros HmL HL Hmf. unfold LER in HL. rewrite HmL in HL.
  destruct (U soap_S c eps) as [[r|e] c1] eqn:HU; [|discriminate].
  destruct (mapM _ (gbs c1)) as [M0|] eqn:HM; [|discriminate].
  injection HL as <- <-.
  exists (Dict.keys (r_U r)). split.
  - unfold features. simpl. rewrite Hmf, U_with_store_LER.
    rewrite (U_twice _ _ _ _ HU). simpl.
    unfold _create_feature_map. simpl. rewrite store_get_put. reflexivity.
  - apply mapM_Ok in HM. apply Forall_forall. intros row Hrow.
    apply list_elem_of_lookup in Hrow as [i Hi].
    destruct (Forall2_lookup_r _ _ _ _ _ HM Hi) as (gs & _ & Hrow).
    apply LER_row_Ok in Hrow as [Hlen _]. exact Hlen.
Qed.
End FeatureFacts.

Lemma features_match_LER_witness :
  let c := Examples.collection (Some 0) [("a"%string, [0; 1 # 2])] in
  ∃ M c' f st',
    LER Examples.dist (order := insertion_order) c (1 # 10) = (Ok M, c')
    ∧ features Examples.dist (order := insertion_order)
        (λ _, "features.dat"%string) (λ s, s)
        {| col := c'; store_features := []; files := [] |} (1 # 10)
      = (Ok f, st').
Proof.
  intros c.
  eassert (HL : LER Examples.dist (order := insertion_order) c (1 # 10)
                = (Ok _, _)) by (vm_compute; reflexivity).
  destruct (features_match_LER Examples.dist (order := insertion_order)
              (λ _, "features.dat"%string) (λ s, s) c _ (1 # 10) _ [] []
              eq_refl HL eq_refl) as (f & Hf & _).
  eexists _, _, f, _. split; [exact HL|exact Hf].
Defined.

(** ** Neighbour shells *)

Lemma StronglySorted_symmetric_perm {A} (R : relation A) (l l' : list A) :
  (∀ x y, R x y → R y x) → l ≡ₚ l' →
  StronglySorted R l → StronglySorted R l'.
Proof.
  intros Hsym Hperm. induction Hperm as [|x l l' Hp IH|x y l|l l' l'' _ IH1 _ IH2].
  - auto.
  - intros Hs. apply StronglySorted_inv in Hs as [Hs Hx].
    constructor; [exact (IH Hs)|]. rewrite <- Hp. exact Hx.
  - intros Hs. apply StronglySorted_inv in Hs as [Hs Hy].
    apply StronglySorted_inv in Hs as [Hs Hx].
    apply Forall_cons in Hy as [Hyx Hy].
    constructor; [constructor; assumption|].
    constructor; [exact (Hsym _ _ Hyx)|exact Hx].
  - auto.
Qed.

Module ElementFacts.
Import Elements.

Lemma Q_abs_sym (a b : Q) : Q_abs (a - b) == Q_abs (b - a).
Proof.
  unfold Q_abs. destruct (decide (a - b < 0)), (decide (b - a < 0)); lra.
Qed.

Lemma Q_abs_self (a : Q) : Q_abs (a - a) < tolerance.
Proof.
  unfold Q_abs, tolerance. destruct (decide (a - a < 0)); lra.
Qed.

Lemma insert_asc_perm (x : Q) (l : list Q) : insert_asc x l ≡ₚ x :: l.
Proof.
  induction l as [|y l IH]; simpl; [reflexivity|].
  destruct (decide (y < x)); [|reflexivity].
  rewrite IH. apply perm_swap.
Qed.

Lemma sorted_asc_perm (l : list Q) : sorted_asc l ≡ₚ l.
Proof.
  induction l as [|x l IH]; simpl; [reflexivity|].
  rewrite insert_asc_perm, IH. reflexivity.
Qed.

Lemma insert_asc_sorted (x : Q) (l : list Q) :
  StronglySorted Qle l → StronglySorted Qle (insert_asc x l).
Proof.
  induction 1 as [|y l Hl IH Hy]; simpl.
  - repeat constructor.
  - destruct (decide (y < x)) as [Hlt|Hge].
    + constructor; [exact IH|]. rewrite insert_asc_perm.
      constructor; [apply Qlt_le_weak, Hlt|exact Hy].
    + apply Qnot_lt_le in Hge. constructor; [constructor; assumption|].
      constructor; [exact Hge|].
      eapply Forall_impl; [exact Hy|]. intros z Hz.
      exact (Qle_trans _ _ _ Hge Hz).
Qed.

Lemma sorted_asc_sorted (l : list Q) : StronglySorted Qle (sorted_asc l).
Proof.
  induction l as [|x l IH]; simpl; [constructor|].
  apply insert_asc_sorted, IH.
Qed.

(** The distances kept by the loop: apart by the tolerance at least, taken
    from the input, and near every distance of the input. *)
Lemma add_shells (ds : list Q) (result : list Q) :
  StronglySorted (λ a b, tolerance <= Q_abs (b - a)) result →
  StronglySorted (λ a b, tolerance <= Q_abs (b - a))
                 (foldl add_shell result ds)
  ∧ (∀ s, s ∈ foldl add_shell result ds → s ∈ result ∨ s ∈ ds)
  ∧ (∀ s, s ∈ result → s ∈ foldl add_shell result ds)
  ∧ (∀ d, d ∈ ds →
          ∃ s, s ∈ foldl add_shell result ds ∧ Q_abs (d - s) < tolerance).
Proof.
  revert result. induction ds as [|d ds IH]; intros result Hsep; simpl.
  - split; [exact Hsep|]. split; [auto|]. split; [auto|].
    intros d Hd. inversion Hd.
  - assert (Hstep : StronglySorted (λ a b, tolerance <= Q_abs (b - a))
                      (add_shell result d)
                    ∧ (∀ s, s ∈ add_shell result d → s ∈ result ∨ s = d)
                    ∧ (∀ s, s ∈ result → s ∈ add_shell result d)
                    ∧ ∃ s, s ∈ add_shell result d
                           ∧ Q_abs (d - s) < tolerance).
    { unfold add_shell. destruct (bool_decide _) eqn:Hd.
      - apply bool_decide_eq_true in Hd.
        split; [exact Hsep|]. split; [auto|]. split; [auto|].
        apply Exists_exists in Hd. exact Hd.
      - apply bool_decide_eq_false in Hd. split; [|split; [|split]].
        + apply StronglySorted_snoc; [exact Hsep|].
          apply Forall_forall. intros s Hs.
          apply Qnot_lt_le. intros Hlt. apply Hd.
          apply Exists_exists. exists s. auto.
        + intros s Hs. apply elem_of_app in Hs as [Hs|Hs]; [auto|].
          apply list_elem_of_singleton in Hs. auto.
        + intros s Hs. apply elem_of_app. auto.
        + exists d. split; [|apply Q_abs_self].
          apply elem_of_app. right. apply list_elem_of_here. }
    destruct Hstep as (Hsep1 & Hfrom1 & Hkeep1 & s1 & Hs1 & Hnear1).
    destruct (IH _ Hsep1) as (Hsep2 & Hfrom2 & Hkeep2 & Hnear2).
    split; [exact Hsep2|]. split; [|split].
    + intros s Hs. destruct (Hfrom2 s Hs) as [Hin|Hin].
      * destruct (Hfrom1 s Hin) as [?| ->]; [auto|].
        right. apply list_elem_of_here.
      * right. apply list_elem_of_further, Hin.
    + intros s Hs. apply Hkeep2, Hkeep1, Hs.
    + intros d' Hd'. apply elem_of_cons in Hd' as [->|Hd'].
      * exists s1. split; [apply Hkeep2, Hs1|exact Hnear1].
      * apply Hnear2, Hd'.
Qed.

Lemma sorted_gaps (l : list Q) :
  StronglySorted Qle l →
  StronglySorted (λ a b, tolerance <= Q_abs (b - a)) l →
  StronglySorted (λ a b, a + tolerance <= b) l.
Proof.
  induction 1 as [|x l Hl IH Hx]; intros Hsep; [constructor|].
  apply StronglySorted_inv in Hsep as [Hsep Hxs].
  constructor; [exact (IH Hsep)|].
  apply Forall_forall. intros y Hy.
  pose proof (proj1 (Forall_forall _ _) Hx y Hy) as Hle.
  pose proof (proj1 (Forall_forall _ _) Hxs y Hy) as Hge.
  simpl in Hge. unfold Q_abs in Hge.
  destruct (decide (y - x < 0)); lra.
Qed.

Section ShellFacts.
Context {Atoms : Type}.
Variable structure : string → option (Q → nat → Atoms).
Variable neighbour_distances : Atoms → Q → list Q.

(** X22: the first call of [shells] for an element.  When [atoms] gives
    no structure (the element is not in the table, or its lattice is not
    one of the structures) the call raises [AttributeError] and caches
    nothing.  Otherwise it caches a list of shells and answers from it:
    the shells increase, each by the tolerance at least over the one
    before; every shell is one of the neighbour distances, and every
    neighbour distance is within the tolerance of a shell. *)
Theorem shells_first_call (_shells : gmap string (list Q)) (element : string)
    (n : Z) (rcut : Q) :
  _shells !! element = None →
  match (atoms structure element).1 with
  | None =>
      shells structure neighbour_distances _shells element n rcut
      = (Raise AttributeError, _shells)
  | Some a =>
      ∃ sh,
        shells structure neighbour_distances _shells element n rcut
        = (Ok (py_prefix sh (Z.min n (Z.of_nat (length sh)))),
           <[element := sh]> _shells)
        ∧ StronglySorted (λ x y, x + tolerance <= y) sh
        ∧ (∀ s, s ∈ sh → s ∈ neighbour_distances a rcut)
        ∧ (∀ d, d ∈ neighbour_distances a rcut →
                ∃ s, s ∈ sh ∧ Q_abs (d - s) < tolerance)
  end.
Proof.
  intros Hmiss. unfold shells. rewrite Hmiss.
  destruct (atoms structure element).1 as [a|]; [|reflexivity].
  eexists. split; [reflexivity|].
  destruct (add_shells (neighbour_distances a rcut) [])
    as (Hsep & Hfrom & _ & Hnear); [constructor|].
  split; [|split].
  - apply sorted_gaps; [apply sorted_asc_sorted|].
    eapply StronglySorted_symmetric_perm; [| |exact Hsep].
    + intros x y Hxy. rewrite Q_abs_sym. exact Hxy.
    + symmetry. apply sorted_asc_perm.
  - intros s Hs. rewrite sorted_asc_perm in Hs.
    destruct (Hfrom s Hs) as [Hin|Hin]; [inversion Hin|exact Hin].
  - intros d Hd. destruct (Hnear d Hd) as (s & Hs & Hlt).
    exists s. split; [|exact Hlt]. rewrite sorted_asc_perm. exact Hs.
Qed.

(** X23: once [shells] has answered for an element, every later call for
    that element answers from the cached list, whatever the cutoff
    [rcut] of the later call: a larger cutoff finds no further shell. *)
Theorem shells_cached (_shells _shells' : gmap string (list Q))
    (element : string) (n : Z) (rcut : Q) (l : list Q) :
  shells structure neighbour_distances _shells element n rcut
    = (Ok l, _shells') →
  ∃ sh,
    _shells' !! element = Some sh
    ∧ l = py_prefix sh (Z.min n (Z.of_nat (length sh)))
    ∧ ∀ n' rcut',
        shells structure neighbour_distances _shells' element n' rcut'
        = (Ok (py_prefix sh (Z.min n' (Z.of_nat (length sh)))), _shells').
Proof.
  unfold shells at 1.
  destruct (_shells !! element) as [sh|] eqn:Hsh.
  - intros [= <- <-]. exists sh. split; [exact Hsh|]. split; [reflexivity|].
    intros n' rcut'. unfold shells. rewrite Hsh. reflexivity.
  - destruct (atoms structure element).1 as [a|]; [|discriminate].
    intros [= <- <-]. eexists. split; [apply lookup_insert_eq|].
    split; [reflexivity|].
    intros n' rcut'. unfold shells. rewrite lookup_insert_eq. reflexivity.
Qed.

(** X24: the number of shells returned from a cached list: the first [n]
    of them, or all when there are fewer, for [n] that is not negative;
    for a negative [n] not the empty list but all shells except the last
    [-n]. *)
Theorem shells_count (_shells : gmap string (list Q)) (element : string)
    (n : Z) (rcut : Q) (sh : list Q) :
  _shells !! element = Some sh →
  shells structure neighbour_distances _shells element n rcut
  = (Ok (if decide (n < 0)%Z then take (length sh - Z.to_nat (- n)) sh
         else take (Z.to_nat n) sh), _shells).
Proof.
  intros Hsh. unfold shells. rewrite Hsh. f_equal. f_equal.
  unfold py_prefix. destruct (decide (n < 0)%Z) as [Hneg|Hpos].
  - rewrite Z.min_l by lia. rewrite decide_True by exact Hneg.
    f_equal. lia.
  - destruct (decide (n <= Z.of_nat (length sh))%Z) as [Hle|Hgt].
    + rewrite Z.min_l by exact Hle. rewrite decide_False by exact Hpos.
      reflexivity.
    + rewrite Z.min_r by lia. rewrite decide_False by lia.
      rewrite Nat2Z.id, !firstn_all2 by lia. reflexivity.
Qed.
End ShellFacts.
End ElementFacts.

Lemma shells_first_call_witness :
  ∃ sh,
    Elements.shells (λ _, Some (λ latpar _, latpar))
      (λ a rcut, [a; a + a; a; rcut]) ∅ "Ni" 6 6
    = (Ok (Elements.py_prefix sh (Z.min 6 (Z.of_nat (length sh)))),
       <["Ni"%string := sh]> ∅).
Proof.
  pose proof (ElementFacts.shells_first_call (λ _, Some (λ latpar _, latpar))
                (λ a rcut, [a; a + a; a; rcut]) ∅ "Ni" 6 6 eq_refl) as H.
  destruct H as (sh & Hsh & _). exists sh. exact Hsh.
Defined.

Lemma shells_cached_witness :
  ∃ sh,
    (<["Ni"%string := [1; 2]]> ∅ : gmap string (list Q)) !! "Ni"%string
    = Some sh.
Proof.
  assert (Hrun : Elements.shells (λ _, Some (λ latpar _, latpar))
                   (λ a rcut, [a; rcut]) (<["Ni"%string := [1; 2]]> ∅)
                   "Ni" 1 6
                 = (Ok [1], <["Ni"%string := [1; 2]]> ∅))
    by (vm_compute; reflexivity).
  destruct (ElementFacts.shells_cached (λ _, Some (λ latpar _, latpar))
              (λ a rcut, [a; rcut]) (<["Ni"%string := [1; 2]]> ∅)
              (<["Ni"%string := [1; 2]]> ∅) "Ni" 1 6 [1] Hrun)
    as (sh & Hsh & _).
  exists sh. exact Hsh.
Defined.

Lemma shells_count_witness :
  Elements.shells (λ _, Some (λ latpar _, latpar)) (λ a rcut, [a; rcut])
    (<["Ni"%string := [1; 2; 3]]> ∅) "Ni" (-1) 6
  = (Ok [1; 2], <["Ni"%string := [1; 2; 3]]> ∅).
Proof.
  exact (ElementFacts.shells_count (λ _, Some (λ latpar _, latpar))
           (λ a rcut, [a; rcut]) (<["Ni"%string := [1; 2; 3]]> ∅) "Ni" (-1) 6
           [1; 2; 3] eq_refl).
Defined.

(** ** The extras of a new boundary *)

Section Extras.
Import GrainBoundary.
Context {array calculator : Type}.
Variable make_lattice : array → res array.
Variable SOAPCalculator : gmap string pyval → res calculator.
Variable copy_extra : array → array.
Variable attributes : list string.




End Extras.


(** ** A threshold that every row meets against the seed *)

Section Collapse.
Context {vec : Type} (soap_S : vec → vec → Q) {order : DictOrder}.

Lemma collapse_extraction (c : Collection vec) (eps : Q) (sd : vec) :
  NoDup (gbs c).*1 → seed_key.1 ∉ (gbs c).*1 →
  (∀ gs Pv, gs ∈ gbs c → Pv ∈ P gs.2 → soap_S Pv sd < eps) →
  extraction soap_S sd (gbs c) eps = [(seed_key, sd)].
Proof.
  intros Hnd Hsent Hnear.
  rewrite (extraction_extract_rule soap_S sd (gbs c) eps Hnd Hsent).
  unfold extract_rule. apply fold_insert_collapse.
  apply Forall_forall. intros a Ha.
  apply atoms_rows in Ha as (gs & Hgs & HPv). exact (Hnear gs _ Hgs HPv).
Qed.

Lemma collapse_run (c : Collection vec) (eps : Q) (sd : vec)
    (r : UResult vec) (w : list key) :
  seed c = Some sd → NoDup (gbs c).*1 → seed_key.1 ∉ (gbs c).*1 →
  (∀ gs Pv, gs ∈ gbs c → Pv ∈ P gs.2 → soap_S Pv sd < eps) →
  uniquify soap_S c eps = Ok (r, w) →
  w = []
  ∧ (r_U r = [(seed_key, sd)]
     ∨ (r_U r = [] ∧ ∀ gs, gs ∈ gbs c → P gs.2 = []))
  ∧ ∀ gs, gs ∈ gbs c →
      ∃ L, r_GBs r !! gs.1 = Some L
        ∧ ∀ i, (i < length (P gs.2))%nat → (gs.1, i) ∈ members L seed_key.
Proof.
  intros Hseed Hnd Hsent Hnear Hu.
  destruct (finalized_catalogue soap_S c eps sd r w Hseed Hu)
    as (used & U2 & Hcl & HU2 & _ & Hperm & _).
  rewrite (collapse_extraction c eps sd Hnd Hsent Hnear) in Hcl, HU2.
  destruct (classification_Ok soap_S _ _ _ _ _ _ Hnd Hcl)
    as (Hk & Hused & Hres & Hwn).
  assert (Hw : w = []).
  { destruct w as [|x w']; [reflexivity|]. exfalso.
    destruct (Hwn x (list_elem_of_here _ _))
      as (gs & Pv & Hgs & _ & HPv & Hall).
    apply Forall_cons in Hall as [Hge _]. simpl in Hge.
    apply (Qlt_not_le _ _ (Hnear gs Pv Hgs
             (proj2 (list_elem_of_lookup _ _) (ex_intro _ _ HPv)))).
    exact Hge. }
  assert (Honly : ∀ u, Dict.get u used = Some true → u = seed_key).
  { intros u Hget.
    assert (Hin : u ∈ Dict.keys used).
    { destruct (decide (u ∈ Dict.keys used)) as [Hin|Hout]; [exact Hin|].
      apply get_None in Hout. congruence. }
    rewrite Hk in Hin. apply unused_keys in Hin. simpl in Hin.
    apply list_elem_of_singleton in Hin. exact Hin. }
  assert (Hmem : ∀ gs, gs ∈ gbs c →
    ∃ L, r_GBs r !! gs.1 = Some L
      ∧ ∀ i, (i < length (P gs.2))%nat → (gs.1, i) ∈ members L seed_key).
  { intros gs Hgs. destruct (Hres gs Hgs) as (L & HL & _ & Hm & Hcov).
    exists L. split; [exact HL|]. intros i Hi.
    destruct (Hcov i Hi) as [Hin|[u Hu']].
    - rewrite Hw in Hin. inversion Hin.
    - destruct (Hm u _ Hu') as [Hget _].
      rewrite <- (Honly u Hget). exact Hu'. }
  split; [exact Hw|]. split; [|exact Hmem].
  assert (Hndu : NoDup (Dict.keys used)) by (rewrite Hk; apply unused_NoDup).
  destruct (Dict.get seed_key used) as [[|]|] eqn:Hget.
  - left. apply Permutation_singleton_r. rewrite Hperm, HU2.
    rewrite filter_cons, filter_nil. rewrite decide_True; [reflexivity|].
    simpl. intros Hin. apply (elem_get _ _ _ Hndu) in Hin. congruence.
  - right.
    assert (HU2' : U2 = []).
    { rewrite HU2, filter_cons, filter_nil. rewrite decide_False; [reflexivity|].
      simpl. intros Hnot. apply Hnot. exact (get_Some_elem _ _ _ Hget). }
    split.
    + apply Permutation_nil_r. rewrite Hperm, HU2'. reflexivity.
    + intros gs Hgs. destruct (P gs.2) as [|Pv rows] eqn:HP; [reflexivity|].
      exfalso. destruct (Hres gs Hgs) as (L & HL & _ & Hm & Hcov).
      destruct (Hcov 0%nat) as [Hin|[u Hu']].
      * rewrite HP. simpl. lia.
      * rewrite Hw in Hin. inversion Hin.
      * destruct (Hm u _ Hu') as [Hgu _].
        rewrite (Honly u Hgu) in Hgu. congruence.
  - exfalso. apply get_None in Hget. apply Hget. rewrite Hk.
    apply unused_keys. simpl. apply list_elem_of_here.
Qed.

(** X26: on a collection with distinct sample identifiers, none the
    sentinel's, when every descriptor row is below the threshold of the
    seed, the threshold is at most 1 and there is a row at all:
    [uniquify] returns without a warning, the finalized catalogue is the
    seed entry alone, and every atom of every sample is classified to the
    seed. *)
Theorem collapse_catalogue (c : Collection vec) (eps : Q) (sd : vec) :
  seed c = Some sd → NoDup (gbs c).*1 → seed_key.1 ∉ (gbs c).*1 →
  (∀ gs Pv, gs ∈ gbs c → Pv ∈ P gs.2 → soap_S Pv sd < eps) →
  eps <= 1 → Exists (λ gs, P gs.2 ≠ []) (gbs c) →
  ∃ r,
    uniquify soap_S c eps = Ok (r, [])
    ∧ r_U r = [(seed_key, sd)]
    ∧ ∀ gs, gs ∈ gbs c →
        ∃ L, r_GBs r !! gs.1 = Some L
          ∧ ∀ i, (i < length (P gs.2))%nat →
                 (gs.1, i) ∈ members L seed_key.
Proof.
  intros Hseed Hnd Hsent Hnear Hle Hrows.
  destruct (uniquify_total soap_S c eps sd Hseed Hle) as (r & w & Hu).
  destruct (collapse_run c eps sd r w Hseed Hnd Hsent Hnear Hu)
    as (-> & HU & Hmem).
  exists r. split; [exact Hu|]. split; [|exact Hmem].
  destruct HU as [HU|[_ Hnone]]; [exact HU|].
  apply Exists_exists in Hrows as (gs & Hgs & Hne).
  exfalso. exact (Hne (Hnone gs Hgs)).
Qed.

(** X27: under the same conditions on the rows, when [LER] computes the
    matrix for the threshold and returns it, the matrix has a row per
    boundary and the row of a boundary that has atoms is the single
    entry 1. *)
Theorem collapse_fingerprint (c c' : Collection vec) (eps : Q) (sd : vec)
    (M : list (list npfloat)) :
  seed c = Some sd → NoDup (gbs c).*1 → seed_key.1 ∉ (gbs c).*1 →
  (∀ gs Pv, gs ∈ gbs c → Pv ∈ P gs.2 → soap_S Pv sd < eps) →
  store_get eps (store_U c) = None →
  store_get eps (store_LER c) = None →
  LER soap_S c eps = (Ok M, c') →
  length M = length (gbs c)
  ∧ ∀ i gs row, gbs c !! i = Some gs → M !! i = Some row →
      xyz_len gs.2 ≠ 0%nat → ∃ q, row = [Fin q] ∧ q == 1.
Proof.
  intros Hseed Hnd Hsent Hnear HmU HmL HL.
  unfold LER in HL. rewrite HmL in HL.
  destruct (U soap_S c eps) as [[r|e] c1] eqn:HU; [|discriminate].
  destruct (mapM _ (gbs c1)) as [M0|] eqn:HM; [|discriminate].
  injection HL as <- <-. apply mapM_Ok in HM.
  pose proof (U_same soap_S c eps) as Hsame. rewrite HU in Hsame.
  simpl in Hsame.
  apply U_Ok in HU as (c0 & g & _ & _ & _ & _ & _ & Hc0).
  destruct Hc0 as [[Hget _]|(_ & [w Hu] & _)]; [congruence|].
  destruct (collapse_run c eps sd r w Hseed Hnd Hsent Hnear Hu)
    as (_ & HU & _).
  split.
  { rewrite <- (Forall2_length _ _ _ HM).
    symmetry. exact (Forall2_length _ _ _ Hsame). }
  intros i gs row Hgs Hrow Hlen.
  destruct (Forall2_lookup_r _ _ _ _ _ HM Hrow) as (gs1 & Hgs1 & Hrun).
  pose proof (Forall2_lookup_lr _ _ _ _ _ _ Hsame Hgs Hgs1)
    as (_ & Hx & _).
  apply LER_row_Ok in Hrun as (Hrl & _ & Hfin).
  destruct Hfin as (qs & -> & _ & Hsum); [congruence|].
  rewrite length_fmap in Hrl.
  destruct HU as [HU|[HU _]]; rewrite HU in Hrl; simpl in Hrl.
  - destruct qs as [|q [|q' qs]]; try discriminate.
    exists q. split; [reflexivity|]. simpl in Hsum. lra.
  - destruct qs; [|discriminate]. simpl in Hsum. lra.
Qed.
End Collapse.

Lemma collapse_rows_near :
  ∀ gs Pv,
    gs ∈ gbs (Examples.collection (Some 0)
                [("a"%string, [0; 1 # 20]); ("b"%string, [1 # 40])]) →
    Pv ∈ P gs.2 → Examples.dist Pv 0 < 1 # 10.
Proof.
  intros gs Pv Hgs HPv.
  apply list_elem_of_In in Hgs. vm_compute in Hgs.
  destruct Hgs as [<-|[<-|[]]]; apply list_elem_of_In in HPv;
    vm_compute in HPv.
  - destruct HPv as [<-|[<-|[]]]; reflexivity.
  - destruct HPv as [<-|[]]; reflexivity.
Qed.

Lemma collapse_catalogue_witness :
  let c := Examples.collection (Some 0)
             [("a"%string, [0; 1 # 20]); ("b"%string, [1 # 40])] in
  ∃ r,
    Examples.run_uniquify c (1 # 10) = Ok (r, [])
    ∧ r_U r = [(seed_key, 0)].
Proof.
  intros c.
  assert (Hnd : NoDup (gbs c).*1)
    by (refine (bool_decide_unpack _ _); vm_compute; exact I).
  assert (Hsent : seed_key.1 ∉ (gbs c).*1)
    by (refine (bool_decide_unpack _ _); vm_compute; exact I).
  destruct (collapse_catalogue Examples.dist (order := insertion_order)
              c (1 # 10) 0 eq_refl Hnd Hsent collapse_rows_near)
    as (r & Hu & HU & _).
  - discriminate.
  - apply Exists_cons_hd. discriminate.
  - exists r. split; [exact Hu|exact HU].
Defined.

Lemma collapse_fingerprint_witness :
  let c := Examples.collection (Some 0)
             [("a"%string, [0; 1 # 20]); ("b"%string, [1 # 40])] in
  ∃ M c',
    LER Examples.dist (order := insertion_order) c (1 # 10) = (Ok M, c')
    ∧ length M = length (gbs c).
Proof.
  intros c.
  assert (Hnd : NoDup (gbs c).*1)
    by (refine (bool_decide_unpack _ _); vm_compute; exact I).
  assert (Hsent : seed_key.1 ∉ (gbs c).*1)
    by (refine (bool_decide_unpack _ _); vm_compute; exact I).
  eassert (HL : LER Examples.dist (order := insertion_order) c (1 # 10)
                = (Ok _, _)) by (vm_compute; reflexivity).
  eexists _, _. split; [exact HL|].
  exact (proj1 (collapse_fingerprint Examples.dist
                  (order := insertion_order) c _ (1 # 10) 0 _
                  eq_refl Hnd Hsent collapse_rows_near eq_refl eq_refl HL)).
Defined.

(** ** The fingerprint of a boundary without atoms *)

Lemma sum_list_zero (counts : list nat) :
  sum_list counts = 0%nat → Forall (λ c, c = 0%nat) counts.
Proof.
  induction counts as [|c counts IH]; [constructor|].
  rewrite sum_list_cons. intros Hsum.
  constructor; [lia|]. apply IH. lia.
Qed.

Section NoAtoms.
Context {vec : Type}.

(** X28: the row that [LER] computes for a boundary of length 0 holds a
    NaN in every column, not zeros: the counts are all 0, the assertion
    passes, and the row is divided by the total 0. *)
Theorem LER_row_no_atoms (uids : list key) (s : Sample vec)
    (row : list npfloat) :
  xyz_len s = 0%nat → LER_row uids s = Ok row →
  row = replicate (length uids) NaN.
Proof.
  intros Hlen. unfold LER_row.
  destruct (mapM (LAE_count s) uids) as [counts|] eqn:Hc; [|discriminate].
  cbn. destruct (decide _) as [HN|]; [|discriminate]. intros [= <-].
  apply mapM_Ok in Hc. rewrite (Forall2_length _ _ _ Hc).
  rewrite Hlen in HN. rewrite HN.
  apply sum_list_zero in HN. clear Hc.
  induction HN as [|c counts -> _ IH]; [reflexivity|].
  change (npdiv 0 0 :: ((λ c, npdiv c 0) <$> counts)
          = NaN :: replicate (length counts) NaN).
  rewrite IH. reflexivity.
Qed.
End NoAtoms.

Lemma LER_row_no_atoms_witness :
  ∃ row,
    LER_row [seed_key; ("a"%string, 1%nat)]
            {| xyz_len := 0; P := @nil Q; LAEs := Some [] |} = Ok row
    ∧ row = replicate 2 NaN.
Proof.
  eassert (Hrun : LER_row [seed_key; ("a"%string, 1%nat)]
                    {| xyz_len := 0; P := @nil Q; LAEs := Some [] |}
                  = Ok _) by (vm_compute; reflexivity).
  eexists. split; [exact Hrun|].
  exact (LER_row_no_atoms [seed_key; ("a"%string, 1%nat)]
           {| xyz_len := 0; P := @nil Q; LAEs := Some [] |} _ eq_refl Hrun).
Defined.
